(** * editorlint: the rule engine, the property cascade and the glob matcher

    A shallow embedding of the Go packages [rules], [config] and [validator]
    of editorlint, and the properties of its design document checked
    against it.

    Conventions of the embedding:
    - a Go [[]byte] is a [list byte]; a Go [string] is a [string] (and a
      [list ascii] where it is scanned character by character);
    - a Go [int] is a [Z]; a nilable pointer [*T] is an [option T];
    - a Go [error] is an [option] carrying the message, [None] being [nil];
    - a Go [map[string]string] is a [gmap string string]. *)

From Stdlib Require Import ZArith Lia Strings.Ascii Strings.String Strings.Byte.
From stdpp Require Import base option list gmap strings pretty.

Local Open Scope string_scope.
Local Open Scope list_scope.
Local Open Scope Z_scope.

(* ================================================================== *)
(** ** Slices: the functions of Go's [bytes] and [strings] packages that
       the program calls *)
(* ================================================================== *)

Section GoSlices.
Context {A : Type} `{EqDecision A}.

(** [bytes.HasPrefix] / [strings.HasPrefix]. *)
Fixpoint HasPrefix (s prefix : list A) : bool :=
  match prefix, s with
  | [], _ => true
  | p :: ps, x :: xs => bool_decide (x = p) && HasPrefix xs ps
  | _ :: _, [] => false
  end.

(** [bytes.Contains]. *)
Fixpoint Contains (s sub : list A) : bool :=
  HasPrefix s sub ||
  match s with
  | [] => false
  | _ :: xs => Contains xs sub
  end.

(** [bytes.ReplaceAll] / [strings.ReplaceAll] for a non-empty [old], as at
    every call site: the leftmost occurrence is replaced and the scan
    resumes after it. [skip] counts the elements of a replaced occurrence
    that are still to be passed over. *)
Fixpoint replaceFrom (skip : nat) (old new s : list A) : list A :=
  match s with
  | [] => []
  | x :: xs =>
      match skip with
      | S k => replaceFrom k old new xs
      | O =>
          if HasPrefix s old
          then new ++ replaceFrom (Nat.pred (length old)) old new xs
          else x :: replaceFrom 0 old new xs
      end
  end.

Definition ReplaceAll (s old new : list A) : list A :=
  replaceFrom 0 old new s.

(** [bytes.Split] / [strings.Split] for a separator of one element, as at
    every call site. *)
Fixpoint Split (s : list A) (sep : A) : list (list A) :=
  match s with
  | [] => [[]]
  | x :: xs =>
      if bool_decide (x = sep) then [] :: Split xs sep
      else match Split xs sep with
           | l :: ls => (x :: l) :: ls
           | [] => [[x]]
           end
  end.

(** [bytes.Join] / [strings.Join]. *)
Fixpoint Join (parts : list (list A)) (sep : list A) : list A :=
  match parts with
  | [] => []
  | [p] => p
  | p :: ps => p ++ sep ++ Join ps sep
  end.

(** [bytes.TrimRightFunc], for a predicate that holds of one-byte
    characters only (space and tab at the call site), so that decoding
    runes from the right and reading bytes from the right agree. *)
Fixpoint TrimRightFunc (s : list A) (f : A -> bool) : list A :=
  match s with
  | [] => []
  | x :: xs =>
      match TrimRightFunc xs f with
      | [] => if f x then [] else [x]
      | r => x :: r
      end
  end.

(** [bytes.Equal]. *)
Definition Equal (a b : list A) : bool := bool_decide (a = b).

(** [s[len(s)-1]], when [s] is not empty. *)
Definition lastElem (s : list A) : option A := last s.
End GoSlices.

#[global] Instance byte_eq_dec : EqDecision byte := Byte.byte_eq_dec.

Definition LF : byte := x0a.
Definition CR : byte := x0d.
Definition SP : byte := x20.
Definition TAB : byte := x09.

(** The bytes of an ASCII string literal. *)
Definition bytes (s : string) : list byte := list_byte_of_string s.

(* ================================================================== *)
(** ** Package [config]: the resolved configuration *)
(* ================================================================== *)

Record ResolvedConfig := mkResolved {
  IndentStyle : string;
  IndentSize : option Z;
  TabWidth : option Z;
  EndOfLine : string;
  Charset : string;
  TrimTrailingWhitespace : option bool;
  InsertFinalNewline : option bool;
  MaxLineLength : option Z
}.

(** [&ResolvedConfig{}]: every field at its zero value. *)
Definition emptyResolved : ResolvedConfig :=
  mkResolved "" None None "" "" None None None.

(* ================================================================== *)
(** ** Package [rules]: validators and fixers *)
(* ================================================================== *)

Record ValidationError := mkViolation {
  FilePath : string;
  Rule : string;
  Message : string
}.

(** A fixer returns the content, the changed flag and an error. *)
Definition FixResult : Type := list byte * bool * option string.

Definition ValidatorFunc : Type :=
  string -> list byte -> ResolvedConfig -> option ValidationError.
Definition FixerFunc : Type :=
  string -> list byte -> ResolvedConfig -> FixResult.

(** [cfg.X == nil || !*cfg.X] *)
Definition notEnabled (flag : option bool) : bool :=
  match flag with
  | None => true
  | Some b => negb b
  end.

(** *** Formatting verbs of [fmt.Sprintf] *)

Definition hexDigit (n : N) : ascii :=
  ascii_of_N (if (n <? 10)%N then 48 + n else 87 + n)%N.

(** [%02x] of a byte. *)
Definition fmt02x (b : byte) : string :=
  let n := Byte.to_N b in
  String (hexDigit (n / 16)%N) (String (hexDigit (n mod 16)%N) EmptyString).

(** [%c] of a byte: the UTF-8 encoding of the code point of that value. *)
Definition fmtc (b : byte) : string :=
  let n := Byte.to_N b in
  if (n <? 128)%N then String (ascii_of_N n) EmptyString
  else String (ascii_of_N (192 + n / 64)%N)
         (String (ascii_of_N (128 + n mod 64)%N) EmptyString).

Definition getEndOfLineDescription (endOfLine : string) : string :=
  if bool_decide (endOfLine = "crlf") then "CRLF (\r\n)"
  else if bool_decide (endOfLine = "cr") then "CR (\r)"
  else if bool_decide (endOfLine = "lf") || bool_decide (endOfLine = "")
       then "LF (\n)"
  else "unknown line ending: " +:+ endOfLine.

(** *** insert_final_newline *)

(** The classification both functions make of the last bytes of a non-empty
    content: it ends with CRLF, with CR, with LF, or with the given other
    byte. *)
Inductive Ending := EndCRLF | EndCR | EndLF | EndOther (lastChar : byte).

Definition actualEndingOf (content : list byte) (lastChar : byte) : Ending :=
  if (2 <=? Z.of_nat (length content))
     && bool_decide (content !! (length content - 2)%nat = Some CR)
     && bool_decide (lastChar = LF)
  then EndCRLF
  else if bool_decide (lastChar = CR) then EndCR
  else if bool_decide (lastChar = LF) then EndLF
  else EndOther lastChar.

Definition endingName (e : Ending) : string :=
  match e with
  | EndCRLF => "crlf"
  | EndCR => "cr"
  | EndLF => "lf"
  | EndOther _ => ""
  end.

Definition ValidateInsertFinalNewline : ValidatorFunc :=
  fun filePath content cfg =>
  if notEnabled (InsertFinalNewline cfg) then None
  else match lastElem content with
  | None =>
      Some (mkViolation filePath "insert_final_newline"
              "empty file should end with a newline")
  | Some lastChar =>
      match actualEndingOf content lastChar with
      | EndOther c =>
          Some (mkViolation filePath "insert_final_newline"
                  ("file should end with "
                   +:+ getEndOfLineDescription (EndOfLine cfg)
                   +:+ ", but ends with character '" +:+ fmtc c
                   +:+ "' (0x" +:+ fmt02x c +:+ ")"))
      | e =>
          let actualEnding := endingName e in
          let expectedEnding :=
            if bool_decide (EndOfLine cfg = "") then "lf" else EndOfLine cfg in
          if negb (bool_decide (actualEnding = expectedEnding))
          then Some (mkViolation filePath "insert_final_newline"
                       ("file should end with "
                        +:+ getEndOfLineDescription expectedEnding
                        +:+ ", but ends with "
                        +:+ getEndOfLineDescription actualEnding))
          else None
      end
  end.

Definition FixInsertFinalNewline : FixerFunc :=
  fun filePath content cfg =>
  if notEnabled (InsertFinalNewline cfg) then (content, false, None)
  else
    let expectedEnding :=
      if bool_decide (EndOfLine cfg = "") then "lf" else EndOfLine cfg in
    let expectedBytes :=
      if bool_decide (expectedEnding = "crlf") then [CR; LF]
      else if bool_decide (expectedEnding = "cr") then [CR]
      else [LF] in
    match lastElem content with
    | None => (expectedBytes, true, None)
    | Some lastChar =>
        let n := length content in
        match actualEndingOf content lastChar with
        | EndCRLF =>
            if negb (bool_decide (expectedEnding = "crlf"))
            then (take (n - 2) content ++ expectedBytes, true, None)
            else (content, false, None)
        | EndCR =>
            if negb (bool_decide (expectedEnding = "cr"))
            then (take (n - 1) content ++ expectedBytes, true, None)
            else (content, false, None)
        | EndLF =>
            if negb (bool_decide (expectedEnding = "lf"))
            then (take (n - 1) content ++ expectedBytes, true, None)
            else (content, false, None)
        | EndOther _ => (content ++ expectedBytes, true, None)
        end
    end.

(** *** trim_trailing_whitespace *)

Definition isWhitespace (b : byte) : bool :=
  bool_decide (b = SP) || bool_decide (b = TAB).

Definition len {A} (s : list A) : Z := Z.of_nat (length s).

(** The loop of [ValidateTrimTrailingWhitespace] over [lines], entered at
    index [i], with [n = len(lines)]: the number of the first line found
    with trailing whitespace. *)
Fixpoint firstTrailingFrom (n i : Z) (lines : list (list byte)) : option Z :=
  match lines with
  | [] => None
  | line :: rest =>
      if (i =? n - 1) && (len line =? 0) then firstTrailingFrom n (i + 1) rest
      else if (0 <? len line)
              && from_option isWhitespace false (lastElem line)
      then Some (i + 1)
      else firstTrailingFrom n (i + 1) rest
  end.

Definition ValidateTrimTrailingWhitespace : ValidatorFunc :=
  fun filePath content cfg =>
  if notEnabled (TrimTrailingWhitespace cfg) then None
  else if len content =? 0 then None
  else
    let lines := Split content LF in
    match firstTrailingFrom (len lines) 0 lines with
    | Some lineNum =>
        Some (mkViolation filePath "trim_trailing_whitespace"
                ("line " +:+ pretty lineNum +:+ " has trailing whitespace"))
    | None => None
    end.

(** The first loop of [FixTrimTrailingWhitespace]: the lines after
    [lines[i] = trimmed], and [hasChanges]. *)
Fixpoint trimLinesFrom (n i : Z) (lines : list (list byte))
  : list (list byte) * bool :=
  match lines with
  | [] => ([], false)
  | line :: rest =>
      let '(rest', hasChanges) := trimLinesFrom n (i + 1) rest in
      if (i =? n - 1) && (len line =? 0) then (line :: rest', hasChanges)
      else
        let trimmed :=
          TrimRightFunc line
            (fun r => bool_decide (r = SP) || bool_decide (r = TAB)) in
        if negb (Equal line trimmed) then (trimmed :: rest', true)
        else (line :: rest', hasChanges)
  end.

(** The second loop of [FixTrimTrailingWhitespace]: what is written to the
    buffer from index [i] on; [lastLen] is [len(lines[len(lines)-1])]. *)
Fixpoint rejoinFrom (lineEnding : list byte) (n lastLen i : Z)
    (lines : list (list byte)) : list byte :=
  match lines with
  | [] => []
  | line :: rest =>
      line ++
      (if i <? n - 1 then
         if (i =? n - 2) && (lastLen =? 0) then lineEnding
         else if (i <? n - 2) || (0 <? lastLen) then lineEnding
         else []
       else []) ++
      rejoinFrom lineEnding n lastLen (i + 1) rest
  end.

Definition FixTrimTrailingWhitespace : FixerFunc :=
  fun filePath content cfg =>
  if notEnabled (TrimTrailingWhitespace cfg) then (content, false, None)
  else if len content =? 0 then (content, false, None)
  else
    let lineEnding :=
      if Contains content [CR; LF] then [CR; LF]
      else if Contains content [CR] then [CR]
      else [LF] in
    let '(lines, hasChanges) :=
      let l := Split content LF in trimLinesFrom (len l) 0 l in
    if negb hasChanges then (content, false, None)
    else
      (rejoinFrom lineEnding (len lines) (from_option len 0 (last lines)) 0
         lines, true, None).

(** *** end_of_line *)

Record LineEnding := mkLineEnding {
  le_bytes : list byte;
  le_name : string;
  le_line : Z
}.

(** The scan of [findLineEndings]; [skip] is set where the loop body does
    [i++] to pass over the LF of a CRLF. *)
Fixpoint findLineEndingsFrom (skip : bool) (lineNum : Z) (content : list byte)
  : list LineEnding :=
  match content with
  | [] => []
  | c :: rest =>
      if skip then findLineEndingsFrom false lineNum rest
      else if bool_decide (c = CR) then
        if bool_decide (head rest = Some LF)
        then mkLineEnding [CR; LF] "CRLF (\r\n)" lineNum
               :: findLineEndingsFrom true (lineNum + 1) rest
        else mkLineEnding [CR] "CR (\r)" lineNum
               :: findLineEndingsFrom false (lineNum + 1) rest
      else if bool_decide (c = LF) then
        mkLineEnding [LF] "LF (\n)" lineNum
          :: findLineEndingsFrom false (lineNum + 1) rest
      else findLineEndingsFrom false lineNum rest
  end.

Definition findLineEndings (content : list byte) : list LineEnding :=
  findLineEndingsFrom false 1 content.

(** The [switch] on [config.EndOfLine] of both functions: the ending and
    its name, or nothing for an unknown style. *)
Definition endingOfStyle (style : string) : option (list byte * string) :=
  if bool_decide (style = "lf") then Some ([LF], "LF (\n)")
  else if bool_decide (style = "crlf") then Some ([CR; LF], "CRLF (\r\n)")
  else if bool_decide (style = "cr") then Some ([CR], "CR (\r)")
  else None.

Definition ValidateEndOfLine : ValidatorFunc :=
  fun filePath content config =>
  if bool_decide (EndOfLine config = "") then None
  else if len content =? 0 then None
  else match endingOfStyle (EndOfLine config) with
  | None => None
  | Some (expectedEnding, expectedName) =>
      match
        List.find (fun ending => negb (Equal (le_bytes ending) expectedEnding))
          (findLineEndings content)
      with
      | Some ending =>
          Some (mkViolation filePath "end_of_line"
                  ("line " +:+ pretty (le_line ending) +:+ " uses "
                   +:+ le_name ending +:+ " but should use " +:+ expectedName))
      | None => None
      end
  end.

Definition normalizeLineEndings (content targetEnding : list byte)
  : list byte :=
  let normalized := ReplaceAll content [CR; LF] [LF] in
  let normalized := ReplaceAll normalized [CR] [LF] in
  if Equal targetEnding [LF] then normalized
  else ReplaceAll normalized [LF] targetEnding.

Definition FixEndOfLine : FixerFunc :=
  fun filePath content config =>
  if bool_decide (EndOfLine config = "") then (content, false, None)
  else if len content =? 0 then (content, false, None)
  else match endingOfStyle (EndOfLine config) with
  | None => (content, false, None)
  | Some (targetEnding, _) =>
      let result := normalizeLineEndings content targetEnding in
      let changed := negb (Equal content result) in
      (result, changed, None)
  end.

(** *** The registries *)

Definition GetAllValidators : list ValidatorFunc :=
  [ValidateInsertFinalNewline; ValidateTrimTrailingWhitespace;
   ValidateEndOfLine].

Definition GetAllFixers : list FixerFunc :=
  [FixInsertFinalNewline; FixTrimTrailingWhitespace; FixEndOfLine].

(* ================================================================== *)
(** ** Package [validator]: applying the rules to one content *)
(* ================================================================== *)

(** The loop of [fixSingleFile] over the fixers: the content and the
    [modified] flag after it, or the error of the first fixer that fails. *)
Fixpoint applyFixers (fixers : list FixerFunc) (filePath : string)
    (content : list byte) (modified : bool) (cfg : ResolvedConfig)
  : string + (list byte * bool) :=
  match fixers with
  | [] => inr (content, modified)
  | fixer :: rest =>
      match fixer filePath content cfg with
      | (_, _, Some err) =>
          inl ("failed to apply fixer to " +:+ filePath +:+ ": " +:+ err)
      | (newContent, changed, None) =>
          if changed then applyFixers rest filePath newContent true cfg
          else applyFixers rest filePath content modified cfg
      end
  end.

(** The loop of [validateFile] over the validators. *)
Definition applyValidators (validators : list ValidatorFunc)
    (filePath : string) (content : list byte) (cfg : ResolvedConfig)
  : list ValidationError :=
  omap (fun validator => validator filePath content cfg) validators.

(** The fix pipeline on a content: all fixers of the registry. *)
Definition fixContent (filePath : string) (content : list byte)
    (cfg : ResolvedConfig) : string + (list byte * bool) :=
  applyFixers GetAllFixers filePath content false cfg.

(* ================================================================== *)
(** ** Package [strconv]: the two parsers that [applyProperties] calls *)
(* ================================================================== *)

Definition chars (s : string) : list ascii := list_ascii_of_string s.

Definition digitValue (c : ascii) : option Z :=
  let n := Z.of_N (N_of_ascii c) in
  if (48 <=? n) && (n <=? 57) then Some (n - 48) else None.

Fixpoint parseDigits (acc : Z) (s : list ascii) : option Z :=
  match s with
  | [] => Some acc
  | c :: rest =>
      match digitValue c with
      | Some d => parseDigits (acc * 10 + d) rest
      | None => None
      end
  end.

(** [strconv.Atoi]: an optional sign, then one or more decimal digits; the
    value has to fit the 64-bit [int]. [None] stands for a non-nil error. *)
Definition Atoi (s : string) : option Z :=
  let '(negative, digits) :=
    match chars s with
    | "-"%char :: rest => (true, rest)
    | "+"%char :: rest => (false, rest)
    | cs => (false, cs)
    end in
  match digits with
  | [] => None
  | _ =>
      match parseDigits 0 digits with
      | Some n =>
          let v := if negative then - n else n in
          if (- 2 ^ 63 <=? v) && (v <=? 2 ^ 63 - 1) then Some v else None
      | None => None
      end
  end.

(** [strconv.ParseBool]. *)
Definition ParseBool (s : string) : option bool :=
  if bool_decide (s ∈ ["1"; "t"; "T"; "TRUE"; "true"; "True"]) then Some true
  else if bool_decide (s ∈ ["0"; "f"; "F"; "FALSE"; "false"; "False"])
  then Some false
  else None.

(* ================================================================== *)
(** ** Package [config]: sections, documents and the cascade *)
(* ================================================================== *)

Definition setIndentStyle (v : string) (c : ResolvedConfig) :=
  mkResolved v (IndentSize c) (TabWidth c) (EndOfLine c) (Charset c)
    (TrimTrailingWhitespace c) (InsertFinalNewline c) (MaxLineLength c).
Definition setIndentSize (v : option Z) (c : ResolvedConfig) :=
  mkResolved (IndentStyle c) v (TabWidth c) (EndOfLine c) (Charset c)
    (TrimTrailingWhitespace c) (InsertFinalNewline c) (MaxLineLength c).
Definition setTabWidth (v : option Z) (c : ResolvedConfig) :=
  mkResolved (IndentStyle c) (IndentSize c) v (EndOfLine c) (Charset c)
    (TrimTrailingWhitespace c) (InsertFinalNewline c) (MaxLineLength c).
Definition setEndOfLine (v : string) (c : ResolvedConfig) :=
  mkResolved (IndentStyle c) (IndentSize c) (TabWidth c) v (Charset c)
    (TrimTrailingWhitespace c) (InsertFinalNewline c) (MaxLineLength c).
Definition setCharset (v : string) (c : ResolvedConfig) :=
  mkResolved (IndentStyle c) (IndentSize c) (TabWidth c) (EndOfLine c) v
    (TrimTrailingWhitespace c) (InsertFinalNewline c) (MaxLineLength c).
Definition setTrimTrailingWhitespace (v : option bool) (c : ResolvedConfig) :=
  mkResolved (IndentStyle c) (IndentSize c) (TabWidth c) (EndOfLine c)
    (Charset c) v (InsertFinalNewline c) (MaxLineLength c).
Definition setInsertFinalNewline (v : option bool) (c : ResolvedConfig) :=
  mkResolved (IndentStyle c) (IndentSize c) (TabWidth c) (EndOfLine c)
    (Charset c) (TrimTrailingWhitespace c) v (MaxLineLength c).
Definition setMaxLineLength (v : option Z) (c : ResolvedConfig) :=
  mkResolved (IndentStyle c) (IndentSize c) (TabWidth c) (EndOfLine c)
    (Charset c) (TrimTrailingWhitespace c) (InsertFinalNewline c) v.

(** The body of the loop of [applyProperties]: the [switch] on one key. *)
Definition applyProperty (key value : string) (config : ResolvedConfig)
  : ResolvedConfig :=
  if bool_decide (key = "indent_style") then
    if bool_decide (value = "tab") || bool_decide (value = "space")
    then setIndentStyle value config else config
  else if bool_decide (key = "indent_size") then
    if bool_decide (value = "tab") then setIndentSize None config
    else match Atoi value with
         | Some size =>
             if 0 <? size then setIndentSize (Some size) config else config
         | None => config
         end
  else if bool_decide (key = "tab_width") then
    match Atoi value with
    | Some width =>
        if 0 <? width then setTabWidth (Some width) config else config
    | None => config
    end
  else if bool_decide (key = "end_of_line") then
    if bool_decide (value = "lf") || bool_decide (value = "crlf")
       || bool_decide (value = "cr")
    then setEndOfLine value config else config
  else if bool_decide (key = "charset") then setCharset value config
  else if bool_decide (key = "trim_trailing_whitespace") then
    match ParseBool value with
    | Some b => setTrimTrailingWhitespace (Some b) config
    | None => config
    end
  else if bool_decide (key = "insert_final_newline") then
    match ParseBool value with
    | Some b => setInsertFinalNewline (Some b) config
    | None => config
    end
  else if bool_decide (key = "max_line_length") then
    if bool_decide (value = "off") then setMaxLineLength None config
    else match Atoi value with
         | Some length =>
             if 0 <? length then setMaxLineLength (Some length) config
             else config
         | None => config
         end
  else config.

(** [applyProperties]: the loop over the entries of the map. Go leaves the
    order of the iteration open; [map_fold] takes one order, and
    [applyProperties_any_order] below shows that the order is immaterial. *)
Definition applyProperties (config : ResolvedConfig)
    (properties : gmap string string) : ResolvedConfig :=
  map_fold applyProperty config properties.

Record ConfigSection := mkSection {
  Pattern : string;
  Properties : gmap string string
}.

(** A path of the file system: the segments of a cleaned absolute path,
    [/a/b/c.go] being [["a"; "b"; "c.go"]]. The callers hand absolute paths
    (from [filepath.Abs] and [filepath.Join]) to this package. *)
Abbreviation Path := (list string).

(** [EditorConfig]; its field [FilePath] is [ConfigFilePath] here. *)
Record EditorConfig := mkEditorConfig {
  Root : bool;
  Sections : list ConfigSection;
  ConfigFilePath : Path
}.

(* ================================================================== *)
(** ** Package [regexp]: the part of Go's regular expressions that
       [ConvertPatternToRegex] produces *)
(* ================================================================== *)

(** Patterns and expressions are ASCII text, and a character of the model
    is a byte. A path may hold any bytes where an expression consumes it by
    runs ([.*], [[^/]*]) or by ASCII literals, as the expressions of the
    properties below do: reading bytes and reading UTF-8 characters then
    accept the same paths. The syntax and the meaning are those of
    [regexp.Compile], that is of [syntax.Parse] with the [Perl] flags: [.]
    matches any character but the newline, a negated class does match the
    newline, [^] and [$] match at the two ends of the text only. *)

Inductive Regexp :=
| EmptyMatch
| Literal (c : ascii)
| AnyCharNotNL
| CharClass (negated : bool) (ranges : list (ascii * ascii))
| BeginText
| EndText
| Star (r : Regexp)
| Concat (r1 r2 : Regexp)
| Alternate (r1 r2 : Regexp).

Inductive CompileError :=
| SyntaxError (msg : string)
    (** an error of [regexp.Compile] *)
| Unsupported (msg : string)
    (** a construct that this model of the syntax does not cover *).

Definition code (c : ascii) : Z := Z.of_N (N_of_ascii c).

Definition isalnum (c : ascii) : bool :=
  let n := code c in
  ((48 <=? n) && (n <=? 57)) || ((65 <=? n) && (n <=? 90))
  || ((97 <=? n) && (n <=? 122)).

(** An escaped character that stands for itself: ASCII and not a letter or
    a digit. *)
Definition isPunctEscape (c : ascii) : bool :=
  (code c <? 128) && negb (isalnum c).

(** *** The parser, one character at a time *)

(** A group that is being read: the alternatives that are complete and the
    items of the one that is not, both last first. *)
Record Frame := mkFrame {
  alts : list Regexp;
  items : list Regexp
}.

Inductive Mode :=
| Normal (lastRepeat : bool)
| Escape
| ClassOpen
| ClassItems (negated first : bool) (ranges : list (ascii * ascii))
| ClassBracket (negated : bool) (ranges : list (ascii * ascii))
| ClassEscLo (negated : bool) (ranges : list (ascii * ascii))
| ClassHaveLo (negated : bool) (ranges : list (ascii * ascii)) (lo : ascii)
| ClassDash (negated : bool) (ranges : list (ascii * ascii)) (lo : ascii)
| ClassEscHi (negated : bool) (ranges : list (ascii * ascii)) (lo : ascii).

Record ParseState := mkParse {
  top : Frame;
  stack : list Frame;
  mode : Mode
}.

Definition concatOf (itemsRev : list Regexp) : Regexp :=
  match itemsRev with
  | [] => EmptyMatch
  | lastItem :: before => foldl (fun acc r => Concat r acc) lastItem before
  end.

(** The expression of a group that is closed. *)
Definition closeFrame (f : Frame) : Regexp :=
  foldl (fun acc alt => Alternate alt acc) (concatOf (items f)) (alts f).

Definition pushItem (r : Regexp) (st : ParseState) : ParseState :=
  mkParse (mkFrame (alts (top st)) (r :: items (top st))) (stack st)
    (Normal false).

Definition pushClass (negated : bool) (ranges : list (ascii * ascii))
    (st : ParseState) : ParseState :=
  pushItem (CharClass negated ranges) st.

Definition setMode (m : Mode) (st : ParseState) : ParseState :=
  mkParse (top st) (stack st) m.

(** A character read where a class expects an item or its closing
    bracket. *)
Definition classItem (negated first : bool) (ranges : list (ascii * ascii))
    (c : ascii) (st : ParseState) : CompileError + ParseState :=
  if bool_decide (c = "]"%char) && negb first
  then inr (pushClass negated ranges st)
  else if bool_decide (c = "\"%char) then inr (setMode (ClassEscLo negated ranges) st)
  else if bool_decide (c = "["%char)
  then inr (setMode (ClassBracket negated ranges) st)
  else inr (setMode (ClassHaveLo negated ranges c) st).

(** The upper end [hi] of a range that began with [lo]. *)
Definition classRange (negated : bool) (ranges : list (ascii * ascii))
    (lo hi : ascii) (st : ParseState) : CompileError + ParseState :=
  if code hi <? code lo then inl (SyntaxError "invalid character class range")
  else inr (setMode (ClassItems negated false (ranges ++ [(lo, hi)])) st).

Definition parseStep (st : ParseState) (c : ascii)
  : CompileError + ParseState :=
  match mode st with
  | Normal lastRepeat =>
      if bool_decide (c = "\"%char) then inr (setMode Escape st)
      else if bool_decide (c = "("%char) then
        inr (mkParse (mkFrame [] []) (top st :: stack st) (Normal false))
      else if bool_decide (c = ")"%char) then
        match stack st with
        | [] => inl (SyntaxError "unexpected )")
        | parent :: below =>
            inr (mkParse
                   (mkFrame (alts parent) (closeFrame (top st) :: items parent))
                   below (Normal false))
        end
      else if bool_decide (c = "|"%char) then
        inr (mkParse
               (mkFrame (concatOf (items (top st)) :: alts (top st)) [])
               (stack st) (Normal false))
      else if bool_decide (c = "*"%char) then
        if lastRepeat
        then inl (SyntaxError "invalid nested repetition operator")
        else match items (top st) with
             | [] => inl (SyntaxError "missing argument to repetition operator")
             | r :: before =>
                 inr (mkParse (mkFrame (alts (top st)) (Star r :: before))
                        (stack st) (Normal true))
             end
      else if bool_decide (c = "+"%char) || bool_decide (c = "?"%char)
              || bool_decide (c = "{"%char)
      then inl (Unsupported "repetition other than *")
      else if bool_decide (c = "."%char) then inr (pushItem AnyCharNotNL st)
      else if bool_decide (c = "^"%char) then inr (pushItem BeginText st)
      else if bool_decide (c = "$"%char) then inr (pushItem EndText st)
      else if bool_decide (c = "["%char) then inr (setMode ClassOpen st)
      else inr (pushItem (Literal c) st)
  | Escape =>
      if isPunctEscape c then inr (pushItem (Literal c) st)
      else inl (Unsupported "escape of a letter, a digit or a non-ASCII character")
  | ClassOpen =>
      if bool_decide (c = "^"%char)
      then inr (setMode (ClassItems true true []) st)
      else classItem false true [] c st
  | ClassItems negated first ranges => classItem negated first ranges c st
  | ClassBracket negated ranges =>
      if bool_decide (c = ":"%char) then inl (Unsupported "POSIX class")
      else if bool_decide (c = "-"%char)
      then inr (setMode (ClassDash negated ranges "["%char) st)
      else classItem negated false (ranges ++ [("["%char, "["%char)]) c st
  | ClassEscLo negated ranges =>
      if isPunctEscape c then inr (setMode (ClassHaveLo negated ranges c) st)
      else inl (Unsupported "escape of a letter, a digit or a non-ASCII character")
  | ClassHaveLo negated ranges lo =>
      if bool_decide (c = "-"%char)
      then inr (setMode (ClassDash negated ranges lo) st)
      else classItem negated false (ranges ++ [(lo, lo)]) c st
  | ClassDash negated ranges lo =>
      if bool_decide (c = "]"%char)
      then inr (pushClass negated
                  (ranges ++ [(lo, lo); ("-"%char, "-"%char)]) st)
      else if bool_decide (c = "\"%char)
      then inr (setMode (ClassEscHi negated ranges lo) st)
      else classRange negated ranges lo c st
  | ClassEscHi negated ranges lo =>
      if isPunctEscape c then classRange negated ranges lo c st
      else inl (Unsupported "escape of a letter, a digit or a non-ASCII character")
  end.

Fixpoint parseFrom (st : ParseState) (s : list ascii)
  : CompileError + ParseState :=
  match s with
  | [] => inr st
  | c :: rest =>
      match parseStep st c with
      | inl err => inl err
      | inr st' => parseFrom st' rest
      end
  end.

(** The end of the expression. *)
Definition parseEnd (st : ParseState) : CompileError + Regexp :=
  match mode st with
  | Normal _ =>
      match stack st with
      | [] => inr (closeFrame (top st))
      | _ :: _ => inl (SyntaxError "missing closing )")
      end
  | Escape | ClassEscLo _ _ | ClassEscHi _ _ _ =>
      inl (SyntaxError "trailing backslash at end of expression")
  | _ => inl (SyntaxError "missing closing ]")
  end.

(** [regexp.Compile]. *)
Definition Compile (expr : list ascii) : CompileError + Regexp :=
  match parseFrom (mkParse (mkFrame [] []) [] (Normal false)) expr with
  | inl err => inl err
  | inr st => parseEnd st
  end.

(** *** Matching *)

Definition inClass (negated : bool) (ranges : list (ascii * ascii))
    (c : ascii) : bool :=
  xorb negated
    (existsb (fun r => (code r.1 <=? code c) && (code c <=? code r.2)) ranges).

Definition NL : ascii := "010"%char.

(** A continuation takes whether the position is the beginning of the
    text, and the rest of the text. *)
Definition Cont : Type := bool -> list ascii -> bool.

(** Zero or more rounds of [step], each of which has to consume
    something; [fuel] bounds the rounds and is the length of the text where
    the loop is entered. *)
Fixpoint starLoop (step : bool -> list ascii -> Cont -> bool) (fuel : nat)
    (atStart : bool) (s : list ascii) (k : Cont) : bool :=
  k atStart s ||
  match fuel with
  | O => false
  | S fuel' =>
      step atStart s
        (fun atStart' s' =>
           (length s' <? length s)%nat && starLoop step fuel' atStart' s' k)
  end.

(** [matchHere r atStart s k]: some match of [r] at the head of [s] leaves a
    rest that [k] accepts. *)
Fixpoint matchHere (r : Regexp) (atStart : bool) (s : list ascii) (k : Cont)
  : bool :=
  match r with
  | EmptyMatch => k atStart s
  | Literal c =>
      match s with
      | x :: rest => bool_decide (x = c) && k false rest
      | [] => false
      end
  | AnyCharNotNL =>
      match s with
      | x :: rest => negb (bool_decide (x = NL)) && k false rest
      | [] => false
      end
  | CharClass negated ranges =>
      match s with
      | x :: rest => inClass negated ranges x && k false rest
      | [] => false
      end
  | BeginText => atStart && k atStart s
  | EndText => bool_decide (s = []) && k atStart s
  | Star r1 => starLoop (matchHere r1) (length s) atStart s k
  | Concat r1 r2 =>
      matchHere r1 atStart s (fun atStart' s' => matchHere r2 atStart' s' k)
  | Alternate r1 r2 => matchHere r1 atStart s k || matchHere r2 atStart s k
  end.

(** A match that begins at some position of the text. *)
Fixpoint searchFrom (r : Regexp) (atStart : bool) (s : list ascii) : bool :=
  matchHere r atStart s (fun _ _ => true) ||
  match s with
  | [] => false
  | _ :: rest => searchFrom r false rest
  end.

(** [regexp.MatchString]: the expression is compiled, and the text is
    searched for a match. *)
Definition MatchString (pattern s : string) : CompileError + bool :=
  match Compile (chars pattern) with
  | inl err => inl err
  | inr re => inr (searchFrom re true (chars s))
  end.

(* ================================================================== *)
(** ** Package [config]: from a glob pattern to a matcher *)
(* ================================================================== *)

(** [regexp.QuoteMeta]: a backslash before each of [\.+*?()|[]{}^$]. *)
Definition isSpecial (c : ascii) : bool :=
  bool_decide (c ∈ chars "\.+*?()|[]{}^$").

Definition QuoteMeta (s : list ascii) : list ascii :=
  s ≫= (fun c => if isSpecial c then ["\"%char; c] else [c]).

(** The longest prefix without [}], and what follows it. *)
Fixpoint spanNoBrace (s : list ascii) : list ascii * list ascii :=
  match s with
  | [] => ([], [])
  | c :: rest =>
      if bool_decide (c = "}"%char) then ([], s)
      else let '(run, after) := spanNoBrace rest in (c :: run, after)
  end.

(** A match of [braceRegex], the expression [\\{([^}]+)\\}], at the head of
    [s]: an escaped open brace, the longest run without [}], of which the
    last character is the backslash of the escaped close brace and the
    others, one at least, are the group. The group and the length of the
    match are returned. *)
Definition braceMatchAt (s : list ascii) : option (list ascii * nat) :=
  match s with
  | c1 :: c2 :: rest =>
      if bool_decide (c1 = "\"%char) && bool_decide (c2 = "{"%char) then
        let '(run, after) := spanNoBrace rest in
        if bool_decide (head after = Some "}"%char)
           && bool_decide (last run = Some "\"%char)
           && (2 <=? length run)%nat
        then Some (take (length run - 1) run, (length run + 3)%nat)
        else None
      else None
  | _ => None
  end.

(** The function given to [ReplaceAllStringFunc], on the group: the parts
    between commas, each quoted again, as an alternation. *)
Definition braceAlternation (content : list ascii) : list ascii :=
  "("%char :: Join (QuoteMeta <$> Split content ","%char) ["|"%char]
  ++ [")"%char].

(** [braceRegex.ReplaceAllStringFunc]: the matches are found from left to
    right and do not overlap; [skip] counts the characters of a match that
    are still to be passed over. *)
Fixpoint replaceBracesFrom (skip : nat) (s : list ascii) : list ascii :=
  match s with
  | [] => []
  | c :: rest =>
      match skip with
      | S k => replaceBracesFrom k rest
      | O =>
          match braceMatchAt s with
          | Some (content, matchLen) =>
              braceAlternation content
              ++ replaceBracesFrom (Nat.pred matchLen) rest
          | None => c :: replaceBracesFrom 0 rest
          end
      end
  end.

(** [ConvertPatternToRegex], on characters. The error it returns is always
    [nil]. *)
Definition convertPattern (pattern : list ascii) : list ascii :=
  let pattern := QuoteMeta pattern in
  let pattern := ReplaceAll pattern (chars "\*\*") (chars ".*") in
  let pattern :=
    if bool_decide (pattern = chars "\*") then chars ".*"
    else ReplaceAll pattern (chars "\*") (chars "[^/]*") in
  let pattern := ReplaceAll pattern (chars "\?") (chars ".") in
  let pattern := ReplaceAll pattern (chars "\[!") (chars "[^") in
  let pattern := ReplaceAll pattern (chars "\[") (chars "[") in
  let pattern := ReplaceAll pattern (chars "\]") (chars "]") in
  let pattern := replaceBracesFrom 0 pattern in
  chars "^" ++ pattern ++ chars "$".

Definition ConvertPatternToRegex (pattern : string) : string :=
  string_of_list_ascii (convertPattern (chars pattern)).

(** The matcher that a pattern is compiled to: the path is accepted,
    rejected, or the expression does not compile. *)
Definition globMatch (pattern path : string) : CompileError + bool :=
  MatchString (ConvertPatternToRegex pattern) path.

(** *** Package [path/filepath], on cleaned absolute paths *)

(** [filepath.Dir]. *)
Definition Dir (p : Path) : Path := take (length p - 1) p.

(** The segments of [filepath.Rel base targ]: the common leading segments
    are dropped, one [..] climbs out of each segment that is left of
    [base], and what is left of [targ] follows. On cleaned absolute paths
    [filepath.Rel] does not fail. *)
Fixpoint relSegments (base targ : Path) : list string :=
  match base, targ with
  | b :: bs, t :: ts =>
      if bool_decide (b = t) then relSegments bs ts
      else ((fun _ => "..") <$> base) ++ targ
  | [], _ => targ
  | _ :: _, [] => (fun _ => "..") <$> base
  end.

Definition joinSegments (segments : list string) : string :=
  string_of_list_ascii (Join (chars <$> segments) ["/"%char]).

(** [filepath.ToSlash (filepath.Rel base targ)]. *)
Definition Rel (base targ : Path) : string :=
  match relSegments base targ with
  | [] => "."
  | segments => joinSegments segments
  end.

(** The absolute path as a string. *)
Definition pathString (p : Path) : string :=
  string_of_list_ascii ("/"%char :: Join (chars <$> p) ["/"%char]).

(** *** Matching a section and resolving a file *)

Definition matchesPattern (filePath : Path) (pattern : string)
    (configPath : Path) : CompileError + bool :=
  let configDir := Dir configPath in
  let relPath := Rel configDir filePath in
  let regexPattern := ConvertPatternToRegex pattern in
  MatchString regexPattern relPath.

(** The inner loop of [ResolveConfigForFile], over the sections of one
    document. *)
Fixpoint resolveSections (filePath configPath : Path)
    (sections : list ConfigSection) (resolved : ResolvedConfig)
  : CompileError + ResolvedConfig :=
  match sections with
  | [] => inr resolved
  | section :: rest =>
      match matchesPattern filePath (Pattern section) configPath with
      | inl err => inl err
      | inr matches =>
          resolveSections filePath configPath rest
            (if matches then applyProperties resolved (Properties section)
             else resolved)
      end
  end.

(** The outer loop, over the documents. *)
Fixpoint resolveConfigs (filePath : Path) (configs : list EditorConfig)
    (resolved : ResolvedConfig) : CompileError + ResolvedConfig :=
  match configs with
  | [] => inr resolved
  | config :: rest =>
      match
        resolveSections filePath (ConfigFilePath config) (Sections config)
          resolved
      with
      | inl err => inl err
      | inr resolved' => resolveConfigs filePath rest resolved'
      end
  end.

Definition ResolveConfigForFile (filePath : Path)
    (configs : list EditorConfig) : CompileError + ResolvedConfig :=
  resolveConfigs filePath configs emptyResolved.

(* ================================================================== *)
(** ** Package [validator]: the exclusion patterns *)
(* ================================================================== *)

(** The paths [strings.Join(pathParts[i:], "/")] for [i] from [0]. *)
Fixpoint suffixPaths (pathParts : list (list ascii)) : list string :=
  match pathParts with
  | [] => []
  | _ :: rest =>
      string_of_list_ascii (Join pathParts ["/"%char]) :: suffixPaths rest
  end.

(** [err == nil && matched] *)
Definition matchedOk (r : CompileError + bool) : bool :=
  match r with
  | inr matched => matched
  | inl _ => false
  end.

(** The body of the loop of [shouldIgnore] for one pattern: whether it
    returns [true]. [ConvertPatternToRegex] has no error to skip on. *)
Definition excludes (pattern normalizedPath : string) : bool :=
  let regexPattern := ConvertPatternToRegex pattern in
  matchedOk (MatchString regexPattern normalizedPath)
  || existsb (fun relativePath => matchedOk (MatchString regexPattern relativePath))
       (suffixPaths (Split (chars normalizedPath) "/"%char)).

(** [shouldIgnore], on the path with forward slashes. *)
Definition shouldIgnore (excludePatterns : list string)
    (normalizedPath : string) : bool :=
  if (len excludePatterns =? 0) then false
  else existsb (fun pattern => excludes pattern normalizedPath) excludePatterns.

(* ================================================================== *)
(** ** Package [validator]: fixing one file, fixing many in parallel *)
(* ================================================================== *)

(** What [fixSingleFile] finds outside the contents of the files it fixes:
    the outcome of the discovery of the configuration documents for a path
    ([FindEditorConfigs] or [FindEditorConfigsWithCustomConfig], which read
    and parse the configuration files), and whether a path can be written.
    The files named [.editorconfig] are not among the files that are
    fixed; the discovery is taken not to depend on the contents that the
    fixes change. *)
Record World := mkWorld {
  discover : Path -> string + list EditorConfig;
  writable : Path -> bool
}.

(** The contents of the files; a path that is absent cannot be read. *)
Abbreviation Store := (gmap (list string) (list byte)).

(** The errors of [fixSingleFile], by the statement that returns them. *)
Inductive FixError :=
| ErrFindConfig (msg : string)
| ErrNoConfig
| ErrResolve (err : CompileError)
| ErrRead
| ErrFixer (msg : string)
| ErrWrite.

Definition fixSingleFile (w : World) (store : Store) (filePath : Path)
  : Store * (FixError + bool) :=
  match discover w filePath with
  | inl msg => (store, inl (ErrFindConfig msg))
  | inr configs =>
      if len configs =? 0 then (store, inl ErrNoConfig)
      else match ResolveConfigForFile filePath configs with
      | inl err => (store, inl (ErrResolve err))
      | inr resolvedConfig =>
          match store !! filePath with
          | None => (store, inl ErrRead)
          | Some content =>
              match
                applyFixers GetAllFixers (pathString filePath) content false
                  resolvedConfig
              with
              | inl msg => (store, inl (ErrFixer msg))
              | inr (content', modified) =>
                  if modified then
                    if writable w filePath
                    then (<[filePath := content']> store, inr true)
                    else (store, inl ErrWrite)
                  else (store, inr false)
              end
          end
      end
  end.

(** The state of [fixFilesParallel] while the workers run: the jobs still
    in the channel, the job each worker has in hand, the results sent so
    far, and the contents of the files. *)
Record Pool := mkPool {
  jobs : list Path;
  inHand : list (option Path);
  results : list string;
  store : Store
}.

(** What a worker sends for a job: nothing when [fixSingleFile] fails (the
    [continue] of the loop), the path of a file that was fixed, the empty
    string for a file that needed no fix. *)
Definition sent (job : Path) (outcome : FixError + bool) : list string :=
  match outcome with
  | inl _ => []
  | inr true => [pathString job]
  | inr false => [""]
  end.

(** A step of some worker: it receives the next job from the channel, or it
    finishes the job it has in hand. A file is read, fixed and written in
    one step: the workers hold different files, and a file is touched by
    the worker that holds it only. *)
Inductive poolStep (w : World) : Pool -> Pool -> Prop :=
| stepReceive worker job rest hands res st :
    hands !! worker = Some None ->
    poolStep w (mkPool (job :: rest) hands res st)
      (mkPool rest (<[worker := Some job]> hands) res st)
| stepFinish worker job js hands res st :
    hands !! worker = Some (Some job) ->
    poolStep w (mkPool js hands res st)
      (mkPool js (<[worker := None]> hands)
         (res ++ sent job (fixSingleFile w st job).2)
         (fixSingleFile w st job).1).

(** The workers start with nothing in hand and all jobs in the channel. *)
Definition poolStart (workers : nat) (files : list Path) (st : Store) : Pool :=
  mkPool files (replicate workers None) [] st.

(** The channel is drained and every worker has left its loop. *)
Definition poolDone (p : Pool) : Prop :=
  jobs p = [] /\ Forall (fun hand => hand = None) (inHand p).

(** The loop that collects the results. *)
Definition collectFixed (res : list string) : list string :=
  filter (fun result => result ≠ "") res.

(** [fixFilesParallel] returns [fixed, total] (and a [nil] error) when the
    files to process are [files]: some run of the workers ends with these
    results. *)
Definition fixFilesParallelReturns (w : World) (workers : nat)
    (files : list Path) (st : Store) (fixed : list string) (total : Z)
    (st' : Store) : Prop :=
  if len files =? 0 then fixed = [] /\ total = 0 /\ st' = st
  else exists final,
      rtc (poolStep w) (poolStart workers files st) final
      /\ poolDone final
      /\ fixed = collectFixed (results final)
      /\ total = len files
      /\ st' = store final.

(* ================================================================== *)
(** ** Definitions for stating the properties *)
(* ================================================================== *)

(** *** The lines of a content *)

(** The contents of the lines of [content]: the segments between the
    terminators that [findLineEndings] recognises (a CR followed by LF is one
    terminator, any other CR and any other LF is one each); the last segment
    is what follows the last terminator. [skip] has the role it has in
    [findLineEndingsFrom]. *)
Fixpoint lineContentsFrom (skip : bool) (content : list byte)
  : list (list byte) :=
  match content with
  | [] => [[]]
  | c :: rest =>
      if skip then lineContentsFrom false rest
      else if bool_decide (c = CR) then
        [] :: lineContentsFrom (bool_decide (head rest = Some LF)) rest
      else if bool_decide (c = LF) then [] :: lineContentsFrom false rest
      else match lineContentsFrom false rest with
           | l :: ls => (c :: l) :: ls
           | [] => [[c]]
           end
  end.

Definition lineContents (content : list byte) : list (list byte) :=
  lineContentsFrom false content.

(** One pass over [content] that writes LF for each terminator; the two
    [ReplaceAll] of [normalizeLineEndings] are shown to compute it. *)
Fixpoint toLFFrom (skip : bool) (content : list byte) : list byte :=
  match content with
  | [] => []
  | c :: rest =>
      if skip then toLFFrom false rest
      else if bool_decide (c = CR)
      then LF :: toLFFrom (bool_decide (head rest = Some LF)) rest
      else c :: toLFFrom false rest
  end.

(** A line whose last byte is a space or a tab. *)
Definition endsWithWhitespace (line : list byte) : Prop :=
  from_option isWhitespace false (lastElem line) = true.

#[global] Instance endsWithWhitespace_dec line :
  Decision (endsWithWhitespace line).
Proof. unfold endsWithWhitespace. apply _. Defined.

(** A line without its trailing spaces and tabs. *)
Definition trimRight (line : list byte) : list byte :=
  TrimRightFunc line isWhitespace.

(** The violation of the rule at the line of index [i]. *)
Definition trailingViolation (filePath : string) (i : nat) : ValidationError :=
  mkViolation filePath "trim_trailing_whitespace"
    ("line " +:+ pretty (Z.of_nat i + 1) +:+ " has trailing whitespace").

(** *** The fix pipeline *)

(** The content with which the loop of [fixSingleFile] goes on after one
    fixer: its output when it reports a change, the content it was given
    otherwise. *)
Definition fixerOutput (fixer : FixerFunc) (filePath : string)
    (cfg : ResolvedConfig) (content : list byte) : list byte :=
  let '(newContent, changed, _) := fixer filePath content cfg in
  if changed then newContent else content.

(** The sequential composition of fixers, first to last. *)
Definition composeFixers (fixers : list FixerFunc) (filePath : string)
    (cfg : ResolvedConfig) (content : list byte) : list byte :=
  foldl (fun c fixer => fixerOutput fixer filePath cfg c) content fixers.

(** A fixer that returns a [nil] error on every input. *)
Definition neverFails (fixer : FixerFunc) : Prop :=
  forall path content cfg, (fixer path content cfg).2 = None.

(** The end-of-line style is unset or [lf]. *)
Definition lfStyle (cfg : ResolvedConfig) : Prop :=
  EndOfLine cfg = "" \/ EndOfLine cfg = "lf".

(** *** The properties of a resolved configuration and the cascade *)

Inductive Property :=
| PIndentStyle | PIndentSize | PTabWidth | PEndOfLine | PCharset
| PTrimTrailingWhitespace | PInsertFinalNewline | PMaxLineLength.

Inductive PropertyValue :=
| VString (s : string)
| VInt (n : option Z)
| VBool (b : option bool).

Definition propertyKey (p : Property) : string :=
  match p with
  | PIndentStyle => "indent_style"
  | PIndentSize => "indent_size"
  | PTabWidth => "tab_width"
  | PEndOfLine => "end_of_line"
  | PCharset => "charset"
  | PTrimTrailingWhitespace => "trim_trailing_whitespace"
  | PInsertFinalNewline => "insert_final_newline"
  | PMaxLineLength => "max_line_length"
  end.

Definition getProperty (p : Property) (c : ResolvedConfig) : PropertyValue :=
  match p with
  | PIndentStyle => VString (IndentStyle c)
  | PIndentSize => VInt (IndentSize c)
  | PTabWidth => VInt (TabWidth c)
  | PEndOfLine => VString (EndOfLine c)
  | PCharset => VString (Charset c)
  | PTrimTrailingWhitespace => VBool (TrimTrailingWhitespace c)
  | PInsertFinalNewline => VBool (InsertFinalNewline c)
  | PMaxLineLength => VInt (MaxLineLength c)
  end.

Definition positiveInt (raw : string) : option PropertyValue :=
  match Atoi raw with
  | Some n => if 0 <? n then Some (VInt (Some n)) else None
  | None => None
  end.

(** What an assignment [key = raw] of a section writes into the field of
    the property, [None] when the value is not one the property accepts
    (the assignment then writes nothing). *)
Definition writtenValue (p : Property) (raw : string) : option PropertyValue :=
  match p with
  | PIndentStyle =>
      if bool_decide (raw ∈ ["tab"; "space"]) then Some (VString raw) else None
  | PIndentSize =>
      if bool_decide (raw = "tab") then Some (VInt None) else positiveInt raw
  | PTabWidth => positiveInt raw
  | PEndOfLine =>
      if bool_decide (raw ∈ ["lf"; "crlf"; "cr"]) then Some (VString raw)
      else None
  | PCharset => Some (VString raw)
  | PTrimTrailingWhitespace | PInsertFinalNewline =>
      match ParseBool raw with
      | Some b => Some (VBool (Some b))
      | None => None
      end
  | PMaxLineLength =>
      if bool_decide (raw = "off") then Some (VInt None) else positiveInt raw
  end.

(** The sections of the documents in the order of the two loops, each with
    the path of its document. *)
Definition allSections (configs : list EditorConfig)
  : list (Path * ConfigSection) :=
  configs ≫= (fun config => (fun s => (ConfigFilePath config, s)) <$> Sections config).

(** One section applied to the accumulated configuration when its pattern
    matches the file. *)
Definition applySection (filePath : Path) (resolved : ResolvedConfig)
    (entry : Path * ConfigSection) : ResolvedConfig :=
  if matchedOk (matchesPattern filePath (Pattern entry.2) entry.1)
  then applyProperties resolved (Properties entry.2)
  else resolved.

(** The section's pattern does not compile. *)
Definition failsToCompile (filePath : Path) (entry : Path * ConfigSection)
    (err : CompileError) : Prop :=
  matchesPattern filePath (Pattern entry.2) entry.1 = inl err.

(** The cascade as one loop over the sections of all documents; it is
    shown to be what the two nested loops compute. *)
Fixpoint resolveEntries (filePath : Path) (entries : list (Path * ConfigSection))
    (resolved : ResolvedConfig) : CompileError + ResolvedConfig :=
  match entries with
  | [] => inr resolved
  | entry :: rest =>
      match matchesPattern filePath (Pattern entry.2) entry.1 with
      | inl err => inl err
      | inr _ => resolveEntries filePath rest (applySection filePath resolved entry)
      end
  end.

(** *** Patterns of literal characters and single stars, and what they
    should mean *)

(** The characters with a role in a glob. *)
Definition isGlobMeta (c : ascii) : bool :=
  bool_decide (c ∈ chars "*?[]{}\").

(** A pattern of ASCII literal characters and stars, no two stars
    adjacent. *)
Fixpoint simplePattern (p : list ascii) : bool :=
  match p with
  | [] => true
  | c :: rest =>
      (if bool_decide (c = "*"%char)
       then negb (bool_decide (head rest = Some "*"%char))
       else negb (isGlobMeta c) && (code c <? 128))
      && simplePattern rest
  end.

(** Some run of characters other than the separator, at the head of [s],
    leaves a rest that [k] accepts. *)
Fixpoint starRuns (k : list ascii -> bool) (s : list ascii) : bool :=
  k s ||
  match s with
  | c :: rest => negb (bool_decide (c = "/"%char)) && starRuns k rest
  | [] => false
  end.

(** The meaning of such a pattern, read directly: a literal character
    matches itself, a star matches any run of characters without
    separator, and the pattern matches the whole path. *)
Fixpoint globSem (p s : list ascii) : bool :=
  match p with
  | [] => bool_decide (s = [])
  | c :: p' =>
      if bool_decide (c = "*"%char) then starRuns (globSem p') s
      else match s with
           | x :: s' => bool_decide (x = c) && globSem p' s'
           | [] => false
           end
  end.

(** The expression text and the expression of one character of such a
    pattern, as [ConvertPatternToRegex] and [Compile] are shown to
    produce them. *)
Definition quoteChar (c : ascii) : list ascii :=
  if isSpecial c then ["\"%char; c] else [c].

(** The text [[^/]*]. *)
Definition classText : list ascii :=
  ["["%char; "^"%char; "/"%char; "]"%char; "*"%char].

Definition convertChar (c : ascii) : list ascii :=
  if bool_decide (c = "*"%char) then classText else quoteChar c.

Definition regexpOfChar (c : ascii) : Regexp :=
  if bool_decide (c = "*"%char)
  then Star (CharClass true [("/"%char, "/"%char)])
  else Literal c.

(** The items in sequence, then the end of the text. *)
Definition chainToEnd (rs : list Regexp) : Regexp := foldr Concat EndText rs.

(** *** The worker pool *)

(** The outcome of fixing one file on its own. *)
Definition outcomeOf (w : World) (st : Store) (file : Path) : FixError + bool :=
  (fixSingleFile w st file).2.

Definition isFixed (out : FixError + bool) : bool :=
  match out with
  | inr true => true
  | _ => false
  end.

(** The jobs that the workers have in hand. *)
Definition heldJobs (hands : list (option Path)) : list Path := omap id hands.

(** What the workers send for the jobs of [finished], each fixed on its
    own from the contents [st]. *)
Definition sentFor (w : World) (st : Store) (finished : list Path)
  : list string :=
  finished ≫= (fun job => sent job (outcomeOf w st job)).

(** The invariant of the pool that starts from [files] and [st0]: each job
    is finished, in hand or in the channel; the results are those of the
    finished jobs; a file that is not finished has its first content. *)
Definition poolInv (w : World) (files : list Path) (st0 : Store) (p : Pool)
  : Prop :=
  exists finished,
    results p = sentFor w st0 finished
    /\ finished ++ heldJobs (inHand p) ++ jobs p ≡ₚ files
    /\ (forall job, job ∉ finished -> store p !! job = st0 !! job)
    /\ (forall job, job ∈ finished ->
          store p !! job = (fixSingleFile w st0 job).1 !! job).

(* ================================================================== *)
(** ** Contents, configurations and files used as concrete inputs *)
(* ================================================================== *)

(** "a \r\n": one CRLF line that ends with a space. *)
Definition crlfTrailing : list byte := bytes "a " ++ [CR; LF].

(** [end_of_line = lf], [trim_trailing_whitespace = true]. *)
Definition lfTrimCfg : ResolvedConfig :=
  mkResolved "" None None "lf" "" (Some true) None None.

(** [trim_trailing_whitespace = true] alone. *)
Definition trimCfg : ResolvedConfig :=
  mkResolved "" None None "" "" (Some true) None None.

(** "a\r\nb ": a CRLF line, then a last line that ends with a space. *)
Definition crlfThenTrailing : list byte := bytes "a" ++ [CR; LF] ++ bytes "b ".

(** The path "a", newline, "b": a file name with a newline in it. *)
Definition newlinePath : string := String "a" (String NL (String "b" EmptyString)).

(** A world with one document for every path: every file is trimmed. *)
Definition trimWorld : World :=
  mkWorld
    (fun _ =>
       inr [mkEditorConfig true
              [mkSection "*" {[ "trim_trailing_whitespace" := "true" ]}]
              [".editorconfig"]])
    (fun _ => true).

(** The file [/b.txt] holds "x "; there is no [/a.txt] to read. *)
Definition oneFileStore : Store := {[ ["b.txt"] := bytes "x " ]}.

(** Both files can be read; [/a.txt] holds "x" and needs no fix. *)
Definition twoFileStore : Store :=
  {[ ["a.txt"] := bytes "x"; ["b.txt"] := bytes "x " ]}.

(** A validator reported a violation ([err != nil] in the tests). *)
Definition reported (v : option ValidationError) : bool :=
  match v with
  | Some _ => true
  | None => false
  end.

(** A configuration as the tests of the rules build it. *)
Definition testCfg (endOfLine : string) (trim final : option bool)
  : ResolvedConfig :=
  mkResolved "" None None endOfLine "" trim final None.

(* ================================================================== *)
(** ** Definitions for stating further properties of the rules *)
(* ================================================================== *)

(** The [changed] flag that a fixer returns. *)
Definition changedBy (fixer : FixerFunc) (filePath : string)
    (cfg : ResolvedConfig) (content : list byte) : bool :=
  (fixer filePath content cfg).1.2.

(** One pass over [content] that writes [target] for each terminator that
    [findLineEndings] recognises; the three [ReplaceAll] of
    [normalizeLineEndings] are shown to compute it. *)
Fixpoint withEndingFrom (target : list byte) (skip : bool)
    (content : list byte) : list byte :=
  match content with
  | [] => []
  | c :: rest =>
      if skip then withEndingFrom target false rest
      else if bool_decide (c = CR)
      then target
           ++ withEndingFrom target (bool_decide (head rest = Some LF)) rest
      else if bool_decide (c = LF)
      then target ++ withEndingFrom target false rest
      else c :: withEndingFrom target false rest
  end.

Definition withEnding (target content : list byte) : list byte :=
  withEndingFrom target false content.

(** The bytes that [FixInsertFinalNewline] appends: CRLF and CR for the
    styles of these names, LF for every other style and for none. *)
Definition expectedFinal (cfg : ResolvedConfig) : list byte :=
  if bool_decide (EndOfLine cfg = "crlf") then [CR; LF]
  else if bool_decide (EndOfLine cfg = "cr") then [CR]
  else [LF].

(** A content without the terminator it ends with, if it ends with one:
    CRLF, or else a single CR or LF. *)
Definition withoutFinalTerminator (content : list byte) : list byte :=
  match reverse content with
  | lf :: cr :: body =>
      if bool_decide (cr = CR) && bool_decide (lf = LF) then reverse body
      else if bool_decide (lf = CR) || bool_decide (lf = LF)
      then reverse (cr :: body)
      else content
  | [c] => if bool_decide (c = CR) || bool_decide (c = LF) then [] else content
  | [] => []
  end.

(** A style that [applyProperties] can leave in [EndOfLine]. *)
Definition knownStyle (cfg : ResolvedConfig) : Prop :=
  EndOfLine cfg ∈ [""; "lf"; "crlf"; "cr"].

(** The three terminators. *)
Definition isTerminator (target : list byte) : Prop :=
  target = [LF] \/ target = [CR; LF] \/ target = [CR].

(** The terminator that [FixTrimTrailingWhitespace] finds the content to
    use, and joins the lines with. *)
Definition detectedEnding (content : list byte) : list byte :=
  if Contains content [CR; LF] then [CR; LF]
  else if Contains content [CR] then [CR]
  else [LF].

(** "a\r\r\n": a line that ends with CR before its CRLF terminator. *)
Definition crBeforeCrlf : list byte := bytes "a" ++ [CR; CR; LF].

(** "a\nb\rc": an LF, then a bare CR. *)
Definition mixedEndings : list byte :=
  bytes "a" ++ [LF] ++ bytes "b" ++ [CR] ++ bytes "c".

(* ================================================================== *)
(** ** Package [config]: reading a configuration file *)
(* ================================================================== *)

(** The text of a configuration file is a sequence of bytes, each an
    [ascii]; a character outside ASCII is the bytes of its UTF-8
    encoding. *)

(** The six ASCII characters that [strings.TrimSpace] removes. *)
Definition isAsciiSpace (c : ascii) : bool :=
  bool_decide (c ∈ ["009"; "010"; "011"; "012"; "013"; " "]%char).

Definition utf8 (codes : list Z) : list ascii :=
  (fun n => ascii_of_N (Z.to_N n)) <$> codes.

(** The other characters of [unicode.IsSpace], in UTF-8: U+0085, U+00A0,
    U+1680, U+2000 to U+200A, U+2028, U+2029, U+202F, U+205F, U+3000. *)
Definition unicodeSpaces : list (list ascii) :=
  [utf8 [194; 133]; utf8 [194; 160]; utf8 [225; 154; 128]]
  ++ ((fun n => utf8 [226; 128; n])
        <$> [128; 129; 130; 131; 132; 133; 134; 135; 136; 137; 138])
  ++ [utf8 [226; 128; 168]; utf8 [226; 128; 169]; utf8 [226; 128; 175];
      utf8 [226; 129; 159]; utf8 [227; 128; 128]].

(** [strings.TrimLeftFunc s unicode.IsSpace], for the encodings [spaces] of
    the characters that are not ASCII: characters are removed from the
    head while they are white space. [skip] counts the bytes of a
    character that are still to be passed over. *)
Fixpoint trimLeftFrom (spaces : list (list ascii)) (skip : nat)
    (s : list ascii) : list ascii :=
  match s with
  | [] => []
  | c :: rest =>
      match skip with
      | S k => trimLeftFrom spaces k rest
      | O =>
          if isAsciiSpace c then trimLeftFrom spaces 0 rest
          else match List.find (HasPrefix s) spaces with
               | Some space => trimLeftFrom spaces (Nat.pred (length space)) rest
               | None => s
               end
      end
  end.

(** [strings.TrimSpace]: white space is removed at the head, then at the
    end. At the end the last character is decoded backwards, which finds
    the same characters as matching their encodings from the last byte. *)
Definition TrimSpace (s : list ascii) : list ascii :=
  reverse
    (trimLeftFrom (reverse <$> unicodeSpaces) 0
       (reverse (trimLeftFrom unicodeSpaces 0 s))).

(** [strings.HasSuffix]. *)
Definition HasSuffix (s suffix : list ascii) : bool :=
  HasPrefix (reverse s) (reverse suffix).

(** [strings.SplitN(s, sep, 2)] for a string that contains [sep]: what is
    before the first [sep] and what is after it. *)
Fixpoint cutAt (sep : ascii) (s : list ascii) : list ascii * list ascii :=
  match s with
  | [] => ([], [])
  | c :: rest =>
      if bool_decide (c = sep) then ([], rest)
      else let '(before, after) := cutAt sep rest in (c :: before, after)
  end.

(** [strings.ToLower(value) == "true"]: the four letters in either case.
    No character outside ASCII has one of these letters as its lower
    case. *)
Definition asciiLower (c : ascii) : ascii :=
  if (65 <=? code c) && (code c <=? 90)
  then ascii_of_N (N_of_ascii c + 32) else c.

Definition lowerIsTrue (value : list ascii) : bool :=
  bool_decide (asciiLower <$> value = chars "true").

(** The variables of the loop of [ParseEditorConfig]. [currentSection] is
    [nil] until a section is appended and then points to a section that
    shares its map with the last section of [config.Sections]: it is read
    off [pSections]. *)
Record ParseConfigState := mkParseConfig {
  pRoot : bool;
  pSections : list ConfigSection;
  inHeaderSection : bool
}.

(** [currentSection.Properties[key] = value], when [currentSection] is not
    [nil]. *)
Definition setInCurrentSection (key value : string)
    (sections : list ConfigSection) : list ConfigSection :=
  match reverse sections with
  | [] => []
  | current :: before =>
      reverse before
      ++ [mkSection (Pattern current) (<[key := value]> (Properties current))]
  end.

(** The body of the loop, on the text of one line. *)
Definition parseLine (st : ParseConfigState) (text : list ascii)
  : ParseConfigState :=
  let line := TrimSpace text in
  if bool_decide (line = []) || HasPrefix line ["#"%char]
     || HasPrefix line [";"%char]
  then st
  else if HasPrefix line ["["%char] && HasSuffix line ["]"%char] then
    let pattern := take (length line - 2) (drop 1 line) in
    mkParseConfig (pRoot st)
      (pSections st ++ [mkSection (string_of_list_ascii pattern) ∅]) false
  else if Contains line ["="%char] then
    let '(before, after) := cutAt "="%char line in
    let key := TrimSpace before in
    let value := TrimSpace after in
    if inHeaderSection st && bool_decide (key = chars "root")
    then mkParseConfig (lowerIsTrue value) (pSections st) (inHeaderSection st)
    else mkParseConfig (pRoot st)
           (setInCurrentSection (string_of_list_ascii key)
              (string_of_list_ascii value) (pSections st))
           (inHeaderSection st)
  else st.

Definition parseLines (lines : list (list ascii)) : ParseConfigState :=
  foldl parseLine (mkParseConfig false [] true) lines.

(** The lines that a [bufio.Scanner] yields, each without its LF and
    without one CR before it; there is no line after the last LF when
    nothing follows it. The scanner fails when a line does not fit its
    buffer of 64 KiB. *)
Definition dropCR (data : list ascii) : list ascii :=
  match reverse data with
  | c :: before => if bool_decide (c = "013"%char) then reverse before else data
  | [] => data
  end.

Definition scanLines (content : list ascii) : option (list (list ascii)) :=
  let parts := Split content NL in
  let tokens :=
    if bool_decide (last parts = Some []) then removelast parts else parts in
  if forallb (fun token => len token <? 65536) tokens
  then Some (dropCR <$> tokens)
  else None.

(** A file at a path where a configuration is looked for: it cannot be
    opened or read, with the error, or it has a content. *)
Inductive ConfigFile :=
| Unreadable (err : string)
| Readable (content : list ascii).

(** The files that [os.Stat] finds. *)
Abbreviation ConfigFiles := (gmap (list string) ConfigFile).

(** [ParseEditorConfig]. The configuration that the function returns
    along with an error of the scanner is not returned here: no caller
    reads it. *)
Definition ParseEditorConfig (fs : ConfigFiles) (filePath : Path)
  : string + EditorConfig :=
  match fs !! filePath with
  | None =>
      inl ("open " +:+ pathString filePath +:+ ": no such file or directory")
  | Some (Unreadable err) => inl err
  | Some (Readable content) =>
      match scanLines content with
      | None => inl "bufio.Scanner: token too long"
      | Some lines =>
          let st := parseLines lines in
          inr (mkEditorConfig (pRoot st) (pSections st) filePath)
      end
  end.

(** The name of the configuration files. *)
Definition configName : string := ".editorconfig".

(** The loop of [FindEditorConfigsWithCustomConfig], entered with [dir]
    the reverse of [revDir]: [filepath.Dir dir] drops the last segment, and
    is [dir] itself at the root. *)
Fixpoint climbFrom (fs : ConfigFiles) (revDir : list string)
    (configs : list EditorConfig) : string + list EditorConfig :=
  let configPath := reverse revDir ++ [configName] in
  match fs !! configPath with
  | Some _ =>
      match ParseEditorConfig fs configPath with
      | inl err =>
          inl ("failed to parse " +:+ pathString configPath +:+ ": " +:+ err)
      | inr config =>
          if Root config then inr (config :: configs)
          else match revDir with
               | [] => inr (config :: configs)
               | _ :: parent => climbFrom fs parent (config :: configs)
               end
      end
  | None =>
      match revDir with
      | [] => inr configs
      | _ :: parent => climbFrom fs parent configs
      end
  end.

(** [FindEditorConfigsWithCustomConfig]; no custom path is the empty
    string of the source. *)
Definition FindEditorConfigsWithCustomConfig (fs : ConfigFiles)
    (targetPath : Path) (customConfigPath : option Path)
  : string + list EditorConfig :=
  match customConfigPath with
  | Some absConfigPath =>
      match ParseEditorConfig fs absConfigPath with
      | inl err =>
          inl ("failed to parse custom config " +:+ pathString absConfigPath
               +:+ ": " +:+ err)
      | inr config => inr [config]
      end
  | None => climbFrom fs (reverse (Dir targetPath)) []
  end.

Definition FindEditorConfigs (fs : ConfigFiles) (targetPath : Path)
  : string + list EditorConfig :=
  FindEditorConfigsWithCustomConfig fs targetPath None.

(** The loop of [checkForEditorConfig]: whether a configuration file is
    found in [dir] or above. *)
Fixpoint foundFrom (fs : ConfigFiles) (revDir : list string) : bool :=
  match fs !! (reverse revDir ++ [configName]) with
  | Some _ => true
  | None =>
      match revDir with
      | [] => false
      | _ :: parent => foundFrom fs parent
      end
  end.

(** [checkForEditorConfig]: the error, if any. *)
Definition checkForEditorConfig (fs : ConfigFiles)
    (customConfigPath : option Path) (directory : Path) : option string :=
  match customConfigPath with
  | Some customPath =>
      match fs !! customPath with
      | Some _ => None
      | None => Some ("custom config file not found: " +:+ pathString customPath)
      end
  | None =>
      if foundFrom fs (reverse directory) then None
      else Some (".editorconfig file not found in directory hierarchy starting from "
                 +:+ pathString directory)
  end.

(** The content of the test of the parser. *)
Definition testConfigContent : list ascii := chars
"root = true

[*]
charset = utf-8
end_of_line = lf
insert_final_newline = true
trim_trailing_whitespace = true

[*.go]
indent_style = tab
indent_size = 4

[*.{js,ts}]
indent_style = space
indent_size = 2
".
(** *** The lines of a configuration file, by their role *)

(** A line that is empty once trimmed, or a comment. *)
Definition isCommentLine (text : list ascii) : bool :=
  let line := TrimSpace text in
  bool_decide (line = []) || HasPrefix line ["#"%char]
  || HasPrefix line [";"%char].

(** The pattern of a line that is a section header. *)
Definition headerPattern (text : list ascii) : option string :=
  let line := TrimSpace text in
  if negb (isCommentLine text) && HasPrefix line ["["%char]
     && HasSuffix line ["]"%char]
  then Some (string_of_list_ascii (take (length line - 2) (drop 1 line)))
  else None.

(** The key and the value of a line that is an assignment. *)
Definition assignment (text : list ascii) : option (string * string) :=
  let line := TrimSpace text in
  if isCommentLine text then None
  else match headerPattern text with
  | Some _ => None
  | None =>
      if Contains line ["="%char] then
        let '(before, after) := cutAt "="%char line in
        Some (string_of_list_ascii (TrimSpace before),
              string_of_list_ascii (TrimSpace after))
      else None
  end.

(** The value of [root] that an assignment of [value] sets. *)
Definition rootValue (value : string) : bool := lowerIsTrue (chars value).

(** The assignments of the lines, in a map: a later one replaces an
    earlier one of the same key. *)
Definition assignedIn (lines : list (list ascii)) : gmap string string :=
  foldl (fun m kv => <[kv.1 := kv.2]> m) ∅ (omap assignment lines).

(** The values that the lines assign to [root]. *)
Definition rootAssignments (lines : list (list ascii)) : list bool :=
  omap (fun text =>
          match assignment text with
          | Some (key, value) =>
              if bool_decide (key = "root") then Some (rootValue value) else None
          | None => None
          end) lines.

(** No line is a section header. *)
Definition noHeader (lines : list (list ascii)) : Prop :=
  Forall (fun text => headerPattern text = None) lines.
(** *** The directories above a file *)

(** The directory [dir] and the directories above it, the root first. *)
Fixpoint ancestors (dir : Path) : list Path :=
  match dir with
  | [] => [[]]
  | segment :: rest => [] :: ((fun d => segment :: d) <$> ancestors rest)
  end.

(** The path of the configuration file of a directory. *)
Definition configPathIn (dir : Path) : Path := dir ++ [configName].

(** A configuration file is found in the directory. *)
Definition hasConfig (fs : ConfigFiles) (dir : Path) : Prop :=
  is_Some (fs !! configPathIn dir).

(** The directory of a configuration document. *)
Definition configDir (config : EditorConfig) : Path :=
  Dir (ConfigFilePath config).

(** [above] is a directory strictly above [below]. *)
Definition strictlyAbove (above below : Path) : Prop :=
  above `prefix_of` below /\ above <> below.
(* ================================================================== *)
(** ** Package [validator]: validating one file, validating many in
       parallel *)
(* ================================================================== *)

(** The texts of the errors that come from outside the program: of a read
    or a write that fails, and of an expression that does not compile. *)
Record ErrorTexts := mkErrorTexts {
  readErrorText : Path -> string;
  writeErrorText : Path -> string;
  compileErrorText : CompileError -> string
}.

(** [validateFile]. *)
Definition validateFile (texts : ErrorTexts) (store : Store)
    (filePath : Path) (cfg : ResolvedConfig) : list ValidationError :=
  match store !! filePath with
  | None =>
      [mkViolation (pathString filePath) "file_access"
         ("could not read file: " +:+ readErrorText texts filePath)]
  | Some content =>
      applyValidators GetAllValidators (pathString filePath) content cfg
  end.

(** [validateSingleFileErrors]; its errors are those of the first
    statements of [fixSingleFile]. *)
Definition validateSingleFileErrors (w : World) (texts : ErrorTexts)
    (store : Store) (filePath : Path) : FixError + list ValidationError :=
  match discover w filePath with
  | inl msg => inl (ErrFindConfig msg)
  | inr configs =>
      if len configs =? 0 then inl ErrNoConfig
      else match ResolveConfigForFile filePath configs with
      | inl err => inl (ErrResolve err)
      | inr resolvedConfig =>
          inr (validateFile texts store filePath resolvedConfig)
      end
  end.

(** [err.Error()] for the errors of [validateSingleFileErrors] and of
    [fixSingleFile]. *)
Definition errorText (texts : ErrorTexts) (filePath : Path) (e : FixError)
  : string :=
  match e with
  | ErrFindConfig msg =>
      "failed to find editorconfig for " +:+ pathString filePath +:+ ": "
      +:+ msg
  | ErrNoConfig =>
      ".editorconfig file not found in directory hierarchy for "
      +:+ pathString filePath
  | ErrResolve err =>
      "failed to resolve config for " +:+ pathString filePath +:+ ": "
      +:+ compileErrorText texts err
  | ErrRead =>
      "could not read file " +:+ pathString filePath +:+ ": "
      +:+ readErrorText texts filePath
  | ErrFixer msg => msg
  | ErrWrite =>
      "failed to write fixed file " +:+ pathString filePath +:+ ": "
      +:+ writeErrorText texts filePath
  end.

(** [validateSingleFileSync]: an error becomes one violation of the rule
    [file_access]. *)
Definition validateSingleFileSync (w : World) (texts : ErrorTexts)
    (store : Store) (filePath : Path) : list ValidationError :=
  match validateSingleFileErrors w texts store filePath with
  | inl err =>
      [mkViolation (pathString filePath) "file_access"
         (errorText texts filePath err)]
  | inr errors => errors
  end.

(** The state of [validateFilesParallel] while the workers run: the jobs
    still in the channel, the job each worker has in hand and the results
    sent so far. No file is written. *)
Record ValidatePool := mkValidatePool {
  vJobs : list Path;
  vInHand : list (option Path);
  vResults : list (list ValidationError)
}.

(** A step of some worker: it receives the next job, or it validates the
    job it has in hand and sends the violations. *)
Inductive validateStep (w : World) (texts : ErrorTexts) (store : Store)
  : ValidatePool -> ValidatePool -> Prop :=
| validateReceive worker job rest hands res :
    hands !! worker = Some None ->
    validateStep w texts store (mkValidatePool (job :: rest) hands res)
      (mkValidatePool rest (<[worker := Some job]> hands) res)
| validateFinish worker job js hands res :
    hands !! worker = Some (Some job) ->
    validateStep w texts store (mkValidatePool js hands res)
      (mkValidatePool js (<[worker := None]> hands)
         (res ++ [validateSingleFileSync w texts store job])).

Definition validateStart (workers : nat) (files : list Path) : ValidatePool :=
  mkValidatePool files (replicate workers None) [].

Definition validateDone (p : ValidatePool) : Prop :=
  vJobs p = [] /\ Forall (fun hand => hand = None) (vInHand p).

(** [validateFilesParallel] returns [allErrors, total] (and a [nil]
    error) when the files to process are [files]: some run of the workers
    ends with these results, which the collecting loop appends in the order
    they were sent. *)
Definition validateFilesParallelReturns (w : World) (texts : ErrorTexts)
    (workers : nat) (files : list Path) (store : Store)
    (allErrors : list ValidationError) (total : Z) : Prop :=
  if len files =? 0 then allErrors = [] /\ total = 0
  else exists final,
      rtc (validateStep w texts store) (validateStart workers files) final
      /\ validateDone final
      /\ allErrors = mjoin (vResults final)
      /\ total = len files.

(** The invariant of the pool: each job is finished, in hand or in the
    channel, and the results are those of the finished jobs, in the order
    they were finished. *)
Definition validateInv (w : World) (texts : ErrorTexts) (store : Store)
    (files : list Path) (p : ValidatePool) : Prop :=
  exists finished,
    vResults p = validateSingleFileSync w texts store <$> finished
    /\ finished ++ heldJobs (vInHand p) ++ vJobs p ≡ₚ files.

(** Texts for the examples. *)
Definition someTexts : ErrorTexts :=
  mkErrorTexts (fun _ => "no such file or directory")
    (fun _ => "permission denied") (fun _ => "error parsing regexp").
(** *** Configuration files used as concrete inputs *)

(** Three lines: an assignment of [root], a header, and an assignment of
    [root] below the header. *)
Definition rootThenSection : list (list ascii) :=
  [chars "root = true"; chars "[*]"; chars "root = false"].

(** A section that assigns [indent_size] twice, with a comment between. *)
Definition sectionAssignedTwice : list (list ascii) :=
  [chars "indent_size = 2"; chars "# wider"; chars "indent_size = 4"].

(** The lines before a header: an assignment other than [root], and
    [root] in capitals. *)
Definition preambleLines : list (list ascii) :=
  [chars "charset = utf-8"; chars "root = TRUE"].

(** [/.editorconfig], [/proj/.editorconfig] with [root = true] and
    [/proj/src/.editorconfig]. *)
Definition nestedConfigs : ConfigFiles :=
  {[ [".editorconfig"] := Readable (chars "[*]");
     ["proj"; ".editorconfig"] := Readable (chars "root = true");
     ["proj"; "src"; ".editorconfig"] := Readable (chars "[*.go]") ]}.

(* ================================================================== *)
(** ** Package [output]: shortening the paths of the table *)
(* ================================================================== *)

(** [s[lo:hi]]; [None] stands for the panic of an index out of range. *)
Definition slice (s : list ascii) (lo hi : Z) : option (list ascii) :=
  if (0 <=? lo) && (lo <=? hi) && (hi <=? len s)
  then Some (take (Z.to_nat (hi - lo)) (drop (Z.to_nat lo) s))
  else None.

(** The loops of [filepath.Base], on the path read from its end: the
    trailing separators are removed, and the last element ends at the next
    separator. *)
Fixpoint stripSeparators (reversed : list ascii) : list ascii :=
  match reversed with
  | c :: rest =>
      if bool_decide (c = "/"%char) then stripSeparators rest else reversed
  | [] => []
  end.

Fixpoint untilSeparator (reversed : list ascii) : list ascii :=
  match reversed with
  | c :: rest =>
      if bool_decide (c = "/"%char) then [] else c :: untilSeparator rest
  | [] => []
  end.

(** [filepath.Base], with [/] as the separator: the last element of the
    path; [.] for the empty path and [/] for a path of separators only. *)
Definition Base (path : list ascii) : list ascii :=
  if bool_decide (path = []) then ["."%char]
  else
    let element := reverse (untilSeparator (stripSeparators (reverse path))) in
    if bool_decide (element = []) then ["/"%char] else element.

(** The body of the loop of [shortenPaths], for one path. *)
Definition shortenPath (maxWidth : Z) (path : list ascii)
  : option (list ascii) :=
  if len path <=? maxWidth then Some path
  else
    let filename := Base path in
    if len filename <=? maxWidth - 3 then Some (chars ".../" ++ filename)
    else if 10 <? maxWidth then
      start ← slice path 0 (maxWidth ÷ 2 - 2);
      rest ← slice path (len path - (maxWidth ÷ 2 - 2)) (len path);
      Some (start ++ chars "..." ++ rest)
    else
      start ← slice path 0 (maxWidth - 3);
      Some (start ++ chars "...").

Definition shortenPaths (paths : list (list ascii)) (maxWidth : Z)
  : option (list (list ascii)) :=
  mapM (shortenPath maxWidth) paths.

Definition getMaxPathWidth : Z := 50.

(** *** Inputs used as concrete examples *)

(** "a ", LF: one line that ends with a space. *)
Definition lfTrailing : list byte := bytes "a " ++ [LF].

(** Two assignments of a section. *)
Definition twoProperties : gmap string string :=
  {[ "indent_style" := "tab"; "end_of_line" := "lf" ]}.

(* ================================================================== *)
(** ** Package [validator]: the files of a directory *)
(* ================================================================== *)

(** *** Package [path/filepath], on strings, with [/] as the separator *)

(** The loop of [filepath.Clean] over the elements of the path: the
    elements kept so far, last first. An empty element and [.] are
    dropped; [..] removes the element before it, is dropped at the root
    and is kept otherwise. *)
Definition cleanStep (rooted : bool) (kept : list (list ascii))
    (element : list ascii) : list (list ascii) :=
  if bool_decide (element = []) || bool_decide (element = chars ".") then kept
  else if bool_decide (element = chars "..") then
    match kept with
    | previous :: before =>
        if bool_decide (previous = chars "..") then element :: kept
        else before
    | [] => if rooted then [] else [element]
    end
  else element :: kept.

(** [filepath.Clean]. *)
Definition Clean (path : list ascii) : list ascii :=
  if bool_decide (path = []) then chars "."
  else
    let rooted := bool_decide (head path = Some "/"%char) in
    let kept := foldl (cleanStep rooted) [] (Split path "/"%char) in
    let joined := Join (reverse kept) ["/"%char] in
    if rooted then "/"%char :: joined
    else if bool_decide (joined = []) then chars "."
    else joined.

(** [filepath.Join] of two elements. *)
Definition filepathJoin (dir name : string) : string :=
  if negb (bool_decide (dir = ""))
  then string_of_list_ascii (Clean (chars dir ++ "/"%char :: chars name))
  else if negb (bool_decide (name = ""))
  then string_of_list_ascii (Clean (chars name))
  else "".

(** The loop of [filepath.Ext], on the path read from its end. *)
Fixpoint extFrom (reversed : list ascii) (seen : list ascii) : list ascii :=
  match reversed with
  | c :: rest =>
      if bool_decide (c = "/"%char) then []
      else if bool_decide (c = "."%char) then c :: seen
      else extFrom rest (c :: seen)
  | [] => []
  end.

(** [filepath.Ext]. *)
Definition Ext (path : list ascii) : list ascii := extFrom (reverse path) [].

(** [strings.ToLower], as far as [isBinaryFile] observes it: whether the
    result is empty, and whether it is one of the ASCII keys of a map. The
    ASCII capitals are lowered, and so are the two characters outside
    ASCII whose lower case is an ASCII letter, U+212A to [k] and U+0130 to
    [i]; any other character is left as it is, where [ToLower] may give
    another character outside ASCII. [skip] counts the bytes of a
    character that are still to be passed over. *)
Fixpoint lowerFrom (skip : nat) (s : list ascii) : list ascii :=
  match s with
  | [] => []
  | c :: rest =>
      match skip with
      | S k => lowerFrom k rest
      | O =>
          if HasPrefix s (utf8 [226; 132; 170])
          then "k"%char :: lowerFrom 2 rest
          else if HasPrefix s (utf8 [196; 176])
          then "i"%char :: lowerFrom 1 rest
          else asciiLower c :: lowerFrom 0 rest
      end
  end.

Definition ToLower (s : list ascii) : list ascii := lowerFrom 0 s.

Definition textExtensions : list string :=
  [".go"; ".py"; ".js"; ".ts"; ".html"; ".css"; ".scss"; ".sass";
   ".json"; ".xml"; ".yaml"; ".yml"; ".md"; ".txt"; ".csv"; ".sql";
   ".sh"; ".bash"; ".zsh"; ".fish"; ".c"; ".cpp"; ".h"; ".hpp";
   ".java"; ".kt"; ".rs"; ".rb"; ".php"; ".swift"; ".dart"; ".r";
   ".tex"; ".lua"; ".vim"; ".ini"; ".conf"; ".cfg"; ".toml"; ".lock"].

(** [isBinaryFile], for a regular file: [executable] is
    [info.Mode()&0111 != 0], and [content] is what the file holds, [None]
    when it cannot be opened. One read of a regular file fills the buffer
    when the file has that much. *)
Definition isBinaryFile (filePath : string) (executable : bool)
    (content : option (list byte)) : bool :=
  let ext := string_of_list_ascii (ToLower (Ext (chars filePath))) in
  if bool_decide (ext = "") && executable then true
  else if bool_decide (ext ∈ textExtensions) then false
  else match content with
       | None => true
       | Some held => existsb (fun b => bool_decide (b = x00)) (take 512 held)
       end.

(** What [filepath.Walk] finds at a path: a regular file, or a directory
    with its entries in the order of their names. Symbolic links, and
    entries that cannot be examined, are not in the model. *)
#[local] Unset Elimination Schemes.
Inductive Node :=
| FileNode (executable : bool) (content : option (list byte))
| DirNode (entries : list (string * Node)).
#[local] Set Elimination Schemes.

(** Induction on a tree: a property of a directory follows from the
    property of its entries. *)
Fixpoint Node_nested_ind (P : Node -> Prop)
    (Pfile : forall executable content, P (FileNode executable content))
    (Pdir : forall entries,
        Forall (fun entry => P entry.2) entries -> P (DirNode entries))
    (node : Node) : P node :=
  match node with
  | FileNode executable content => Pfile executable content
  | DirNode entries =>
      Pdir entries
        ((fix all (l : list (string * Node))
            : Forall (fun entry => P entry.2) l :=
            match l with
            | [] => @List.Forall_nil _ _
            | entry :: rest =>
                @List.Forall_cons _ _ entry rest
                  (Node_nested_ind P Pfile Pdir entry.2)
                  (all rest)
            end) entries)
  end.

(** The options of the validator that the walk reads. *)
Record WalkOptions := mkWalkOptions {
  Recursive : bool;
  ExcludePatterns : list string
}.

(** The function that [collectFiles] hands to [filepath.Walk], together
    with the descent of [Walk] into a directory for which it returns
    [nil]: the files appended for the node at [path], of name [name].
    Returning [filepath.SkipDir] for a directory appends nothing for
    it. *)
Fixpoint walkNode (options : WalkOptions) (directory path name : string)
    (node : Node) : list string :=
  match node with
  | DirNode entries =>
      if shouldIgnore (ExcludePatterns options) path then []
      else if negb (Recursive options) && negb (bool_decide (path = directory))
      then []
      else entries ≫= (fun entry =>
             walkNode options directory (filepathJoin path entry.1) entry.1
               entry.2)
  | FileNode executable content =>
      if bool_decide (name = ".editorconfig") then []
      else if HasPrefix (chars name) ["."%char] then []
      else if shouldIgnore (ExcludePatterns options) path then []
      else if isBinaryFile path executable content then []
      else [path]
  end.

(** [collectFiles]: the paths of the jobs, for the tree [root] found at
    [directory]. *)
Definition collectFiles (options : WalkOptions) (directory : string)
    (root : Node) : list string :=
  walkNode options directory directory
    (string_of_list_ascii (Base (chars directory))) root.

(** *** The nodes that the walk reaches *)

(** The checks that a regular file passes to become a job. *)
Definition accepted (options : WalkOptions) (path name : string)
    (executable : bool) (content : option (list byte)) : Prop :=
  name <> ".editorconfig"
  /\ HasPrefix (chars name) ["."%char] = false
  /\ shouldIgnore (ExcludePatterns options) path = false
  /\ isBinaryFile path executable content = false.

(** A directory that the walk enters: it is not excluded, and it is the
    directory that is walked unless the walk is recursive. *)
Definition entered (options : WalkOptions) (directory path : string) : Prop :=
  shouldIgnore (ExcludePatterns options) path = false
  /\ (Recursive options = true \/ path = directory).

(** From the node at [path] the walk reaches the node at [path']: through
    entries of directories that it enters, each at the path that
    [filepath.Join] gives it. *)
Inductive reaches (options : WalkOptions) (directory : string)
  : string -> string -> Node -> string -> string -> Node -> Prop :=
| reachesHere path name node :
    reaches options directory path name node path name node
| reachesEntry path name entries entryName child path' name' node' :
    entered options directory path ->
    (entryName, child) ∈ entries ->
    reaches options directory (filepathJoin path entryName) entryName child
      path' name' node' ->
    reaches options directory path name (DirNode entries) path' name' node'.

(** A work tree with a hidden directory, a hidden file, an object file
    and two sources. *)
Definition sampleTree : Node :=
  DirNode
    [(".editorconfig", FileNode false (Some (bytes "root = true")));
     (".git", DirNode [("config", FileNode false (Some (bytes "[core]")))]);
     (".hidden.go", FileNode false (Some []));
     ("main.go", FileNode false (Some (bytes "package main")));
     ("src", DirNode [("a.go", FileNode false (Some []));
                      ("a.o", FileNode false (Some [x00]))])].

(* ================================================================== *)
(** ** Package [output]: what a run prints *)
(* ================================================================== *)

(** [Result]; its field [Mode] is [ResultMode] here. *)
Record Result := mkResult {
  Errors : list ValidationError;
  FixedFiles : list string;
  TotalFiles : Z;
  Success : bool;
  ResultMode : string
}.

Record Formatter := mkFormatter {
  format : string;
  quiet : bool
}.

Definition NewFormatter (format : string) (quiet : bool) : Formatter :=
  if quiet then mkFormatter "quiet" quiet else mkFormatter format quiet.

(** The end of a line of output. *)
Definition newline : string := String NL EmptyString.

Definition formatFixResults (result : Result) : string :=
  if 0 <? len (FixedFiles result) then
    "✅ Fixed " +:+ pretty (len (FixedFiles result)) +:+ " files:" +:+ newline
    +:+ foldr (fun file out => "  • " +:+ file +:+ newline +:+ out) ""
          (FixedFiles result)
  else "✓ No fixes needed - all files already pass editorconfig validation"
       +:+ newline.

Definition formatQuiet (result : Result) : string :=
  if bool_decide (ResultMode result = "fix") then
    if 0 <? len (FixedFiles result)
    then "Fixed " +:+ pretty (len (FixedFiles result)) +:+ " files" +:+ newline
    else "No fixes needed" +:+ newline
  else
    if Success result then "✓ All files valid" +:+ newline
    else "❌ " +:+ pretty (len (Errors result)) +:+ " errors found" +:+ newline.

(** [FormatResults]: the text that is printed. [None] stands for the
    outputs that the model does not build: the JSON document, and the
    listings of violations, whose order follows the iteration of a
    map. *)
Definition FormatResults (f : Formatter) (result : Result) : option string :=
  if bool_decide (format f = "json") then None
  else if bool_decide (format f = "tabular") then
    if Success result
    then Some ("✓ All files pass editorconfig validation" +:+ newline)
    else if bool_decide (ResultMode result = "fix")
    then Some (formatFixResults result)
    else None
  else if bool_decide (format f = "quiet") then Some (formatQuiet result)
  else
    if bool_decide (ResultMode result = "fix")
    then Some (formatFixResults result)
    else if Success result
    then Some ("✓ All files pass editorconfig validation" +:+ newline)
    else None.

(** The result that [validateDirectory] hands to the formatter in fix
    mode, from what [fixFilesParallel] returns; [validateDirectory] then
    returns [nil]. *)
Definition fixModeResult (fixed : list string) (totalFiles : Z) : Result :=
  mkResult [] fixed totalFiles (len fixed =? 0) "fix".

(** The store without files: nothing can be read. *)
Definition noFiles : Store := ∅.

(** The content of the custom configuration file of the tests. *)
Definition customConfigContent : list ascii := chars
"[*]
insert_final_newline = true
trim_trailing_whitespace = true
indent_style = tab
".

(* ================================================================== *)
(** ** Patterns of literal characters, [*], [**] and [?] *)
(* ================================================================== *)

(** The items of such a pattern. *)
Inductive GlobToken :=
| TLit (c : ascii)
| TStar
| TDoubleStar
| TAny.

Definition tokenText (t : GlobToken) : list ascii :=
  match t with
  | TLit c => [c]
  | TStar => ["*"%char]
  | TDoubleStar => ["*"%char; "*"%char]
  | TAny => ["?"%char]
  end.

Definition isStarToken (t : GlobToken) : bool :=
  match t with
  | TStar | TDoubleStar => true
  | _ => false
  end.

(** The literal characters are ASCII and have no role in a glob; no [*]
    or [**] is followed by a star, so that the stars of the text are read
    in one way. *)
Fixpoint wellFormed (ts : list GlobToken) : bool :=
  match ts with
  | [] => true
  | t :: rest =>
      match t with
      | TLit c => negb (isGlobMeta c) && (code c <? 128)
      | TStar | TDoubleStar =>
          negb (from_option isStarToken false (head rest))
      | TAny => true
      end
      && wellFormed rest
  end.

(** Some run of characters other than the newline, at the head of [s],
    leaves a rest that [k] accepts. *)
Fixpoint anyRuns (k : list ascii -> bool) (s : list ascii) : bool :=
  k s ||
  match s with
  | c :: rest => negb (bool_decide (c = NL)) && anyRuns k rest
  | [] => false
  end.

(** The meaning of the pattern as the expression gives it: a literal
    character matches itself, [*] a run without separator, [**] a run
    without newline, [?] one character other than the newline; the pattern
    matches the whole path. *)
Fixpoint tokensSem (ts : list GlobToken) (s : list ascii) : bool :=
  match ts with
  | [] => bool_decide (s = [])
  | t :: ts' =>
      match t with
      | TLit c =>
          match s with
          | x :: s' => bool_decide (x = c) && tokensSem ts' s'
          | [] => false
          end
      | TStar => starRuns (tokensSem ts') s
      | TDoubleStar => anyRuns (tokensSem ts') s
      | TAny =>
          match s with
          | x :: s' => negb (bool_decide (x = NL)) && tokensSem ts' s'
          | [] => false
          end
      end
  end.

(** The text of an item after [QuoteMeta] (stage 0) and after each of the
    three replacements that concern it: of the quoted [**] (stage 1), of
    the quoted [*] (stage 2) and of the quoted [?] (stage 3). *)
Definition stageText (stage : nat) (t : GlobToken) : list ascii :=
  match t with
  | TLit c => quoteChar c
  | TStar => if (stage <? 2)%nat then ["\"%char; "*"%char] else classText
  | TDoubleStar =>
      if (stage <? 1)%nat then ["\"%char; "*"%char; "\"%char; "*"%char]
      else ["."%char; "*"%char]
  | TAny => if (stage <? 3)%nat then ["\"%char; "?"%char] else ["."%char]
  end.

(** The expression of an item. *)
Definition tokenRegexp (t : GlobToken) : Regexp :=
  match t with
  | TLit c => Literal c
  | TStar => Star (CharClass true [("/"%char, "/"%char)])
  | TDoubleStar => Star AnyCharNotNL
  | TAny => AnyCharNotNL
  end.

(** The text of the pattern. *)
Definition tokensPattern (ts : list GlobToken) : string :=
  string_of_list_ascii (ts ≫= tokenText).

(** A text of ASCII characters. *)
Definition isASCII (s : list ascii) : Prop := Forall (fun c => code c < 128) s.

(* ================================================================== *)
(** ** From the files to the resolved configuration *)
(* ================================================================== *)

(** The value that a section writes into a property, if any. *)
Definition sectionWrites (p : Property) (section : ConfigSection)
  : option PropertyValue :=
  (Properties section !! propertyKey p) ≫= writtenValue p.

(** A section that leaves the property of the file as it is: its pattern
    does not match the file (or does not compile), or it writes nothing
    into the property. *)
Definition leavesProperty (p : Property) (filePath configPath : Path)
    (section : ConfigSection) : Prop :=
  matchedOk (matchesPattern filePath (Pattern section) configPath) = false
  \/ sectionWrites p section = None.

(** [/.editorconfig] asks for spaces, [/proj/.editorconfig] for tabs. *)
Definition spacesThenTabs : ConfigFiles :=
  {[ [".editorconfig"] := Readable (chars
"[*]
indent_style = space
");
     ["proj"; ".editorconfig"] := Readable (chars
"[*]
indent_style = tab
") ]}.

(* ================================================================== *)
(** * Properties *)
(* ================================================================== *)

(* ------------------------------------------------------------------ *)
(** ** The tables of the repository's tests, on the model *)
(* ------------------------------------------------------------------ *)

Example TestValidateInsertFinalNewline :
  let validate content eol final :=
    reported (ValidateInsertFinalNewline "test.go" content
                (testCfg eol None (Some final))) in
  validate (bytes "package main" ++ [LF]) "lf" true = false
  /\ validate (bytes "package main") "lf" true = true
  /\ validate (bytes "package main" ++ [CR; LF]) "lf" true = true
  /\ validate (bytes "package main" ++ [CR; LF]) "crlf" true = false
  /\ validate [] "lf" true = true
  /\ validate (bytes "package main") "lf" false = false.
Proof. repeat split; vm_compute; reflexivity. Qed.

Example TestFixInsertFinalNewline :
  let fixed content eol final :=
    FixInsertFinalNewline "test.go" content (testCfg eol None (Some final)) in
  fixed (bytes "package main") "lf" true
    = (bytes "package main" ++ [LF], true, None)
  /\ fixed (bytes "package main" ++ [CR; LF]) "lf" true
    = (bytes "package main" ++ [LF], true, None)
  /\ fixed (bytes "package main" ++ [LF]) "lf" true
    = (bytes "package main" ++ [LF], false, None)
  /\ fixed (bytes "package main") "lf" false
    = (bytes "package main", false, None).
Proof. repeat split; vm_compute; reflexivity. Qed.

Example TestValidateTrimTrailingWhitespace :
  let validate content trim :=
    reported (ValidateTrimTrailingWhitespace "test.go" content
                (testCfg "" (Some trim) None)) in
  let rest := LF :: bytes "func main() {" ++ [LF] ++ bytes "}" ++ [LF] in
  validate (bytes "package main" ++ rest) true = false
  /\ validate (bytes "package main " ++ rest) true = true
  /\ validate (bytes "package main" ++ [TAB] ++ rest) true = true
  /\ validate (bytes "package main " ++ rest) false = false.
Proof. repeat split; vm_compute; reflexivity. Qed.

Example TestFixTrimTrailingWhitespace :
  let fixed content trim :=
    FixTrimTrailingWhitespace "test.go" content (testCfg "" (Some trim) None) in
  let rest := LF :: bytes "func main() {" ++ [LF] ++ bytes "}" ++ [LF] in
  fixed (bytes "package main " ++ rest) true
    = (bytes "package main" ++ rest, true, None)
  /\ fixed (bytes "package main" ++ [TAB; TAB] ++ rest) true
    = (bytes "package main" ++ rest, true, None)
  /\ fixed (bytes "package main" ++ rest) true
    = (bytes "package main" ++ rest, false, None)
  /\ fixed (bytes "package main " ++ rest) false
    = (bytes "package main " ++ rest, false, None).
Proof. repeat split; vm_compute; reflexivity. Qed.

Example TestValidateEndOfLine :
  let validate content eol :=
    reported (ValidateEndOfLine "test.go" content (testCfg eol None None)) in
  validate (bytes "line 1" ++ [LF] ++ bytes "line 2" ++ [LF]) "lf" = false
  /\ validate (bytes "line 1" ++ [CR; LF] ++ bytes "line 2" ++ [CR; LF]) "crlf"
     = false
  /\ validate (bytes "line 1" ++ [CR] ++ bytes "line 2" ++ [CR]) "cr" = false
  /\ validate (bytes "line 1" ++ [LF] ++ bytes "line 2" ++ [CR; LF]
               ++ bytes "line 3" ++ [CR]) "lf" = true
  /\ validate (bytes "line 1" ++ [CR; LF] ++ bytes "line 2" ++ [CR; LF]) "lf"
     = true.
Proof. repeat split; vm_compute; reflexivity. Qed.

Example TestFixEndOfLine :
  let fixed content eol :=
    FixEndOfLine "test.go" content (testCfg eol None None) in
  fixed (bytes "line 1" ++ [CR; LF] ++ bytes "line 2" ++ [CR; LF]) "lf"
    = (bytes "line 1" ++ [LF] ++ bytes "line 2" ++ [LF], true, None)
  /\ fixed (bytes "line 1" ++ [LF] ++ bytes "line 2" ++ [LF]) "crlf"
    = (bytes "line 1" ++ [CR; LF] ++ bytes "line 2" ++ [CR; LF], true, None)
  /\ fixed (bytes "line 1" ++ [CR; LF] ++ bytes "line 2" ++ [CR]
          ++ bytes "line 3" ++ [LF]) "lf"
    = (bytes "line 1" ++ [LF] ++ bytes "line 2" ++ [LF]
       ++ bytes "line 3" ++ [LF], true, None)
  /\ fixed (bytes "line 1" ++ [LF] ++ bytes "line 2" ++ [LF]) "lf"
    = (bytes "line 1" ++ [LF] ++ bytes "line 2" ++ [LF], false, None).
Proof. repeat split; vm_compute; reflexivity. Qed.

(** [TestResolveConfigForFile]: a Go file gets the final newline and the
    style of [[*]] and the indent style of [[*.go]]. *)
Example TestResolveConfigForFile :
  ResolveConfigForFile ["tmp"; "main.go"]
    [mkEditorConfig true
       [mkSection "*"
          {[ "insert_final_newline" := "true"; "end_of_line" := "lf" ]};
        mkSection "*.go" {[ "indent_style" := "tab" ]}]
       ["tmp"; ".editorconfig"]]
  = inr (mkResolved "tab" None None "lf" "" None (Some true) None).
Proof. vm_compute. reflexivity. Qed.

(* ------------------------------------------------------------------ *)
(** ** insert_final_newline *)
(* ------------------------------------------------------------------ *)

Section FinalNewline.
Implicit Types body content : list byte.

Lemma actualEnding_crlf body :
  actualEndingOf (body ++ [CR; LF]) LF = EndCRLF.
Proof.
  unfold actualEndingOf.
  rewrite length_app. simpl length.
  replace (length body + 2 - 2)%nat with (length body + 0)%nat by lia.
  rewrite lookup_app_r by lia.
  replace (length body + 0 - length body)%nat with 0%nat by lia.
  cbn [lookup list_lookup].
  rewrite !bool_decide_true by done.
  replace (2 <=? Z.of_nat (length body + 2)) with true; [done|].
  symmetry. apply Z.leb_le. lia.
Qed.

Lemma actualEnding_cr body : actualEndingOf (body ++ [CR]) CR = EndCR.
Proof.
  unfold actualEndingOf.
  replace (bool_decide (CR = LF)) with false by done.
  by rewrite andb_false_r.
Qed.

Lemma actualEnding_lf body :
  last body ≠ Some CR -> actualEndingOf (body ++ [LF]) LF = EndLF.
Proof.
  intros Hl. unfold actualEndingOf.
  rewrite length_app. simpl length.
  replace (length body + 1 - 2)%nat with (length body - 1)%nat by lia.
  destruct (decide (body = [])) as [->|Hne]; [done|].
  rewrite lookup_app_l by (destruct body; [done | simpl; lia]).
  rewrite last_lookup in Hl.
  replace (Nat.pred (length body)) with (length body - 1)%nat in Hl by lia.
  rewrite (bool_decide_false _ Hl). by rewrite andb_false_r.
Qed.

Lemma take_drop_suffix body (suffix : list byte) (k : nat) :
  length suffix = k ->
  take (length (body ++ suffix) - k) (body ++ suffix) = body.
Proof.
  intros <-. rewrite length_app.
  replace (length body + length suffix - length suffix)%nat
    with (length body) by lia.
  by rewrite take_app_length.
Qed.
End FinalNewline.

(** C10. With [insert_final_newline = true] and [end_of_line] unset, LF is
    the expected final terminator of both the validator and the fixer: a
    content that ends with CRLF, or with a bare CR, is reported as a
    violation of the rule and the fixer replaces that terminator with one
    LF; a content that ends with LF alone passes and is left as it is. *)
Theorem final_newline_defaults_to_lf (path : string) (cfg : ResolvedConfig)
    (body : list byte) :
  InsertFinalNewline cfg = Some true ->
  EndOfLine cfg = "" ->
  (ValidateInsertFinalNewline path (body ++ [CR; LF]) cfg
     = Some (mkViolation path "insert_final_newline"
               "file should end with LF (\n), but ends with CRLF (\r\n)")
   /\ FixInsertFinalNewline path (body ++ [CR; LF]) cfg
     = (body ++ [LF], true, None))
  /\ (ValidateInsertFinalNewline path (body ++ [CR]) cfg
     = Some (mkViolation path "insert_final_newline"
               "file should end with LF (\n), but ends with CR (\r)")
   /\ FixInsertFinalNewline path (body ++ [CR]) cfg
     = (body ++ [LF], true, None))
  /\ (last body ≠ Some CR ->
      ValidateInsertFinalNewline path (body ++ [LF]) cfg = None
      /\ FixInsertFinalNewline path (body ++ [LF]) cfg
         = (body ++ [LF], false, None)).
Proof.
  intros Hon Hunset.
  unfold ValidateInsertFinalNewline, FixInsertFinalNewline, lastElem.
  rewrite Hon, Hunset. cbn [notEnabled negb].
  repeat split.
  - replace (body ++ [CR; LF]) with ((body ++ [CR]) ++ [LF])
      by (by rewrite <- app_assoc).
    rewrite last_snoc. rewrite <- app_assoc. cbn [app].
    by rewrite actualEnding_crlf.
  - replace (last (body ++ [CR; LF])) with (Some LF).
    + rewrite actualEnding_crlf. cbn.
      by rewrite (take_drop_suffix body [CR; LF] 2 eq_refl).
    + replace (body ++ [CR; LF]) with ((body ++ [CR]) ++ [LF])
        by (by rewrite <- app_assoc).
      by rewrite last_snoc.
  - rewrite last_snoc. by rewrite actualEnding_cr.
  - rewrite last_snoc, actualEnding_cr. cbn.
    by rewrite (take_drop_suffix body [CR] 1 eq_refl).
  - rewrite last_snoc. by rewrite actualEnding_lf.
  - rewrite last_snoc. by rewrite actualEnding_lf.
Qed.

Lemma final_newline_defaults_to_lf_witness :
  let cfg := mkResolved "" None None "" "" None (Some true) None in
  FixInsertFinalNewline "f" (bytes "a" ++ [CR; LF]) cfg
  = (bytes "a" ++ [LF], true, None).
Proof.
  intros cfg.
  exact (proj2 (proj1 (final_newline_defaults_to_lf "f" cfg (bytes "a")
                         eq_refl eq_refl))).
Defined.

(* ------------------------------------------------------------------ *)
(** ** end_of_line *)
(* ------------------------------------------------------------------ *)

Section ReplaceFacts.
Context {A : Type} `{EqDecision A}.

Lemma HasPrefix_nil (s : list A) : HasPrefix s [] = true.
Proof. by destruct s. Qed.

(** Replacing a one-element pattern is a map. *)
Lemma ReplaceAll_single (s : list A) (x y : A) :
  ReplaceAll s [x] [y] = (fun c => if bool_decide (c = x) then y else c) <$> s.
Proof.
  unfold ReplaceAll. induction s as [|c s IH]; [done|].
  cbn [replaceFrom HasPrefix length Nat.pred fmap list_fmap app].
  rewrite HasPrefix_nil, andb_true_r, IH.
  by destruct (bool_decide (c = x)).
Qed.
End ReplaceFacts.

Section EndOfLineLF.
Implicit Types content : list byte.

Lemma HasPrefix_crlf (c : byte) rest :
  HasPrefix (c :: rest) [CR; LF]
  = bool_decide (c = CR) && bool_decide (head rest = Some LF).
Proof.
  cbn [HasPrefix]. f_equal.
  destruct rest as [|d rest]; cbn [HasPrefix head].
  - by rewrite bool_decide_false.
  - rewrite HasPrefix_nil, andb_true_r. apply bool_decide_ext. naive_solver.
Qed.

Lemma normalize_to_lf_from (sk : bool) content :
  (fun c => if bool_decide (c = CR) then LF else c)
    <$> replaceFrom (if sk then 1%nat else 0%nat) [CR; LF] [LF] content
  = toLFFrom sk content.
Proof.
  revert sk. induction content as [|c rest IH]; intros sk; [by destruct sk|].
  destruct sk.
  - cbn [replaceFrom toLFFrom]. apply (IH false).
  - cbn [replaceFrom toLFFrom]. rewrite HasPrefix_crlf.
    destruct (bool_decide (c = CR)) eqn:Hc; cbn [andb].
    + destruct (bool_decide (head rest = Some LF)) eqn:Hn.
      * cbn [app length Nat.pred fmap list_fmap].
        rewrite (IH true). by rewrite bool_decide_false.
      * cbn [fmap list_fmap]. rewrite Hc. by rewrite (IH false).
    + cbn [fmap list_fmap]. rewrite Hc. by rewrite (IH false).
Qed.

Lemma normalizeLineEndings_lf content :
  normalizeLineEndings content [LF] = toLFFrom false content.
Proof.
  unfold normalizeLineEndings.
  replace (Equal [LF] [LF]) with true by done.
  rewrite ReplaceAll_single. apply (normalize_to_lf_from false).
Qed.

Lemma toLF_no_cr sk content : CR ∉ toLFFrom sk content.
Proof.
  revert sk. induction content as [|c rest IH]; intros sk.
  - cbn. apply not_elem_of_nil.
  - cbn [toLFFrom]. destruct sk; [apply IH|].
    destruct (bool_decide (c = CR)) eqn:Hc.
    + apply not_elem_of_cons. split; [done | apply IH].
    + apply not_elem_of_cons. split; [|apply IH].
      apply bool_decide_eq_false in Hc. congruence.
Qed.

Lemma toLF_lineContents sk content :
  lineContentsFrom false (toLFFrom sk content) = lineContentsFrom sk content.
Proof.
  revert sk. induction content as [|c rest IH]; intros sk; [done|].
  cbn [toLFFrom lineContentsFrom]. destruct sk; [apply IH|].
  destruct (bool_decide (c = CR)) eqn:Hc.
  - cbn [lineContentsFrom].
    rewrite (bool_decide_false (LF = CR)) by done.
    rewrite (bool_decide_true (LF = LF)) by done.
    by rewrite IH.
  - cbn [lineContentsFrom]. rewrite Hc.
    destruct (bool_decide (c = LF)); by rewrite IH.
Qed.

(** Without CR, every terminator found is an LF. *)
Lemma findLineEndings_no_cr n content :
  CR ∉ content ->
  Forall (fun e => le_bytes e = [LF]) (findLineEndingsFrom false n content).
Proof.
  revert n. induction content as [|c rest IH]; intros n Hcr; [constructor|].
  apply not_elem_of_cons in Hcr as [Hc Hrest].
  cbn [findLineEndingsFrom].
  rewrite (bool_decide_false (c = CR)) by congruence.
  destruct (bool_decide (c = LF)); [constructor; [done|] |]; by apply IH.
Qed.

(** The lines keep their numbers: the terminators of the result are found
    at the line numbers of the terminators of the content. *)
Lemma toLF_line_numbers sk n content :
  le_line <$> findLineEndingsFrom false n (toLFFrom sk content)
  = le_line <$> findLineEndingsFrom sk n content.
Proof.
  revert sk n. induction content as [|c rest IH]; intros sk n; [done|].
  cbn [toLFFrom findLineEndingsFrom]. destruct sk; [apply IH|].
  destruct (bool_decide (c = CR)) eqn:Hc.
  - cbn [findLineEndingsFrom].
    rewrite (bool_decide_false (LF = CR)) by done.
    rewrite (bool_decide_true (LF = LF)) by done.
    destruct (bool_decide (head rest = Some LF));
      cbn [fmap list_fmap le_line]; by rewrite IH.
  - cbn [findLineEndingsFrom]. rewrite Hc.
    destruct (bool_decide (c = LF));
      cbn [fmap list_fmap le_line]; by rewrite IH.
Qed.

Lemma FixEndOfLine_lf path content cfg :
  EndOfLine cfg = "lf" ->
  FixEndOfLine path content cfg
  = (toLFFrom false content,
     negb (Equal content (toLFFrom false content)), None).
Proof.
  intros Hlf. unfold FixEndOfLine. rewrite Hlf.
  rewrite (bool_decide_false ("lf" = "")) by done.
  destruct content as [|c rest]; [done|].
  replace (len (c :: rest) =? 0) with false
    by (symmetry; apply Z.eqb_neq; unfold len; simpl; lia).
  unfold endingOfStyle. rewrite (bool_decide_true ("lf" = "lf")) by done.
  by rewrite normalizeLineEndings_lf.
Qed.
End EndOfLineLF.

(** C3. With [end_of_line = lf], for every content, whatever mixture of LF,
    CRLF and CR terminators it has, the end-of-line fixer returns without
    error a content with no CR, in which every line terminator is exactly
    LF, and whose lines (the segments between terminators) are the lines of
    the content, in the same number and at the same line numbers; the
    changed flag says whether the content differs. The content
    "a\r\nb\rc\n" fixes to "a\nb\nc\n". *)
Theorem end_of_line_lf_normalizes (path : string) (content : list byte)
    (cfg : ResolvedConfig) :
  EndOfLine cfg = "lf" ->
  exists result changed,
    FixEndOfLine path content cfg = (result, changed, None)
    /\ (CR ∉ result)
    /\ Forall (fun e => le_bytes e = [LF]) (findLineEndings result)
    /\ lineContents result = lineContents content
    /\ length (findLineEndings result) = length (findLineEndings content)
    /\ le_line <$> findLineEndings result = le_line <$> findLineEndings content
    /\ (changed = true <-> result ≠ content)
    /\ (content = bytes "a" ++ [CR; LF] ++ bytes "b" ++ [CR] ++ bytes "c" ++ [LF]
        -> result = bytes "a" ++ [LF] ++ bytes "b" ++ [LF] ++ bytes "c" ++ [LF]).
Proof.
  intros Hlf. eexists _, _. split; [by apply FixEndOfLine_lf|].
  pose proof (toLF_line_numbers false 1 content) as Hnum.
  repeat split.
  - apply toLF_no_cr.
  - apply findLineEndings_no_cr, toLF_no_cr.
  - apply toLF_lineContents.
  - unfold findLineEndings.
    by rewrite <- (length_fmap le_line), Hnum, length_fmap.
  - exact Hnum.
  - unfold Equal. intros Hch Heq.
    rewrite bool_decide_true in Hch by done. done.
  - unfold Equal. intros Hne. by rewrite bool_decide_false.
  - by intros ->.
Qed.

Lemma end_of_line_lf_normalizes_witness :
  exists result changed,
    FixEndOfLine "f" (bytes "a" ++ [CR; LF] ++ bytes "b" ++ [CR]) 
      (mkResolved "" None None "lf" "" None None None)
    = (result, changed, None)
    /\ (CR ∉ result).
Proof.
  destruct (end_of_line_lf_normalizes "f"
              (bytes "a" ++ [CR; LF] ++ bytes "b" ++ [CR])
              (mkResolved "" None None "lf" "" None None None) eq_refl)
    as (result & changed & Hfix & Hcr & _).
  exists result, changed. by split.
Defined.

(* ------------------------------------------------------------------ *)
(** ** The fix pipeline *)
(* ------------------------------------------------------------------ *)

Section Pipeline.
Implicit Types (content : list byte) (cfg : ResolvedConfig).

Lemma FixInsertFinalNewline_neverFails : neverFails FixInsertFinalNewline.
Proof.
  intros path content cfg. unfold FixInsertFinalNewline.
  repeat case_match; done.
Qed.

Lemma FixTrimTrailingWhitespace_neverFails :
  neverFails FixTrimTrailingWhitespace.
Proof.
  intros path content cfg. unfold FixTrimTrailingWhitespace.
  repeat case_match; done.
Qed.

Lemma FixEndOfLine_neverFails : neverFails FixEndOfLine.
Proof.
  intros path content cfg. unfold FixEndOfLine.
  repeat case_match; done.
Qed.

Lemma GetAllFixers_neverFail : Forall neverFails GetAllFixers.
Proof.
  repeat constructor;
    auto using FixInsertFinalNewline_neverFails,
      FixTrimTrailingWhitespace_neverFails, FixEndOfLine_neverFails.
Qed.

(** The loop over fixers that never fail is their composition. *)
Lemma applyFixers_compose fixers path content modified cfg :
  Forall neverFails fixers ->
  exists modified',
    applyFixers fixers path content modified cfg
    = inr (composeFixers fixers path cfg content, modified').
Proof.
  intros Hall. revert content modified.
  induction Hall as [|fixer rest Hf _ IH]; intros content modified.
  - by exists modified.
  - cbn [applyFixers composeFixers foldl]. unfold fixerOutput at 2.
    specialize (Hf path content cfg).
    destruct (fixer path content cfg) as [[newContent changed] err].
    cbn in Hf. subst err. destruct changed; apply IH.
Qed.
End Pipeline.

(** C1 (the code departs from it). The pipeline is the sequential
    composition of the registry in the order the registry lists it:
    final-newline insertion first, trailing-whitespace trimming second,
    end-of-line normalization last, the reverse of the order the claim
    gives. On the content "a \r\n" with [end_of_line = lf] and
    [trim_trailing_whitespace = true] the pipeline returns "a \n", while
    the composition in the claimed order returns "a\n". *)
Theorem fix_pipeline_order :
  (forall path content cfg, exists modified,
      fixContent path content cfg
      = inr (composeFixers
               [FixInsertFinalNewline; FixTrimTrailingWhitespace; FixEndOfLine]
               path cfg content, modified))
  /\ fixContent "f" crlfTrailing lfTrimCfg = inr (bytes "a " ++ [LF], true)
  /\ composeFixers
       [FixEndOfLine; FixTrimTrailingWhitespace; FixInsertFinalNewline]
       "f" lfTrimCfg crlfTrailing = bytes "a" ++ [LF].
Proof.
  split; [|split; vm_compute; reflexivity].
  intros path content cfg.
  apply applyFixers_compose, GetAllFixers_neverFail.
Qed.

(** C4 (the code departs from it). The pipeline is not idempotent: on the
    content "a \r\n" with [end_of_line = lf] and
    [trim_trailing_whitespace = true], the first application changes the
    content to "a \n" (trimming ran before the line endings were
    normalized and left the space before the CR), and the second
    application changes it again, to "a\n": the trimming fixer reports
    [changed = true] on the output of the first application. (On a
    content without CR, with the style unset or [lf], the second
    application changes nothing: [fix_pipeline_idempotent_on_lf].) *)
Theorem fix_pipeline_second_pass_changes :
  fixContent "f" crlfTrailing lfTrimCfg = inr (bytes "a " ++ [LF], true)
  /\ fixContent "f" (bytes "a " ++ [LF]) lfTrimCfg
     = inr (bytes "a" ++ [LF], true)
  /\ FixTrimTrailingWhitespace "f" (bytes "a " ++ [LF]) lfTrimCfg
     = (bytes "a" ++ [LF], true, None).
Proof. repeat split; vm_compute; reflexivity. Qed.

(* ------------------------------------------------------------------ *)
(** ** trim_trailing_whitespace *)
(* ------------------------------------------------------------------ *)

Section SplitJoin.
Context {A : Type} `{EqDecision A}.
Implicit Types (s : list A) (ls : list (list A)) (sep : A).

Lemma Split_nonempty s sep : Split s sep ≠ [].
Proof.
  destruct s as [|x xs]; [done|]. cbn [Split].
  case_bool_decide; [done|]. by destruct (Split xs sep).
Qed.

Lemma Join_cons_cons l1 l2 ls (sepl : list A) :
  Join (l1 :: l2 :: ls) sepl = l1 ++ sepl ++ Join (l2 :: ls) sepl.
Proof. reflexivity. Qed.

(** Joining the parts with the separator gives the sequence back. *)
Lemma Join_Split s sep : Join (Split s sep) [sep] = s.
Proof.
  induction s as [|x xs IH]; [done|]. cbn [Split].
  pose proof (Split_nonempty xs sep) as Hne.
  destruct (Split xs sep) as [|l ls]; [done|].
  case_bool_decide as Hx.
  - subst x. rewrite Join_cons_cons. cbn [app]. by rewrite IH.
  - destruct ls as [|l2 ls].
    + cbn [Join] in *. by rewrite IH.
    + rewrite Join_cons_cons in *. by rewrite <- IH.
Qed.

Lemma Split_app_no_sep l s sep :
  sep ∉ l ->
  Split (l ++ s) sep
  = match Split s sep with
    | first :: others => (l ++ first) :: others
    | [] => [l]
    end.
Proof.
  intros Hl. induction l as [|x l IH].
  - cbn [app]. pose proof (Split_nonempty s sep).
    by destruct (Split s sep).
  - apply not_elem_of_cons in Hl as [Hx Hl]. cbn [app Split].
    rewrite bool_decide_false by done. rewrite IH by done.
    pose proof (Split_nonempty s sep). by destruct (Split s sep).
Qed.

(** Splitting what was joined gives the parts back, when no part holds the
    separator. *)
Lemma Split_Join ls sep :
  ls ≠ [] ->
  Forall (fun l => sep ∉ l) ls ->
  Split (Join ls [sep]) sep = ls.
Proof.
  intros Hne Hall. induction Hall as [|l ls Hl Hls IH]; [done|].
  destruct ls as [|l2 ls].
  - cbn [Join]. rewrite <- (app_nil_r l) at 1.
    rewrite Split_app_no_sep by done. cbn [Split]. by rewrite app_nil_r.
  - rewrite Join_cons_cons. rewrite (Split_app_no_sep l _ sep Hl).
    cbn [app Split]. rewrite bool_decide_true by done.
    rewrite IH by done. by rewrite app_nil_r.
Qed.
End SplitJoin.

Section TrimLF.
Implicit Types (content line : list byte) (lines : list (list byte)).

Lemma len_nonneg {A} (s : list A) : 0 <= len s.
Proof. unfold len. lia. Qed.

Lemma len_zero {A} (s : list A) : (len s =? 0) = bool_decide (s = []).
Proof.
  destruct s; [done|]. unfold len. cbn [length].
  rewrite bool_decide_false by done. apply Z.eqb_neq. lia.
Qed.

Lemma trimRight_nil : trimRight [] = [].
Proof. reflexivity. Qed.

Lemma firstTrailingFrom_find n i lines :
  firstTrailingFrom n i lines
  = (fun found => i + Z.of_nat found.1 + 1)
      <$> list_find endsWithWhitespace lines.
Proof.
  revert i. induction lines as [|line rest IH]; intros i; [done|].
  cbn [firstTrailingFrom list_find]. rewrite len_zero.
  destruct line as [|b line'].
  - rewrite bool_decide_true by done.
    rewrite decide_False by (by unfold endsWithWhitespace).
    replace (0 <? len (@nil byte)) with false by done. cbn [andb].
    rewrite andb_true_r.
    assert (firstTrailingFrom n (i + 1) rest
            = (fun found : nat * list byte => i + Z.of_nat found.1 + 1)
                <$> (prod_map S id <$> list_find endsWithWhitespace rest))
      as ->; [|by destruct (i =? n - 1)].
    rewrite IH. destruct (list_find endsWithWhitespace rest) as [[j x]|];
      cbn; [f_equal; lia | done].
  - rewrite bool_decide_false by done. rewrite andb_false_r.
    replace (0 <? len (b :: line')) with true
      by (symmetry; apply Z.ltb_lt; unfold len; simpl; lia).
    cbn [andb].
    destruct (decide (endsWithWhitespace (b :: line'))) as [Hw|Hw].
    + unfold endsWithWhitespace in Hw. rewrite Hw. cbn. f_equal. lia.
    + unfold endsWithWhitespace in Hw. apply not_true_is_false in Hw.
      rewrite Hw, IH.
      destruct (list_find endsWithWhitespace rest) as [[j x]|];
        cbn; [f_equal; lia | done].
Qed.

Lemma trimLinesFrom_map n i lines :
  trimLinesFrom n i lines
  = (trimRight <$> lines, bool_decide (trimRight <$> lines ≠ lines)).
Proof.
  revert i. induction lines as [|line rest IH]; intros i.
  - cbn. by rewrite bool_decide_false by (by intros ?).
  - cbn [trimLinesFrom fmap list_fmap]. rewrite IH, len_zero.
    fold (trimRight line). unfold Equal.
    destruct (decide (line = [])) as [->|Hne].
    + rewrite trimRight_nil.
      rewrite (bool_decide_true (@nil byte = [])) by done.
      rewrite andb_true_r. cbn [negb].
      replace (bool_decide ([] :: (trimRight <$> rest) ≠ [] :: rest))
        with (bool_decide (trimRight <$> rest ≠ rest))
        by (apply bool_decide_ext; split;
            [intros H [= Heq]; by apply H | intros H Heq; apply H; by rewrite Heq]).
      by destruct (i =? n - 1).
    + rewrite (bool_decide_false (line = [])) by done.
      rewrite andb_false_r.
      destruct (decide (line = trimRight line)) as [Heq|Hneq].
      * rewrite bool_decide_true by done. cbn [negb]. rewrite <- Heq.
        f_equal. apply bool_decide_ext. split.
        -- intros H [= Hrest]. by apply H.
        -- intros H Hrest. apply H. by rewrite Hrest.
      * rewrite bool_decide_false by done. cbn [negb]. f_equal.
        symmetry. apply bool_decide_eq_true. intros [= Heq _]. by apply Hneq.
Qed.

Lemma rejoinFrom_Join lineEnding n lastLen i lines :
  0 <= lastLen ->
  i + len lines = n ->
  rejoinFrom lineEnding n lastLen i lines = Join lines lineEnding.
Proof.
  intros Hlast. revert i. induction lines as [|line rest IH]; intros i Hn; [done|].
  cbn [rejoinFrom]. unfold len in *. cbn [length] in Hn.
  destruct rest as [|l2 rest].
  - cbn [rejoinFrom Join length] in *.
    replace (i <? n - 1) with false by (symmetry; apply Z.ltb_ge; lia).
    by rewrite !app_nil_r.
  - rewrite Join_cons_cons, IH by (cbn [length] in *; lia).
    cbn [length] in Hn.
    replace (i <? n - 1) with true by (symmetry; apply Z.ltb_lt; lia).
    repeat f_equal.
    destruct (i =? n - 2) eqn:H2, (lastLen =? 0) eqn:H0; cbn [andb]; try done.
    + apply Z.eqb_neq in H0.
      replace (0 <? lastLen) with true by (symmetry; apply Z.ltb_lt; lia).
      by rewrite orb_true_r.
    + apply Z.eqb_neq in H2.
      replace (i <? n - 2) with true by (symmetry; apply Z.ltb_lt; lia). done.
    + apply Z.eqb_neq in H2.
      replace (i <? n - 2) with true by (symmetry; apply Z.ltb_lt; lia). done.
Qed.

Lemma Contains_absent content (b : byte) (more : list byte) :
  b ∉ content -> Contains content (b :: more) = false.
Proof.
  induction content as [|c rest IH]; intros Hb; [done|].
  apply not_elem_of_cons in Hb as [Hc Hrest].
  cbn [Contains HasPrefix]. rewrite (bool_decide_false (c = b)) by congruence.
  cbn [andb orb]. by apply IH.
Qed.

(** Without CR, the lines are the parts between the LF. *)
Lemma lineContents_Split content :
  CR ∉ content -> lineContents content = Split content LF.
Proof.
  unfold lineContents. induction content as [|c rest IH]; intros Hcr; [done|].
  apply not_elem_of_cons in Hcr as [Hc Hrest].
  cbn [lineContentsFrom Split]. rewrite (bool_decide_false (c = CR)) by done.
  by rewrite IH.
Qed.

Lemma Split_parts_no_sep content (b : byte) :
  Forall (fun l => b ∉ l) (Split content b).
Proof.
  induction content as [|c rest IH]; cbn [Split].
  - repeat constructor. apply not_elem_of_nil.
  - case_bool_decide as Hc.
    + constructor; [apply not_elem_of_nil | done].
    + destruct (Split rest b) as [|l ls].
      * repeat constructor. apply not_elem_of_cons. split; [congruence|].
        apply not_elem_of_nil.
      * inversion IH; subst. constructor; [|done].
        apply not_elem_of_cons. split; [congruence | done].
Qed.

Lemma Split_parts_absent content (b sep : byte) :
  b ∉ content -> Forall (fun l => b ∉ l) (Split content sep).
Proof.
  induction content as [|c rest IH]; intros Hb; cbn [Split].
  - repeat constructor. apply not_elem_of_nil.
  - apply not_elem_of_cons in Hb as [Hc Hrest]. specialize (IH Hrest).
    case_bool_decide.
    + constructor; [apply not_elem_of_nil | done].
    + destruct (Split rest sep) as [|l ls].
      * repeat constructor. apply not_elem_of_cons. split; [done|].
        apply not_elem_of_nil.
      * inversion IH; subst. constructor; [|done].
        by apply not_elem_of_cons.
Qed.

Lemma trimRight_subset line (b : byte) : b ∉ line -> b ∉ trimRight line.
Proof.
  unfold trimRight. induction line as [|x rest IH]; intros Hb; [done|].
  apply not_elem_of_cons in Hb as [Hx Hrest]. specialize (IH Hrest).
  cbn [TrimRightFunc].
  destruct (TrimRightFunc rest isWhitespace) as [|y r].
  - destruct (isWhitespace x); [apply not_elem_of_nil|].
    apply not_elem_of_cons. split; [done | apply not_elem_of_nil].
  - by apply not_elem_of_cons.
Qed.

Lemma Join_absent lines (b : byte) (sepl : list byte) :
  b ∉ sepl -> Forall (fun l => b ∉ l) lines -> b ∉ Join lines sepl.
Proof.
  intros Hsep Hall. induction Hall as [|l ls Hl Hls IH]; [apply not_elem_of_nil|].
  destruct ls as [|l2 ls]; [done|].
  rewrite Join_cons_cons. rewrite !not_elem_of_app. done.
Qed.

(** On a content without CR the rule works on the lines of the content:
    the validator reports the first line that ends with a space or a tab,
    and no violation when there is none; the fixer returns a content
    without CR whose lines are the lines of the content without their
    trailing spaces and tabs. *)
Lemma trim_on_lf_content path content cfg :
  TrimTrailingWhitespace cfg = Some true ->
  CR ∉ content ->
  ValidateTrimTrailingWhitespace path content cfg
  = (fun found => trailingViolation path found.1)
      <$> list_find endsWithWhitespace (lineContents content)
  /\ exists result changed,
      FixTrimTrailingWhitespace path content cfg = (result, changed, None)
      /\ lineContents result = trimRight <$> lineContents content
      /\ (CR ∉ result)
      /\ (changed = true <-> result ≠ content).
Proof.
  intros Hon Hcr. rewrite (lineContents_Split content Hcr).
  unfold ValidateTrimTrailingWhitespace, FixTrimTrailingWhitespace.
  rewrite Hon. cbn [notEnabled negb]. rewrite len_zero.
  destruct (decide (content = [])) as [->|Hne].
  { rewrite bool_decide_true by done. split; [done|].
    exists [], false. split; [done|]. split; [done|]. split; [done|].
    split; [done | by intros ?]. }
  rewrite (bool_decide_false (content = [])) by done.
  split.
  - rewrite firstTrailingFrom_find.
    destruct (list_find endsWithWhitespace (Split content LF)) as [[i x]|];
      [|done].
    cbn. unfold trailingViolation. repeat f_equal; lia.
  - rewrite !Contains_absent by done. rewrite trimLinesFrom_map.
    pose proof (Split_nonempty content LF) as Hsplit.
    pose proof (Split_parts_no_sep content LF) as Hnolf.
    pose proof (Split_parts_absent content CR LF Hcr) as Hnocr.
    set (lines := Split content LF) in *.
    assert (Forall (fun l => LF ∉ l) (trimRight <$> lines)) as Htlf
      by (apply Forall_fmap; eapply Forall_impl; [exact Hnolf|];
          intros l; apply trimRight_subset).
    assert (Forall (fun l => CR ∉ l) (trimRight <$> lines)) as Htcr
      by (apply Forall_fmap; eapply Forall_impl; [exact Hnocr|];
          intros l; apply trimRight_subset).
    destruct (decide (trimRight <$> lines = lines)) as [Hsame|Hdiff].
    + rewrite bool_decide_false by (intros H; by apply H). cbn [negb].
      exists content, false. split; [done|].
      split; [by rewrite (lineContents_Split content Hcr), Hsame|].
      split; [done|]. split; [done | by intros ?].
    + rewrite bool_decide_true by done. cbn [negb].
      eexists _, true. split; [reflexivity|].
      rewrite rejoinFrom_Join;
        [| destruct (last (trimRight <$> lines)); [apply len_nonneg | done]
         | lia].
      assert (CR ∉ Join (trimRight <$> lines) [LF]) as Hres
        by (apply Join_absent; [by apply not_elem_of_cons; split;
                                   [|apply not_elem_of_nil] | done]).
      assert (Split (Join (trimRight <$> lines) [LF]) LF = trimRight <$> lines)
        as Hround
        by (apply Split_Join; [by destruct lines | done]).
      split; [by rewrite lineContents_Split|]. split; [done|].
      split; [|done]. intros _ Heq. apply Hdiff.
      rewrite <- Hround, Heq. done.
Qed.
End TrimLF.

(** C5 (the code departs from it). Both functions cut the content at LF
    only, so the CR of a CRLF line is the last byte of its line. The
    content "a \r\n" has one line, "a ", that ends with a space: the
    validator reports nothing and the fixer leaves the content as it is.
    On "a\r\nb " the fixer trims the last line and joins the lines, the
    first still ending with its CR, with CRLF: the result "a\r\r\nb" has
    one more terminator, hence one more line, than the content. (On a
    content without CR the rule does what the claim says:
    [trim_on_lf_content].) *)
Theorem trim_misses_lines_ending_in_cr :
  lineContents crlfTrailing = [bytes "a "; []]
  /\ ValidateTrimTrailingWhitespace "f" crlfTrailing trimCfg = None
  /\ FixTrimTrailingWhitespace "f" crlfTrailing trimCfg
     = (crlfTrailing, false, None)
  /\ FixTrimTrailingWhitespace "f" crlfThenTrailing trimCfg
     = (bytes "a" ++ [CR; CR; LF] ++ bytes "b", true, None)
  /\ lineContents crlfThenTrailing = [bytes "a"; bytes "b "]
  /\ lineContents (bytes "a" ++ [CR; CR; LF] ++ bytes "b")
     = [bytes "a"; []; bytes "b"].
Proof. repeat split; vm_compute; reflexivity. Qed.

(* ------------------------------------------------------------------ *)
(** ** The pipeline on contents without CR *)
(* ------------------------------------------------------------------ *)

Section IdempotentOnLF.
Implicit Types (content : list byte) (cfg : ResolvedConfig).

Lemma toLF_id content : CR ∉ content -> toLFFrom false content = content.
Proof.
  induction content as [|c rest IH]; intros Hcr; [done|].
  apply not_elem_of_cons in Hcr as [Hc Hrest]. cbn [toLFFrom].
  rewrite (bool_decide_false (c = CR)) by done. by rewrite IH.
Qed.

Lemma FixEndOfLine_stable path content cfg :
  lfStyle cfg -> CR ∉ content ->
  FixEndOfLine path content cfg = (content, false, None).
Proof.
  intros [Hunset|Hlf] Hcr.
  - unfold FixEndOfLine. by rewrite Hunset.
  - rewrite FixEndOfLine_lf by done. rewrite toLF_id by done.
    unfold Equal. by rewrite bool_decide_true.
Qed.

Lemma actualEnding_lf_no_cr body :
  CR ∉ body -> actualEndingOf (body ++ [LF]) LF = EndLF.
Proof.
  intros Hcr. apply actualEnding_lf. intros Hlast.
  apply Hcr. destruct (last_Some body CR) as [Hex _].
  destruct (Hex Hlast) as [l' ->]. apply elem_of_app. right. by left.
Qed.

(** Where the rule is on and the style is unset or [lf], the final-newline
    fixer leaves a content that ends with LF, and changes nothing in a
    content that does. *)
Lemma FixInsertFinalNewline_lf path content cfg :
  InsertFinalNewline cfg = Some true -> lfStyle cfg -> CR ∉ content ->
  (exists body, (CR ∉ body)
     /\ fixerOutput FixInsertFinalNewline path cfg content = body ++ [LF])
  /\ forall body, content = body ++ [LF] ->
       FixInsertFinalNewline path content cfg = (content, false, None).
Proof.
  intros Hon Hstyle Hcr.
  assert ((if bool_decide (EndOfLine cfg = "") then "lf" else EndOfLine cfg)
          = "lf") as Hexp.
  { destruct Hstyle as [->| ->]; [by rewrite bool_decide_true |].
    by rewrite bool_decide_false. }
  split.
  - unfold fixerOutput, FixInsertFinalNewline, lastElem.
    rewrite Hon, Hexp. cbn [notEnabled negb].
    rewrite (bool_decide_false ("lf" = "crlf")) by done.
    rewrite (bool_decide_false ("lf" = "cr")) by done.
    rewrite (bool_decide_true ("lf" = "lf")) by done. cbn [negb].
    destruct (last content) as [lastChar|] eqn:Hlast.
    + apply last_Some in Hlast as [body ->].
      apply not_elem_of_app in Hcr as [Hbody Hc].
      apply not_elem_of_cons in Hc as [Hc _].
      unfold actualEndingOf.
      rewrite (bool_decide_false (lastChar = CR)) by congruence.
      destruct (decide (lastChar = LF)) as [->|Hnlf].
      * rewrite (bool_decide_true (LF = LF)) by done.
        fold (actualEndingOf (body ++ [LF]) LF).
        pose proof (actualEnding_lf_no_cr body Hbody) as Hend.
        unfold actualEndingOf in Hend.
        rewrite (bool_decide_false (LF = CR)) in Hend by done.
        rewrite (bool_decide_true (LF = LF)) in Hend by done.
        rewrite Hend. by exists body.
      * rewrite (bool_decide_false (lastChar = LF)) by done.
        rewrite andb_false_r. exists (body ++ [lastChar]). split; [|done].
        apply not_elem_of_app. split; [done|].
        apply not_elem_of_cons. split; [congruence | apply not_elem_of_nil].
    + apply last_None in Hlast as ->. exists []. by split.
  - intros body ->. apply not_elem_of_app in Hcr as [Hbody _].
    unfold FixInsertFinalNewline, lastElem. rewrite Hon, Hexp.
    cbn [notEnabled negb]. rewrite last_snoc.
    rewrite actualEnding_lf_no_cr by done.
    by rewrite (bool_decide_true ("lf" = "lf")).
Qed.

Lemma FixInsertFinalNewline_no_cr path content cfg :
  lfStyle cfg -> CR ∉ content ->
  CR ∉ fixerOutput FixInsertFinalNewline path cfg content.
Proof.
  intros Hstyle Hcr.
  destruct (InsertFinalNewline cfg) as [[|]|] eqn:Hon.
  - destruct (FixInsertFinalNewline_lf path content cfg Hon Hstyle Hcr)
      as [(body & Hbody & ->) _].
    apply not_elem_of_app. split; [done|].
    apply not_elem_of_cons. split; [done | apply not_elem_of_nil].
  - unfold fixerOutput, FixInsertFinalNewline. by rewrite Hon.
  - unfold fixerOutput, FixInsertFinalNewline. by rewrite Hon.
Qed.

Lemma TrimRightFunc_cons (x : byte) (xs : list byte) (f : byte -> bool) :
  TrimRightFunc (x :: xs) f
  = match TrimRightFunc xs f with
    | [] => if f x then [] else [x]
    | r => x :: r
    end.
Proof. reflexivity. Qed.

Lemma trimRight_idemp (line : list byte) :
  trimRight (trimRight line) = trimRight line.
Proof.
  unfold trimRight. induction line as [|x rest IH]; [done|].
  rewrite TrimRightFunc_cons.
  destruct (TrimRightFunc rest isWhitespace) as [|y r] eqn:Hrest.
  - destruct (isWhitespace x) eqn:Hx; [done|].
    rewrite TrimRightFunc_cons. cbn [TrimRightFunc]. by rewrite Hx.
  - rewrite TrimRightFunc_cons, IH. done.
Qed.

(** Two contents without CR that have the same lines are the same. *)
Lemma lineContents_inj content1 content2 :
  CR ∉ content1 -> CR ∉ content2 ->
  lineContents content1 = lineContents content2 -> content1 = content2.
Proof.
  intros H1 H2. rewrite !lineContents_Split by done. intros Heq.
  by rewrite <- (Join_Split content1 LF), <- (Join_Split content2 LF), Heq.
Qed.

Lemma Split_snoc content :
  Split (content ++ [LF]) LF = Split content LF ++ [[]].
Proof.
  induction content as [|c rest IH]; [done|].
  cbn [app Split]. rewrite IH.
  pose proof (Split_nonempty rest LF) as Hne.
  case_bool_decide; [done|]. by destruct (Split rest LF).
Qed.

Lemma Join_snoc_empty (ls : list (list byte)) :
  ls ≠ [] -> Join (ls ++ [[]]) [LF] = Join ls [LF] ++ [LF].
Proof.
  induction ls as [|l ls IH]; [done|]. intros _.
  destruct ls as [|l2 ls]; [done|].
  cbn [app]. rewrite !Join_cons_cons. cbn [app] in IH. rewrite IH by done.
  by rewrite <- !app_assoc.
Qed.

(** The content with which the pipeline goes on after the trimming fixer,
    for a content without CR. *)
Lemma FixTrim_output path content cfg :
  CR ∉ content ->
  let out := fixerOutput FixTrimTrailingWhitespace path cfg content in
  (CR ∉ out)
  /\ FixTrimTrailingWhitespace path out cfg = (out, false, None)
  /\ forall body, content = body ++ [LF] -> exists body', out = body' ++ [LF].
Proof.
  intros Hcr out. subst out. unfold fixerOutput.
  destruct (TrimTrailingWhitespace cfg) as [[|]|] eqn:Hon;
    [| unfold FixTrimTrailingWhitespace; rewrite Hon; cbn;
       split; [done|]; split; [done|]; intros body ->; by exists body ..].
  destruct (trim_on_lf_content path content cfg Hon Hcr)
    as [_ (result & changed & Hfix & Hlines & Hres & Hchanged)].
  rewrite Hfix.
  assert ((if changed then result else content) = result) as ->.
  { destruct changed; [done|]. symmetry.
    destruct (decide (result = content)) as [|Hne]; [done|].
    apply Hchanged in Hne. done. }
  split; [done|]. split.
  - destruct (trim_on_lf_content path result cfg Hon Hres)
      as [_ (result2 & changed2 & Hfix2 & Hlines2 & Hres2 & Hchanged2)].
    assert (result2 = result) as ->.
    { apply lineContents_inj; [done..|].
      rewrite Hlines2, Hlines, <- list_fmap_compose.
      apply list_fmap_ext. intros _ line _. apply trimRight_idemp. }
    rewrite Hfix2. destruct changed2; [|done].
    exfalso. by apply Hchanged2.
  - intros body ->. apply not_elem_of_app in Hcr as [Hbody _].
    rewrite (lineContents_Split (body ++ [LF])) in Hlines
      by (apply not_elem_of_app; split; [done|];
          apply not_elem_of_cons; split; [done | apply not_elem_of_nil]).
    rewrite Split_snoc, fmap_app in Hlines. cbn [fmap list_fmap] in Hlines.
    rewrite lineContents_Split in Hlines by done.
    exists (Join (trimRight <$> Split body LF) [LF]).
    rewrite <- (Join_Split result LF), Hlines. apply Join_snoc_empty.
    pose proof (Split_nonempty body LF). by destruct (Split body LF).
Qed.

(** On a content without CR, and with the end-of-line style unset or [lf],
    the pipeline is idempotent: a second application changes nothing. *)
Lemma fix_pipeline_idempotent_on_lf path content cfg :
  CR ∉ content -> lfStyle cfg ->
  exists fixed modified,
    fixContent path content cfg = inr (fixed, modified)
    /\ (CR ∉ fixed)
    /\ fixContent path fixed cfg = inr (fixed, false).
Proof.
  intros Hcr Hstyle.
  destruct (applyFixers_compose GetAllFixers path content false cfg
              GetAllFixers_neverFail) as [modified Hfix].
  unfold fixContent. rewrite Hfix. eexists _, modified. split; [done|].
  unfold GetAllFixers, composeFixers. cbn [foldl].
  set (a := fixerOutput FixInsertFinalNewline path cfg content).
  assert (CR ∉ a) as Ha by (by apply FixInsertFinalNewline_no_cr).
  destruct (FixTrim_output path a cfg Ha) as (Hb & Htrim & Hkeeps).
  set (b := fixerOutput FixTrimTrailingWhitespace path cfg a) in *.
  assert (fixerOutput FixEndOfLine path cfg b = b) as Hc
    by (unfold fixerOutput; by rewrite FixEndOfLine_stable).
  rewrite Hc. split; [done|].
  assert (FixInsertFinalNewline path b cfg = (b, false, None)) as Hifn.
  { destruct (InsertFinalNewline cfg) as [[|]|] eqn:Hon;
      [| unfold FixInsertFinalNewline; by rewrite Hon ..].
    destruct (FixInsertFinalNewline_lf path content cfg Hon Hstyle Hcr)
      as [(body & Hbody & Hout) _].
    fold a in Hout. destruct (Hkeeps body Hout) as [body' Hb'].
    destruct (FixInsertFinalNewline_lf path b cfg Hon Hstyle Hb) as [_ Hstable].
    by apply (Hstable body'). }
  cbn [applyFixers]. rewrite Hifn, Htrim.
  by rewrite FixEndOfLine_stable.
Qed.
End IdempotentOnLF.

(* ------------------------------------------------------------------ *)
(** ** The property cascade *)
(* ------------------------------------------------------------------ *)

Section Cascade.
Implicit Types (c resolved : ResolvedConfig) (p : Property)
  (props : gmap string string).

Lemma propertyKey_inj p q : propertyKey p = propertyKey q -> p = q.
Proof. by destruct p, q. Qed.

(** A configuration is its eight properties. *)
Lemma ResolvedConfig_ext c1 c2 :
  (forall p, getProperty p c1 = getProperty p c2) -> c1 = c2.
Proof.
  intros Hext. destruct c1, c2.
  pose proof (Hext PIndentStyle). pose proof (Hext PIndentSize).
  pose proof (Hext PTabWidth). pose proof (Hext PEndOfLine).
  pose proof (Hext PCharset). pose proof (Hext PTrimTrailingWhitespace).
  pose proof (Hext PInsertFinalNewline). pose proof (Hext PMaxLineLength).
  simpl in *. congruence.
Qed.

Lemma elem_of_two (x a b : string) :
  bool_decide (x ∈ [a; b]) = bool_decide (x = a) || bool_decide (x = b).
Proof.
  rewrite <- bool_decide_or. apply bool_decide_ext.
  rewrite !elem_of_cons, elem_of_nil. tauto.
Qed.

Lemma elem_of_three (x a b d : string) :
  bool_decide (x ∈ [a; b; d])
  = bool_decide (x = a) || bool_decide (x = b) || bool_decide (x = d).
Proof.
  rewrite <- !bool_decide_or. apply bool_decide_ext.
  rewrite !elem_of_cons, elem_of_nil. tauto.
Qed.

(** Decides the comparisons of two string literals in the goal. *)
Ltac decide_literals :=
  repeat match goal with
    | |- context [bool_decide (?a = ?b)] =>
        first [ rewrite (bool_decide_true (a = b)) by reflexivity
              | rewrite (bool_decide_false (a = b)) by discriminate ]
    end.

Lemma getProperty_set_other p key value c :
  key ≠ propertyKey p ->
  getProperty p (applyProperty key value c) = getProperty p c.
Proof.
  intros Hne. unfold applyProperty.
  repeat match goal with
    | |- context [bool_decide (key = ?k)] =>
        destruct (decide (key = k)) as [->|?];
        [ rewrite (bool_decide_true (k = k)) by done;
          destruct p; try done; repeat case_match; done
        | rewrite (bool_decide_false (key = k)) by done ]
    end.
  done.
Qed.

Lemma getProperty_set_own p value c :
  getProperty p (applyProperty (propertyKey p) value c)
  = default (getProperty p c) (writtenValue p value).
Proof.
  unfold applyProperty.
  destruct p; cbn [propertyKey]; decide_literals;
    cbn [writtenValue]; rewrite ?elem_of_two, ?elem_of_three;
    unfold positiveInt; repeat case_match; simplify_eq; done.
Qed.

(** One assignment writes the field of its key, when the value is
    accepted, and no other field. *)
Lemma getProperty_applyProperty p key value c :
  getProperty p (applyProperty key value c)
  = if bool_decide (key = propertyKey p)
    then default (getProperty p c) (writtenValue p value)
    else getProperty p c.
Proof.
  case_bool_decide as Hk.
  - subst key. apply getProperty_set_own.
  - by apply getProperty_set_other.
Qed.

Lemma applyProperty_comm k1 k2 v1 v2 c :
  k1 ≠ k2 ->
  applyProperty k1 v1 (applyProperty k2 v2 c)
  = applyProperty k2 v2 (applyProperty k1 v1 c).
Proof.
  intros Hne. apply ResolvedConfig_ext. intros p.
  rewrite !getProperty_applyProperty.
  repeat case_bool_decide; congruence.
Qed.

Lemma applyProperties_insert c props key value :
  props !! key = None ->
  applyProperties c (<[key := value]> props)
  = applyProperty key value (applyProperties c props).
Proof.
  intros Hfresh. unfold applyProperties.
  apply map_fold_insert_L; [|done].
  intros j1 j2 z1 z2 y Hne _ _. by apply applyProperty_comm.
Qed.

(** Last writer wins, field by field: after a section is applied, a
    property that the section assigns an accepted value has that value,
    and every other property is as it was. *)
Lemma getProperty_applyProperties p c props :
  getProperty p (applyProperties c props)
  = match props !! propertyKey p with
    | Some raw => default (getProperty p c) (writtenValue p raw)
    | None => getProperty p c
    end.
Proof.
  induction props as [|key value props Hfresh IH] using map_ind.
  - unfold applyProperties. by rewrite map_fold_empty, lookup_empty.
  - rewrite applyProperties_insert by done.
    rewrite getProperty_applyProperty. case_bool_decide as Hk.
    + subst key. by rewrite lookup_insert_eq, IH, Hfresh.
    + by rewrite lookup_insert_ne, IH.
Qed.

(** The order in which the entries of the map are visited does not
    matter. *)
Lemma applyProperties_any_order c props (entries : list (string * string)) :
  entries ≡ₚ map_to_list props ->
  foldr (uncurry applyProperty) c entries = applyProperties c props.
Proof.
  intros Hperm. unfold applyProperties. rewrite map_fold_foldr.
  apply (foldr_permutation (=) (uncurry applyProperty) c); [|done].
  intros j1 [k1 v1] j2 [k2 v2] b Hj Hj1 Hj2. cbn [uncurry].
  apply applyProperty_comm. intros ->.
  assert (NoDup entries.*1) as Hnd
    by (rewrite Hperm; apply NoDup_fst_map_to_list).
  apply Hj. eapply NoDup_lookup; [exact Hnd| |];
    by rewrite list_lookup_fmap; (rewrite Hj1 || rewrite Hj2).
Qed.

Lemma resolveSections_spec filePath configPath sections resolved :
  match resolveSections filePath configPath sections resolved with
  | inr result =>
      result = foldl (applySection filePath) resolved
                 ((fun s => (configPath, s)) <$> sections)
  | inl err =>
      exists before entry after,
        (fun s => (configPath, s)) <$> sections = before ++ entry :: after
        /\ failsToCompile filePath entry err
  end.
Proof.
  revert resolved. induction sections as [|s rest IH]; intros resolved.
  - done.
  - cbn [resolveSections fmap list_fmap foldl].
    destruct (matchesPattern filePath (Pattern s) configPath)
      as [err|matches] eqn:Hm.
    + exists [], (configPath, s), ((fun s => (configPath, s)) <$> rest).
      by split.
    + specialize (IH (if matches
                      then applyProperties resolved (Properties s)
                      else resolved)).
      destruct (resolveSections _ _ rest _) as [err|result].
      * destruct IH as (before & entry & after & Heq & Hfail).
        exists ((configPath, s) :: before), entry, after.
        split; [|done]. cbn [fmap list_fmap] in *. by rewrite Heq.
      * subst result. f_equal. unfold applySection. cbn [fst snd].
        by rewrite Hm.
Qed.

Lemma resolveConfigs_spec filePath configs resolved :
  match resolveConfigs filePath configs resolved with
  | inr result =>
      result = foldl (applySection filePath) resolved (allSections configs)
  | inl err =>
      exists before entry after,
        allSections configs = before ++ entry :: after
        /\ failsToCompile filePath entry err
  end.
Proof.
  revert resolved. induction configs as [|config rest IH]; intros resolved.
  - done.
  - cbn [resolveConfigs]. unfold allSections. cbn [mbind list_bind].
    fold (allSections rest).
    pose proof (resolveSections_spec filePath (ConfigFilePath config)
                  (Sections config) resolved) as Hs.
    destruct (resolveSections _ _ (Sections config) resolved)
      as [err|resolved'].
    + destruct Hs as (before & entry & after & Heq & Hfail).
      exists before, entry, (after ++ allSections rest).
      split; [|done]. rewrite Heq. by rewrite <- app_assoc.
    + specialize (IH resolved'). subst resolved'.
      destruct (resolveConfigs filePath rest _) as [err|result].
      * destruct IH as (before & entry & after & Heq & Hfail).
        exists (((fun s => (ConfigFilePath config, s)) <$> Sections config)
                  ++ before), entry, after.
        split; [|done]. rewrite Heq. by rewrite <- app_assoc.
      * by rewrite foldl_app.
Qed.
End Cascade.


(** An outer document gives every file two spaces; the document next to
    the file gives Go files an indent size of four: the size is
    overwritten, the style is kept. *)
Example cascade_example :
  let outer :=
    mkEditorConfig true
      [mkSection "*" {[ "indent_style" := "space"; "indent_size" := "2" ]}]
      ["p"; ".editorconfig"] in
  let inner :=
    mkEditorConfig false [mkSection "*.go" {[ "indent_size" := "4" ]}]
      ["p"; "q"; ".editorconfig"] in
  ResolveConfigForFile ["p"; "q"; "main.go"] [outer; inner]
  = inr (mkResolved "space" (Some 4) None "" "" None None None).
Proof. vm_compute. reflexivity. Qed.

(** C7 (as amended). Applying [indent_size = tab] clears any indent size
    resolved before: the field becomes [nil]. That is the state of a field
    that was never assigned; the resolved configuration has no state of
    its own for "use the tab width". *)
Theorem indent_size_tab_clears (resolved : ResolvedConfig)
    (props : gmap string string) :
  props !! "indent_size" = Some "tab" ->
  IndentSize (applyProperties resolved props) = None
  /\ IndentSize (applyProperties resolved props) = IndentSize emptyResolved.
Proof.
  intros Htab.
  pose proof (getProperty_applyProperties PIndentSize resolved props) as Hget.
  cbn [propertyKey getProperty] in Hget. rewrite Htab in Hget.
  unfold writtenValue in Hget. rewrite bool_decide_true in Hget by done.
  cbn [default] in Hget. injection Hget as Hnil.
  split; [exact Hnil | by rewrite Hnil].
Qed.

Lemma indent_size_tab_clears_witness :
  IndentSize (applyProperties (setIndentSize (Some 4) emptyResolved)
                {[ "indent_size" := "tab" ]}) = None.
Proof.
  exact (proj1 (indent_size_tab_clears (setIndentSize (Some 4) emptyResolved)
                  {[ "indent_size" := "tab" ]} eq_refl)).
Defined.

(** C7 as stated fails: after [indent_size = tab] the configuration is the
    one in which the indent size was never assigned. *)
Lemma indent_size_tab_is_unset :
  applyProperties emptyResolved {[ "indent_size" := "tab" ]} = emptyResolved
  /\ applyProperties (setIndentSize (Some 4) emptyResolved)
       {[ "indent_size" := "tab" ]} = emptyResolved.
Proof. split; vm_compute; reflexivity. Qed.

(* ------------------------------------------------------------------ *)
(** ** The glob matcher *)
(* ------------------------------------------------------------------ *)

Section StarPattern.
Lemma convert_star : ConvertPatternToRegex "*" = "^.*$".
Proof. vm_compute. reflexivity. Qed.

Lemma compile_any :
  Compile (chars "^.*$")
  = inr (Concat BeginText (Concat (Star AnyCharNotNL) EndText)).
Proof. vm_compute. reflexivity. Qed.

(** [.*] followed by the end of the text takes any text without
    newline. *)
Lemma any_star_to_end (s : list ascii) (fuel : nat) (atStart : bool) :
  (length s <= fuel)%nat ->
  NL ∉ s ->
  starLoop (matchHere AnyCharNotNL) fuel atStart s
    (fun atStart' s' => matchHere EndText atStart' s' (fun _ _ => true))
  = true.
Proof.
  revert fuel atStart. induction s as [|x rest IH]; intros fuel atStart Hlen Hnl.
  - by destruct fuel.
  - destruct fuel as [|fuel]; [simpl in Hlen; lia|].
    apply not_elem_of_cons in Hnl as [Hx Hrest].
    cbn [starLoop matchHere]. rewrite (bool_decide_false (x :: rest = [])) by done.
    cbn [andb orb]. rewrite (bool_decide_false (x = NL)) by done.
    cbn [negb andb].
    replace (length rest <? length (x :: rest))%nat with true
      by (symmetry; apply Nat.ltb_lt; simpl; lia).
    cbn [andb]. apply IH; [simpl in Hlen; lia | done].
Qed.

(** The pattern [*] accepts every path without newline, also one with
    separators. *)
Lemma star_accepts_without_newline (path : string) :
  NL ∉ chars path -> globMatch "*" path = inr true.
Proof.
  intros Hnl. unfold globMatch, MatchString.
  rewrite convert_star, compile_any. f_equal.
  destruct (chars path) as [|x rest] eqn:Hp.
  - reflexivity.
  - cbn [searchFrom matchHere andb].
    rewrite any_star_to_end; [done | lia | done].
Qed.
End StarPattern.

Section SimplePatterns.
Implicit Types (p s : list ascii) (c : ascii).

Lemma QuoteMeta_cons c p : QuoteMeta (c :: p) = quoteChar c ++ QuoteMeta p.
Proof. reflexivity. Qed.

Lemma not_meta c :
  isGlobMeta c = false ->
  c ≠ "\"%char /\ c ≠ "*"%char /\ c ≠ "?"%char
  /\ c ≠ "["%char /\ c ≠ "]"%char /\ c ≠ "{"%char /\ c ≠ "}"%char.
Proof.
  unfold isGlobMeta. intros H%bool_decide_eq_false.
  repeat split; intros ->; apply H; vm_compute;
    repeat (first [ by apply list_elem_of_here | apply list_elem_of_further ]).
Qed.

Lemma simplePattern_cons c p :
  simplePattern (c :: p) = true ->
  (c = "*"%char /\ head p ≠ Some "*"%char \/ c ≠ "*"%char /\ isGlobMeta c = false)
  /\ simplePattern p = true.
Proof.
  cbn [simplePattern]. intros [Hc Hp]%andb_true_iff. split; [|done].
  case_bool_decide as Hstar.
  - left. split; [done|]. apply negb_true_iff, bool_decide_eq_false in Hc. done.
  - right. split; [done|].
    apply andb_true_iff in Hc as [Hc _]. by apply negb_true_iff in Hc.
Qed.

(** *** Steps of [ReplaceAll] that replace nothing *)

Lemma replaceFrom_step (old new : list ascii) c s :
  replaceFrom 0 old new (c :: s)
  = if HasPrefix (c :: s) old
    then new ++ replaceFrom (Nat.pred (length old)) old new s
    else c :: replaceFrom 0 old new s.
Proof. reflexivity. Qed.

Lemma replaceFrom_skip_char c a old' new s :
  c ≠ a ->
  replaceFrom 0 (a :: old') new (c :: s) = c :: replaceFrom 0 (a :: old') new s.
Proof.
  intros Hne. cbn [replaceFrom HasPrefix].
  by rewrite (bool_decide_false (c = a)) by done.
Qed.

Lemma replaceFrom_skip_escape c x more new s :
  c ≠ x -> c ≠ "\"%char ->
  replaceFrom 0 ("\"%char :: x :: more) new ("\"%char :: c :: s)
  = "\"%char :: c :: replaceFrom 0 ("\"%char :: x :: more) new s.
Proof.
  intros Hx Hb. cbn [replaceFrom HasPrefix].
  rewrite (bool_decide_true ("\"%char = "\"%char)) by done.
  rewrite (bool_decide_false (c = x)) by done. cbn [andb].
  by rewrite (bool_decide_false (c = "\"%char)) by done.
Qed.

Lemma replaceFrom_skip_quoted c x more new s :
  isGlobMeta c = false -> c ≠ x ->
  replaceFrom 0 ("\"%char :: x :: more) new (quoteChar c ++ s)
  = quoteChar c ++ replaceFrom 0 ("\"%char :: x :: more) new s.
Proof.
  intros (Hb & _)%not_meta Hx. unfold quoteChar.
  destruct (isSpecial c); cbn [app].
  - by apply replaceFrom_skip_escape.
  - by apply replaceFrom_skip_char.
Qed.

Lemma convertChar_star : convertChar "*"%char = classText.
Proof. reflexivity. Qed.

Lemma convertChar_other c : c ≠ "*"%char -> convertChar c = quoteChar c.
Proof. intros Hc. unfold convertChar. by rewrite bool_decide_false. Qed.

Lemma quoteChar_star : quoteChar "*"%char = ["\"%char; "*"%char].
Proof. reflexivity. Qed.

Lemma replaceFrom_skip_class x more new s :
  replaceFrom 0 ("\"%char :: x :: more) new (classText ++ s)
  = classText ++ replaceFrom 0 ("\"%char :: x :: more) new s.
Proof.
  unfold classText. cbn [app].
  by rewrite !replaceFrom_skip_char by done.
Qed.

(** *** The passes of [ConvertPatternToRegex] on a simple pattern *)

Lemma QuoteMeta_head_not_star p :
  head p ≠ Some "*"%char ->
  HasPrefix (QuoteMeta p) ["\"%char; "*"%char] = false.
Proof.
  destruct p as [|c p]; [done|]. cbn [head]. intros Hc.
  rewrite QuoteMeta_cons. unfold quoteChar.
  destruct (isSpecial c) eqn:Hs; cbn [app HasPrefix].
  - rewrite (bool_decide_false (c = "*"%char)) by congruence.
    by rewrite andb_false_r.
  - rewrite (bool_decide_false (c = "\"%char)); [done|].
    intros ->. by vm_compute in Hs.
Qed.

Lemma pass_double_star p new :
  simplePattern p = true ->
  ReplaceAll (QuoteMeta p) ["\"%char; "*"%char; "\"%char; "*"%char] new
  = QuoteMeta p.
Proof.
  unfold ReplaceAll. induction p as [|c p IH]; [done|].
  intros [[[-> Hnext]|[Hc Hmeta]] Hp]%simplePattern_cons;
    rewrite QuoteMeta_cons.
  - rewrite quoteChar_star. cbn [app]. rewrite replaceFrom_step.
    replace (HasPrefix _ _) with false.
    + rewrite replaceFrom_skip_char by done. by rewrite IH.
    + symmetry. cbn [HasPrefix].
      rewrite !bool_decide_true by done. cbn [andb].
      by apply QuoteMeta_head_not_star.
  - rewrite replaceFrom_skip_quoted by done. by rewrite IH.
Qed.

Lemma pass_star p :
  simplePattern p = true ->
  ReplaceAll (QuoteMeta p) ["\"%char; "*"%char] classText = p ≫= convertChar.
Proof.
  unfold ReplaceAll. induction p as [|c p IH]; [done|].
  intros [[[-> Hnext]|[Hc Hmeta]] Hp]%simplePattern_cons;
    rewrite QuoteMeta_cons; cbn [mbind list_bind].
  - rewrite quoteChar_star, convertChar_star. cbn [app].
    rewrite replaceFrom_step. cbn [HasPrefix length Nat.pred].
    rewrite !bool_decide_true by done. rewrite HasPrefix_nil. cbn [andb].
    f_equal. cbn [replaceFrom]. by apply IH.
  - rewrite convertChar_other by done.
    rewrite replaceFrom_skip_quoted by done. f_equal. by apply IH.
Qed.

(** A pass for another glob character changes nothing. *)
Lemma pass_other p x more new :
  simplePattern p = true ->
  isGlobMeta x = true ->
  ReplaceAll (p ≫= convertChar) ("\"%char :: x :: more) new = p ≫= convertChar.
Proof.
  intros Hp Hx. unfold ReplaceAll. induction p as [|c p IH]; [done|].
  apply simplePattern_cons in Hp as [[[-> Hnext]|[Hc Hmeta]] Hp];
    cbn [mbind list_bind].
  - rewrite convertChar_star.
    rewrite replaceFrom_skip_class. f_equal. by apply IH.
  - rewrite convertChar_other by done.
    rewrite replaceFrom_skip_quoted; [f_equal; by apply IH | done |].
    intros ->. congruence.
Qed.

Lemma braces_skip_char c s :
  c ≠ "\"%char -> replaceBracesFrom 0 (c :: s) = c :: replaceBracesFrom 0 s.
Proof.
  intros Hne. cbn [replaceBracesFrom braceMatchAt].
  destruct s as [|c2 rest]; [done|].
  by rewrite (bool_decide_false (c = "\"%char)) by done.
Qed.

Lemma braces_skip_escape c s :
  c ≠ "{"%char -> c ≠ "\"%char ->
  replaceBracesFrom 0 ("\"%char :: c :: s)
  = "\"%char :: c :: replaceBracesFrom 0 s.
Proof.
  intros Hx Hb. cbn [replaceBracesFrom braceMatchAt].
  rewrite (bool_decide_false (c = "{"%char)) by done.
  rewrite andb_false_r. f_equal.
  destruct s as [|c2 rest]; [done|].
  by rewrite (bool_decide_false (c = "\"%char)) by done.
Qed.

Lemma pass_braces p :
  simplePattern p = true ->
  replaceBracesFrom 0 (p ≫= convertChar) = p ≫= convertChar.
Proof.
  induction p as [|c p IH]; [done|].
  intros [[[-> Hnext]|[Hc Hmeta]] Hp]%simplePattern_cons;
    cbn [mbind list_bind].
  - rewrite convertChar_star. unfold classText. cbn [app].
    rewrite !braces_skip_char by done. by rewrite IH.
  - rewrite convertChar_other by done.
    destruct (not_meta c Hmeta) as (Hb & _ & _ & _ & _ & Hbrace & _).
    unfold quoteChar. destruct (isSpecial c); cbn [app].
    + rewrite braces_skip_escape by done. by rewrite IH.
    + rewrite braces_skip_char by done. by rewrite IH.
Qed.

Lemma QuoteMeta_is_star p :
  QuoteMeta p = ["\"%char; "*"%char] -> p = ["*"%char].
Proof.
  destruct p as [|c p]; [done|]. rewrite QuoteMeta_cons. unfold quoteChar.
  destruct (isSpecial c) eqn:Hs; cbn [app].
  - intros [= -> Hrest]. destruct p as [|c' p]; [done|].
    rewrite QuoteMeta_cons in Hrest. unfold quoteChar in Hrest.
    by destruct (isSpecial c').
  - intros [= -> _]. by vm_compute in Hs.
Qed.

(** The expression of a simple pattern other than [*]: each star has
    become [[^/]*], each other character stands for itself. *)
Lemma convertPattern_simple p :
  simplePattern p = true ->
  p ≠ ["*"%char] ->
  convertPattern p = "^"%char :: (p ≫= convertChar) ++ ["$"%char].
Proof.
  intros Hp Hnot. unfold convertPattern.
  cbn [chars list_ascii_of_string]. fold classText.
  rewrite pass_double_star by done.
  rewrite bool_decide_false by (intros H; by apply Hnot, QuoteMeta_is_star).
  rewrite pass_star by done.
  rewrite !pass_other by done.
  by rewrite pass_braces.
Qed.
End SimplePatterns.

Section SimpleCompile.
Implicit Types (p s : list ascii) (c : ascii) (its : list Regexp).

Lemma special_is_punct c : isSpecial c = true -> isPunctEscape c = true.
Proof.
  unfold isSpecial. intros H%bool_decide_eq_true_1.
  cbn [chars list_ascii_of_string] in H.
  repeat (apply elem_of_cons in H as [->|H]; [done|]).
  by apply elem_of_nil in H.
Qed.

Lemma not_special c (x : ascii) :
  isSpecial c = false -> isSpecial x = true -> c ≠ x.
Proof. intros Hc Hx ->. congruence. Qed.

(** A character that is not special is read as a literal. *)
Lemma parseStep_plain c a its stk lr :
  isSpecial c = false ->
  parseStep (mkParse (mkFrame a its) stk (Normal lr)) c
  = inr (mkParse (mkFrame a (Literal c :: its)) stk (Normal false)).
Proof.
  intros Hc. unfold parseStep. cbn [mode].
  rewrite !(bool_decide_false (c = _)) by (by apply not_special).
  reflexivity.
Qed.

Lemma parse_quoteChar c a its stk lr rest :
  isGlobMeta c = false ->
  parseFrom (mkParse (mkFrame a its) stk (Normal lr)) (quoteChar c ++ rest)
  = parseFrom (mkParse (mkFrame a (Literal c :: its)) stk (Normal false)) rest.
Proof.
  intros Hmeta. unfold quoteChar. destruct (isSpecial c) eqn:Hs; cbn [app].
  - cbn [parseFrom]. unfold parseStep at 1. cbn [mode].
    rewrite (bool_decide_true ("\"%char = "\"%char)) by done.
    unfold setMode. cbn [top stack]. unfold parseStep. cbn [mode].
    by rewrite special_is_punct.
  - cbn [parseFrom]. by rewrite parseStep_plain.
Qed.

Lemma parse_classText a its stk lr rest :
  parseFrom (mkParse (mkFrame a its) stk (Normal lr)) (classText ++ rest)
  = parseFrom
      (mkParse (mkFrame a (regexpOfChar "*"%char :: its)) stk (Normal true))
      rest.
Proof. reflexivity. Qed.

Lemma parse_convertChars p a its stk lr rest :
  simplePattern p = true ->
  exists lr',
    parseFrom (mkParse (mkFrame a its) stk (Normal lr))
      ((p ≫= convertChar) ++ rest)
    = parseFrom
        (mkParse (mkFrame a (rev (regexpOfChar <$> p) ++ its)) stk (Normal lr'))
        rest.
Proof.
  revert its lr. induction p as [|c p IH]; intros its lr Hp.
  - by exists lr.
  - apply simplePattern_cons in Hp as [[[-> Hnext]|[Hc Hmeta]] Hp];
      cbn [mbind list_bind fmap list_fmap rev]; rewrite <- !app_assoc.
    + rewrite convertChar_star, parse_classText.
      destruct (IH (regexpOfChar "*"%char :: its) true Hp) as [lr' Heq].
      exists lr'. by rewrite Heq.
    + rewrite convertChar_other, parse_quoteChar by done.
      destruct (IH (Literal c :: its) false Hp) as [lr' Heq].
      exists lr'. rewrite Heq. unfold regexpOfChar.
      by rewrite (bool_decide_false (c = "*"%char)).
Qed.

Lemma concatOf_chain (rs : list Regexp) :
  concatOf (EndText :: rev rs ++ [BeginText])
  = Concat BeginText (chainToEnd rs).
Proof.
  unfold concatOf, chainToEnd. rewrite foldl_app. cbn [foldl]. f_equal.
  induction rs as [|r rs IH]; [done|].
  cbn [rev foldr]. by rewrite foldl_app, IH.
Qed.

Lemma Compile_simple p :
  simplePattern p = true ->
  Compile ("^"%char :: (p ≫= convertChar) ++ ["$"%char])
  = inr (Concat BeginText (chainToEnd (regexpOfChar <$> p))).
Proof.
  intros Hp. unfold Compile. cbn [parseFrom].
  change (parseStep _ "^"%char)
    with (@inr CompileError _
            (mkParse (mkFrame [] [BeginText]) [] (Normal false))).
  destruct (parse_convertChars p [] [BeginText] [] false ["$"%char] Hp)
    as [lr' ->].
  cbn [parseFrom]. unfold parseStep. cbn [mode].
  rewrite !(bool_decide_false ("$"%char = _)) by done.
  rewrite (bool_decide_true ("$"%char = "$"%char)) by done.
  unfold pushItem, parseEnd, closeFrame.
  cbn [orb mode stack top alts items foldl app].
  by rewrite concatOf_chain.
Qed.

(** *** Matching *)

Lemma code_inj (x y : ascii) : code x = code y -> x = y.
Proof.
  unfold code. intros H%(inj Z.of_N).
  by rewrite <- (ascii_N_embedding x), <- (ascii_N_embedding y), H.
Qed.

Lemma between_slash (x : ascii) :
  (code "/"%char <=? code x) && (code x <=? code "/"%char)
  = bool_decide (x = "/"%char).
Proof.
  case_bool_decide as Hx.
  - subst x. by vm_compute.
  - apply andb_false_iff.
    destruct (Z.leb_spec (code "/"%char) (code x)) as [H1|H1]; [|by left].
    destruct (Z.leb_spec (code x) (code "/"%char)) as [H2|H2]; [|by right].
    exfalso. apply Hx, code_inj. lia.
Qed.

Lemma inClass_not_slash (x : ascii) :
  inClass true [("/"%char, "/"%char)] x = negb (bool_decide (x = "/"%char)).
Proof.
  unfold inClass. cbn [existsb fst snd].
  rewrite orb_false_r, between_slash. by destruct (bool_decide _).
Qed.

Lemma starLoop_class (K : Cont) (K' : list ascii -> bool) fuel atStart s :
  (forall a' s', K a' s' = K' s') ->
  (length s <= fuel)%nat ->
  starLoop (matchHere (CharClass true [("/"%char, "/"%char)])) fuel atStart s K
  = starRuns K' s.
Proof.
  intros HK. revert fuel atStart. induction s as [|x rest IH]; intros fuel atStart Hlen.
  - destruct fuel; cbn [starLoop starRuns matchHere]; by rewrite HK.
  - destruct fuel as [|fuel]; [simpl in Hlen; lia|].
    cbn [starLoop starRuns matchHere]. rewrite HK. f_equal.
    rewrite inClass_not_slash. f_equal.
    replace (length rest <? length (x :: rest))%nat with true
      by (symmetry; apply Nat.ltb_lt; simpl; lia).
    cbn [andb]. apply IH. simpl in Hlen. lia.
Qed.

Lemma matchHere_chain p atStart s :
  simplePattern p = true ->
  matchHere (chainToEnd (regexpOfChar <$> p)) atStart s (fun _ _ => true)
  = globSem p s.
Proof.
  revert atStart s. induction p as [|c p IH]; intros atStart s Hp.
  - cbn. by rewrite andb_true_r.
  - apply simplePattern_cons in Hp as [Hc Hp].
    cbn [fmap list_fmap chainToEnd foldr globSem]. unfold regexpOfChar at 1.
    case_bool_decide as Hstar.
    + cbn [matchHere]. apply starLoop_class; [|done].
      intros a' s'. by apply IH.
    + cbn [matchHere]. destruct s as [|x s']; [done|].
      f_equal. by apply IH.
Qed.

Lemma searchFrom_begin_later (r : Regexp) s :
  searchFrom (Concat BeginText r) false s = false.
Proof. induction s as [|x s IH]; [done|]. cbn. exact IH. Qed.

Lemma searchFrom_simple p s :
  simplePattern p = true ->
  searchFrom (Concat BeginText (chainToEnd (regexpOfChar <$> p))) true s
  = globSem p s.
Proof.
  intros Hp. destruct s as [|x s'].
  - cbn [searchFrom matchHere andb]. rewrite orb_false_r.
    by apply matchHere_chain.
  - cbn [searchFrom]. rewrite searchFrom_begin_later, orb_false_r.
    cbn [matchHere andb]. by apply matchHere_chain.
Qed.

(** A pattern of literal characters and single stars, other than [*],
    compiles, and the matcher decides what the pattern means when read
    directly. *)
Lemma globMatch_simple (pattern path : string) :
  simplePattern (chars pattern) = true ->
  pattern ≠ "*" ->
  globMatch pattern path = inr (globSem (chars pattern) (chars path)).
Proof.
  intros Hp Hnot. unfold globMatch, MatchString, ConvertPatternToRegex.
  unfold chars at 1. rewrite list_ascii_of_string_of_list_ascii.
  rewrite convertPattern_simple; [|done|].
  - rewrite Compile_simple by done. f_equal. by apply searchFrom_simple.
  - intros Heq. apply Hnot.
    rewrite <- (string_of_list_ascii_of_string pattern).
    unfold chars in Heq. by rewrite Heq.
Qed.

(** What a star matches: a run of characters without separator. *)
Lemma starRuns_spec (k : list ascii -> bool) s :
  starRuns k s = true <->
  exists run rest, s = run ++ rest /\ ("/"%char ∉ run) /\ k rest = true.
Proof.
  induction s as [|x s IH]; cbn [starRuns].
  - rewrite orb_false_r. split.
    + intros Hk. exists [], []. split; [done|]. split; [apply not_elem_of_nil|done].
    + intros (run & rest & Heq & _ & Hk).
      symmetry in Heq. apply app_eq_nil in Heq as [_ ->]. done.
  - rewrite orb_true_iff, andb_true_iff, negb_true_iff, bool_decide_eq_false, IH.
    split.
    + intros [Hk|[Hx (run & rest & -> & Hrun & Hk)]].
      * exists [], (x :: s). split; [done|]. split; [apply not_elem_of_nil|done].
      * exists (x :: run), rest. split; [done|]. split; [|done].
        apply not_elem_of_cons. done.
    + intros (run & rest & Heq & Hrun & Hk). destruct run as [|y run].
      * left. cbn [app] in Heq. by subst rest.
      * right. cbn [app] in Heq. injection Heq as -> ->.
        apply not_elem_of_cons in Hrun as [Hy Hrun].
        split; [done|]. by exists run, rest.
Qed.
End SimpleCompile.




(** The expressions that the test of [ConvertPatternToRegex] expects, but
    for the pattern [*], for which the test expects [^[^/]*$]. *)
Example convert_pattern_examples :
  ConvertPatternToRegex "**" = "^.*$"
  /\ ConvertPatternToRegex "src/**" = "^src/.*$"
  /\ ConvertPatternToRegex "*.{js,ts}" = "^[^/]*\.(js|ts)$".
Proof. repeat split; vm_compute; reflexivity. Qed.

(* ------------------------------------------------------------------ *)
(** ** Patterns that do not compile *)
(* ------------------------------------------------------------------ *)

Section BadPatterns.
Implicit Types (pattern path : string) (patterns : list string).

(** A pattern whose expression does not compile excludes nothing. *)
Lemma excludes_bad pattern path err :
  Compile (chars (ConvertPatternToRegex pattern)) = inl err ->
  excludes pattern path = false.
Proof.
  intros Hbad. unfold excludes, MatchString. rewrite Hbad. cbn [matchedOk orb].
  induction (suffixPaths _) as [|p ps IH]; [done|].
  cbn [existsb matchedOk orb]. exact IH.
Qed.

Lemma shouldIgnore_existsb patterns path :
  shouldIgnore patterns path
  = existsb (fun pattern => excludes pattern path) patterns.
Proof.
  unfold shouldIgnore. destruct patterns; [done|].
  replace (len (_ :: _) =? 0) with false; [done|].
  symmetry. apply Z.eqb_neq. unfold len. simpl. lia.
Qed.

Lemma resolveConfigs_entries filePath configs resolved :
  resolveConfigs filePath configs resolved
  = resolveEntries filePath (allSections configs) resolved.
Proof.
  revert resolved. induction configs as [|config rest IH]; intros resolved.
  - done.
  - cbn [resolveConfigs]. unfold allSections. cbn [mbind list_bind].
    fold (allSections rest).
    generalize (ConfigFilePath config) as configPath. intros configPath.
    revert resolved.
    induction (Sections config) as [|s ss IHs]; intros resolved.
    + cbn. apply IH.
    + cbn [resolveSections fmap list_fmap app resolveEntries fst snd].
      destruct (matchesPattern filePath (Pattern s) configPath)
        as [err|matches] eqn:Hm; [done|].
      unfold applySection at 1. cbn [fst snd]. rewrite Hm. cbn [matchedOk].
      apply IHs.
Qed.

Lemma resolveEntries_first_failure filePath before entry after err resolved :
  Forall (fun e => exists matches,
              matchesPattern filePath (Pattern e.2) e.1 = inr matches) before ->
  failsToCompile filePath entry err ->
  resolveEntries filePath (before ++ entry :: after) resolved = inl err.
Proof.
  intros Hbefore Hfail. revert resolved.
  induction Hbefore as [|e es [matches Hm] _ IH]; intros resolved.
  - cbn [app resolveEntries]. by rewrite Hfail.
  - cbn [app resolveEntries]. rewrite Hm. apply IH.
Qed.
End BadPatterns.

(** C8 (as amended). A glob of the exclusion list whose expression does
    not compile is skipped: it excludes no path, and the list decides as it
    does without it. A section header whose expression does not compile is
    not skipped: when it is the first such section met, resolving the
    properties of a file returns its compilation error, and no
    properties. *)
Theorem bad_pattern_handling (bad : string) (msg : string) :
  Compile (chars (ConvertPatternToRegex bad)) = inl (SyntaxError msg) ->
  (forall before after path,
      shouldIgnore (before ++ bad :: after) path
      = shouldIgnore (before ++ after) path)
  /\ (forall filePath configs before entry after,
      allSections configs = before ++ entry :: after ->
      Pattern entry.2 = bad ->
      Forall (fun e => exists matches,
                  matchesPattern filePath (Pattern e.2) e.1 = inr matches)
        before ->
      ResolveConfigForFile filePath configs = inl (SyntaxError msg)).
Proof.
  intros Hbad. split.
  - intros before after path. rewrite !shouldIgnore_existsb.
    rewrite !existsb_app. cbn [existsb].
    by rewrite (excludes_bad bad path _ Hbad).
  - intros filePath configs before entry after Hall Hpat Hbefore.
    unfold ResolveConfigForFile. rewrite resolveConfigs_entries, Hall.
    apply resolveEntries_first_failure; [done|].
    unfold failsToCompile, matchesPattern, MatchString.
    by rewrite Hpat, Hbad.
Qed.

Lemma bad_pattern_handling_witness :
  shouldIgnore (["*.tmp"] ++ "[" :: ["*.bak"]) "src/x.bak"
  = shouldIgnore (["*.tmp"] ++ ["*.bak"]) "src/x.bak"
  /\ ResolveConfigForFile ["p"; "main.go"]
       [mkEditorConfig true
          [mkSection "*" {[ "indent_style" := "tab" ]};
           mkSection "[" {[ "indent_style" := "space" ]}]
          ["p"; ".editorconfig"]]
     = inl (SyntaxError "missing closing ]").
Proof.
  pose proof (bad_pattern_handling "[" "missing closing ]" eq_refl)
    as [Hexclude Hsection].
  split.
  - exact (Hexclude ["*.tmp"] ["*.bak"] "src/x.bak").
  - apply (Hsection _ _
             [(["p"; ".editorconfig"],
               mkSection "*" {[ "indent_style" := "tab" ]})]
             (["p"; ".editorconfig"],
              mkSection "[" {[ "indent_style" := "space" ]}) []).
    + reflexivity.
    + reflexivity.
    + repeat constructor. exists true. vm_compute. reflexivity.
Defined.

(** C8 as stated fails: a document whose first section has the pattern
    [[], followed by a section for every file, does not resolve. *)
Lemma bad_section_fails_resolution :
  ResolveConfigForFile ["p"; "main.go"]
    [mkEditorConfig true
       [mkSection "[" {[ "indent_style" := "space" ]};
        mkSection "*" {[ "indent_style" := "tab" ]}]
       ["p"; ".editorconfig"]]
  = inl (SyntaxError "missing closing ]").
Proof. vm_compute. reflexivity. Qed.

(* ------------------------------------------------------------------ *)
(** ** Fixing files in parallel *)
(* ------------------------------------------------------------------ *)

Section WorkerPool.
Variable w : World.
Implicit Types (st : Store) (job : Path) (hands : list (option Path))
  (p : Pool).

(** Fixing a file reads and writes that file only. *)
Lemma fixSingleFile_outcome_local st1 st2 job :
  st1 !! job = st2 !! job ->
  (fixSingleFile w st1 job).2 = (fixSingleFile w st2 job).2.
Proof.
  intros Heq. unfold fixSingleFile. rewrite Heq.
  repeat case_match; simplify_eq; done.
Qed.

Lemma fixSingleFile_store_other st job other :
  other ≠ job ->
  (fixSingleFile w st job).1 !! other = st !! other.
Proof.
  intros Hne. unfold fixSingleFile.
  repeat case_match; simplify_eq; cbn [fst]; try done.
  by rewrite lookup_insert_ne.
Qed.

Lemma fixSingleFile_store_local st1 st2 job :
  st1 !! job = st2 !! job ->
  (fixSingleFile w st1 job).1 !! job = (fixSingleFile w st2 job).1 !! job.
Proof.
  intros Heq. unfold fixSingleFile. rewrite Heq.
  repeat case_match; cbn [fst]; rewrite ?lookup_insert_eq; congruence.
Qed.

Lemma heldJobs_receive hands worker job :
  hands !! worker = Some None ->
  heldJobs (<[worker := Some job]> hands) ≡ₚ job :: heldJobs hands.
Proof.
  intros Hw. unfold heldJobs.
  rewrite insert_take_drop by (by eapply lookup_lt_Some).
  rewrite <- (take_drop_middle hands worker None Hw) at 3.
  rewrite !omap_app. cbn [omap list_omap id].
  by rewrite Permutation_middle.
Qed.

Lemma heldJobs_finish hands worker job :
  hands !! worker = Some (Some job) ->
  heldJobs hands ≡ₚ job :: heldJobs (<[worker := None]> hands).
Proof.
  intros Hw. unfold heldJobs.
  rewrite insert_take_drop by (by eapply lookup_lt_Some).
  rewrite <- (take_drop_middle hands worker (Some job) Hw) at 1.
  rewrite !omap_app. cbn [omap list_omap id].
  by rewrite Permutation_middle.
Qed.

Lemma heldJobs_idle hands :
  Forall (fun hand => hand = None) hands -> heldJobs hands = [].
Proof. induction 1 as [|? ? -> _ IH]; [done | exact IH]. Qed.

Lemma sentFor_app st finished job :
  sentFor w st (finished ++ [job])
  = sentFor w st finished ++ sent job (outcomeOf w st job).
Proof.
  unfold sentFor. rewrite bind_app. cbn [mbind list_bind].
  by rewrite app_nil_r.
Qed.

Section Runs.
Variables (files : list Path) (st0 : Store).
Hypothesis Hdistinct : NoDup files.

Lemma poolInv_start workers :
  poolInv w files st0 (poolStart workers files st0).
Proof.
  exists []. split; [done|]. split; [|split].
  - cbn [poolStart inHand jobs app].
    rewrite heldJobs_idle; [done|]. by apply Forall_replicate.
  - done.
  - intros job Hin. by apply elem_of_nil in Hin.
Qed.

Lemma poolInv_step p p' :
  poolInv w files st0 p -> poolStep w p p' -> poolInv w files st0 p'.
Proof.
  intros (finished & Hres & Hperm & Hfresh & Hdone) Hstep.
  destruct Hstep as [worker job rest hands res st Hw
                    |worker job js hands res st Hw]; cbn in *.
  - exists finished. cbn. repeat split; [done| |done|done].
    rewrite heldJobs_receive by done. rewrite <- Hperm.
    by rewrite <- Permutation_middle.
  - assert (job ∉ finished) as Hnew.
    { intros Hin.
      assert (NoDup (finished ++ heldJobs hands ++ js)) as Hnd
        by (by rewrite Hperm).
      apply NoDup_app in Hnd as (_ & Hdisj & _).
      apply (Hdisj job Hin). apply elem_of_app. left.
      rewrite (heldJobs_finish hands worker job Hw). by left. }
    exists (finished ++ [job]). cbn. repeat split.
    + rewrite sentFor_app, Hres. f_equal. f_equal. unfold outcomeOf.
      apply fixSingleFile_outcome_local. by apply Hfresh.
    + rewrite <- Hperm, (heldJobs_finish hands worker job Hw).
      rewrite <- app_assoc. cbn [app]. done.
    + intros other Hother.
      apply not_elem_of_app in Hother as [Hother Hne].
      rewrite fixSingleFile_store_other
        by (intros ->; apply Hne; by left).
      by apply Hfresh.
    + intros other Hother. apply elem_of_app in Hother as [Hold|Hjob].
      * rewrite fixSingleFile_store_other by (intros ->; done).
        by apply Hdone.
      * apply list_elem_of_singleton in Hjob as ->.
        apply fixSingleFile_store_local. by apply Hfresh.
Qed.

Lemma poolInv_run workers p :
  rtc (poolStep w) (poolStart workers files st0) p -> poolInv w files st0 p.
Proof.
  revert p. apply rtc_ind_r.
  - apply poolInv_start.
  - intros p1 p2 _ Hstep IH. by eapply poolInv_step.
Qed.

Lemma pathString_nonempty job : pathString job ≠ "".
Proof. done. Qed.

Lemma collectFixed_sentFor finished :
  collectFixed (sentFor w st0 finished)
  = pathString <$> filter (fun job => isFixed (outcomeOf w st0 job)) finished.
Proof.
  unfold collectFixed, sentFor.
  induction finished as [|job rest IH]; [done|].
  cbn [mbind list_bind]. rewrite filter_app, IH, filter_cons.
  unfold sent. destruct (outcomeOf w st0 job) as [err|[|]]; cbn [isFixed].
  - by rewrite decide_False by (intros H; done).
  - rewrite filter_cons, decide_True by apply pathString_nonempty.
    by rewrite decide_True by done.
  - rewrite filter_cons, decide_False by (intros H; by apply H).
    by rewrite decide_False by (intros H; done).
Qed.

(** Every complete run sends the paths of the files that fixing
    changes, in some order, and leaves each file as fixing it alone
    does. *)
Lemma pool_done workers p :
  rtc (poolStep w) (poolStart workers files st0) p ->
  poolDone p ->
  collectFixed (results p)
    ≡ₚ pathString <$> filter (fun job => isFixed (outcomeOf w st0 job)) files
  /\ forall job, job ∈ files ->
       store p !! job = (fixSingleFile w st0 job).1 !! job.
Proof.
  intros Hrun [Hjobs Hidle].
  destruct (poolInv_run workers p Hrun)
    as (finished & Hres & Hperm & _ & Hdone).
  rewrite Hjobs, (heldJobs_idle _ Hidle) in Hperm.
  cbn [app] in Hperm. rewrite app_nil_r in Hperm.
  split.
  - rewrite Hres, collectFixed_sentFor. by rewrite Hperm.
  - intros job Hin. apply Hdone. by rewrite Hperm.
Qed.

(** With one worker at least, the workers can take the jobs one after
    the other until none is left. *)
Lemma pool_can_finish workers js res st :
  (0 < workers)%nat ->
  exists final,
    rtc (poolStep w) (mkPool js (replicate workers None) res st) final
    /\ poolDone final.
Proof.
  intros Hworkers. revert res st.
  induction js as [|job rest IH]; intros res st.
  - eexists. split; [apply rtc_refl|].
    split; [done | by apply Forall_replicate].
  - destruct (IH (res ++ sent job (fixSingleFile w st job).2)
                (fixSingleFile w st job).1) as (final & Hrun & Hdone).
    exists final. split; [|done].
    eapply rtc_l.
    { apply (stepReceive w 0%nat). by apply lookup_replicate_2. }
    eapply rtc_l.
    { apply (stepFinish w 0%nat job).
      apply list_lookup_insert_eq. by rewrite length_replicate. }
    rewrite list_insert_insert_eq.
    rewrite list_insert_id by (by apply lookup_replicate_2).
    exact Hrun.
Qed.
End Runs.
End WorkerPool.




(* ================================================================== *)
(** * Further properties of the code *)
(* ================================================================== *)

(* ------------------------------------------------------------------ *)
(** ** Each rule: what the validator flags is what the fixer changes *)
(* ------------------------------------------------------------------ *)
Section RuleAgreement.
Implicit Types (content line : list byte) (cfg : ResolvedConfig).

Lemma final_newline_agree path content cfg :
  ValidateInsertFinalNewline path content cfg = None
  <-> changedBy FixInsertFinalNewline path cfg content = false.
Proof.
  unfold changedBy, ValidateInsertFinalNewline, FixInsertFinalNewline.
  destruct (notEnabled (InsertFinalNewline cfg)); [done|].
  destruct (lastElem content) as [lastChar|]; [|done].
  set (expected := if bool_decide (EndOfLine cfg = "") then "lf"
                   else EndOfLine cfg).
  destruct (actualEndingOf content lastChar); cbn [endingName];
    [ destruct (decide (expected = "crlf")) as [He|He]
    | destruct (decide (expected = "cr")) as [He|He]
    | destruct (decide (expected = "lf")) as [He|He]
    | done ];
    try (rewrite He; done).
  all: rewrite (bool_decide_false (_ = expected)) by congruence.
  all: rewrite (bool_decide_false (expected = _)) by congruence.
  all: done.
Qed.
End RuleAgreement.
Section TrimAgreement.
Implicit Types (content line : list byte) (lines : list (list byte)).

Lemma last_cons_cons {A} (x y : A) (l : list A) :
  last (x :: y :: l) = last (y :: l).
Proof. reflexivity. Qed.

(** Trimming changes a line exactly when its last byte is a space or a
    tab. *)
Lemma trimRight_fixed line :
  trimRight line = line <-> ~ endsWithWhitespace line.
Proof.
  unfold trimRight, endsWithWhitespace, lastElem.
  induction line as [|x rest IH]; [done|].
  rewrite TrimRightFunc_cons.
  destruct rest as [|y rest'].
  - cbn [TrimRightFunc last from_option].
    destruct (isWhitespace x); [split; [done | intros H; by destruct H] |].
    split; [intros _ H; done | done].
  - rewrite last_cons_cons.
    destruct (TrimRightFunc (y :: rest') isWhitespace) as [|z r] eqn:Hr.
    + split.
      * destruct (isWhitespace x); done.
      * intros Hnot. exfalso. apply IH in Hnot. done.
    + rewrite <- IH. split; [by intros [= -> ->] | by intros ->].
Qed.

Lemma list_find_None_Forall lines :
  list_find endsWithWhitespace lines = None
  <-> Forall (fun l => ~ endsWithWhitespace l) lines.
Proof. apply list_find_None. Qed.

Lemma trim_all_fixed lines :
  trimRight <$> lines = lines
  <-> Forall (fun l => ~ endsWithWhitespace l) lines.
Proof.
  induction lines as [|l ls IH]; [done|].
  cbn [fmap list_fmap]. rewrite Forall_cons, <- IH, <- trimRight_fixed.
  split; [by intros [= -> ->] | by intros [-> ->]].
Qed.

Lemma trim_agree path content cfg :
  ValidateTrimTrailingWhitespace path content cfg = None
  <-> changedBy FixTrimTrailingWhitespace path cfg content = false.
Proof.
  unfold changedBy, ValidateTrimTrailingWhitespace, FixTrimTrailingWhitespace.
  destruct (notEnabled (TrimTrailingWhitespace cfg)); [done|].
  destruct (len content =? 0); [done|].
  rewrite firstTrailingFrom_find, trimLinesFrom_map.
  set (lines := Split content LF).
  destruct (decide (trimRight <$> lines = lines)) as [Hsame|Hdiff].
  - rewrite bool_decide_false by (intros H; by apply H). cbn [negb fst snd].
    apply trim_all_fixed, list_find_None_Forall in Hsame as ->. done.
  - rewrite bool_decide_true by done. cbn [negb fst snd].
    destruct (list_find endsWithWhitespace lines) as [[i l]|] eqn:Hfind;
      [done|].
    exfalso. apply Hdiff, trim_all_fixed, list_find_None_Forall, Hfind.
Qed.

(** When the fixer changes a content, its result is the parts of the
    content between LF, each without its trailing spaces and tabs, joined
    with the terminator that the content is found to use. *)
Lemma trim_fix_result path content cfg :
  changedBy FixTrimTrailingWhitespace path cfg content = true ->
  FixTrimTrailingWhitespace path content cfg
  = (Join (trimRight <$> Split content LF)
       (if Contains content [CR; LF] then [CR; LF]
        else if Contains content [CR] then [CR] else [LF]),
     true, None).
Proof.
  unfold changedBy, FixTrimTrailingWhitespace.
  destruct (notEnabled (TrimTrailingWhitespace cfg)); [done|].
  destruct (len content =? 0); [done|].
  rewrite trimLinesFrom_map.
  destruct (bool_decide (trimRight <$> Split content LF ≠ Split content LF));
    [|done].
  cbn [negb]. intros _. f_equal. f_equal.
  apply rejoinFrom_Join; [|lia].
  destruct (last (trimRight <$> Split content LF)); [apply len_nonneg | done].
Qed.
End TrimAgreement.
Section EndOfLineStyles.
Implicit Types (content target : list byte) (cfg : ResolvedConfig).

(** Replacing a one-element pattern substitutes at each element. *)
Lemma ReplaceAll_single_bind {A} `{EqDecision A} (s : list A) (x : A)
    (new : list A) :
  ReplaceAll s [x] new = s ≫= (fun c => if bool_decide (c = x) then new else [c]).
Proof.
  unfold ReplaceAll. induction s as [|c s IH]; [done|].
  cbn [replaceFrom HasPrefix length Nat.pred]. rewrite HasPrefix_nil, andb_true_r.
  rewrite bind_cons, IH. by destruct (bool_decide (c = x)).
Qed.

Lemma toLF_bind target sk content :
  toLFFrom sk content ≫= (fun c => if bool_decide (c = LF) then target else [c])
  = withEndingFrom target sk content.
Proof.
  revert sk. induction content as [|c rest IH]; intros sk; [done|].
  cbn [toLFFrom withEndingFrom]. destruct sk; [apply IH|].
  destruct (bool_decide (c = CR)) eqn:Hc.
  - rewrite bind_cons, (bool_decide_true (LF = LF)) by done. by rewrite IH.
  - rewrite bind_cons, IH. by destruct (bool_decide (c = LF)).
Qed.

Lemma withEnding_lf sk content :
  withEndingFrom [LF] sk content = toLFFrom sk content.
Proof.
  revert sk. induction content as [|c rest IH]; intros sk; [done|].
  cbn [toLFFrom withEndingFrom]. destruct sk; [apply IH|].
  destruct (bool_decide (c = CR)) eqn:Hc; [by rewrite IH|].
  destruct (bool_decide (c = LF)) eqn:Hlf; rewrite IH; [|done].
  apply bool_decide_eq_true in Hlf. by subst c.
Qed.

Lemma normalizeLineEndings_withEnding content target :
  normalizeLineEndings content target = withEnding target content.
Proof.
  unfold normalizeLineEndings, withEnding. cbv zeta.
  assert (ReplaceAll (ReplaceAll content [CR; LF] [LF]) [CR] [LF]
          = toLFFrom false content) as ->
    by (rewrite ReplaceAll_single; apply (normalize_to_lf_from false)).
  unfold Equal. case_bool_decide as Ht.
  - subst target. by rewrite withEnding_lf.
  - rewrite ReplaceAll_single_bind. apply toLF_bind.
Qed.

Lemma withEnding_cr_no_lf sk content : LF ∉ withEndingFrom [CR] sk content.
Proof.
  revert sk. induction content as [|c rest IH]; intros sk.
  - apply not_elem_of_nil.
  - cbn [withEndingFrom]. destruct sk; [apply IH|].
    destruct (bool_decide (c = CR)); [|destruct (bool_decide (c = LF)) eqn:Hlf].
    + apply not_elem_of_cons. split; [done | apply IH].
    + apply not_elem_of_cons. split; [done | apply IH].
    + apply bool_decide_eq_false in Hlf.
      apply not_elem_of_cons. split; [congruence | apply IH].
Qed.

Lemma head_not_lf (s : list byte) : LF ∉ s -> head s ≠ Some LF.
Proof. destruct s as [|c s]; [done|]. intros Hn [= ->]. apply Hn. by left. Qed.

Lemma withEnding_lineContents target sk content :
  isTerminator target ->
  lineContentsFrom false (withEndingFrom target sk content)
  = lineContentsFrom sk content.
Proof.
  intros Ht. revert sk. induction content as [|c rest IH]; intros sk; [done|].
  cbn [withEndingFrom lineContentsFrom]. destruct sk; [apply IH|].
  assert (forall sk', lineContentsFrom false
            (target ++ withEndingFrom target sk' rest)
          = [] :: lineContentsFrom sk' rest) as Hterm.
  { intros sk'. destruct Ht as [->|[->| ->]]; cbn [app lineContentsFrom head].
    - rewrite (bool_decide_false (LF = CR)) by done.
      rewrite (bool_decide_true (LF = LF)) by done. by rewrite IH.
    - rewrite (bool_decide_true (CR = CR)) by done.
      rewrite (bool_decide_true (Some LF = Some LF)) by done. by rewrite IH.
    - rewrite (bool_decide_true (CR = CR)) by done.
      rewrite bool_decide_false by apply head_not_lf, withEnding_cr_no_lf.
      by rewrite IH. }
  destruct (bool_decide (c = CR)) eqn:Hc; [apply Hterm|].
  destruct (bool_decide (c = LF)) eqn:Hlf; [apply Hterm|].
  cbn [lineContentsFrom]. by rewrite Hc, Hlf, IH.
Qed.

Lemma withEnding_endings target sk n content :
  isTerminator target ->
  Forall (fun e => le_bytes e = target)
    (findLineEndingsFrom false n (withEndingFrom target sk content)).
Proof.
  intros Ht. revert sk n.
  induction content as [|c rest IH]; intros sk n; [constructor|].
  cbn [withEndingFrom]. destruct sk; [apply IH|].
  assert (forall sk', Forall (fun e => le_bytes e = target)
            (findLineEndingsFrom false n
               (target ++ withEndingFrom target sk' rest))) as Hterm.
  { intros sk'. destruct Ht as [->|[->| ->]]; cbn [app findLineEndingsFrom head].
    - rewrite (bool_decide_false (LF = CR)) by done.
      rewrite (bool_decide_true (LF = LF)) by done. constructor; [done | apply IH].
    - rewrite (bool_decide_true (CR = CR)) by done.
      rewrite (bool_decide_true (Some LF = Some LF)) by done.
      constructor; [done | apply IH].
    - rewrite (bool_decide_true (CR = CR)) by done.
      rewrite bool_decide_false by apply head_not_lf, withEnding_cr_no_lf.
      constructor; [done | apply IH]. }
  destruct (bool_decide (c = CR)) eqn:Hc; [apply Hterm|].
  destruct (bool_decide (c = LF)) eqn:Hlf; [apply Hterm|].
  cbn [findLineEndingsFrom]. rewrite Hc, Hlf. apply IH.
Qed.

(** A content whose terminators all are [target] is left as it is. *)
Lemma endings_fixed target sk n content :
  Forall (fun e => le_bytes e = target) (findLineEndingsFrom sk n content) ->
  withEndingFrom target sk content = if sk then tail content else content.
Proof.
  revert sk n. induction content as [|c rest IH]; intros sk n Hall;
    [by destruct sk|].
  cbn [withEndingFrom findLineEndingsFrom tail] in *.
  destruct sk; [apply (IH false n Hall)|].
  destruct (bool_decide (c = CR)) eqn:Hc.
  - apply bool_decide_eq_true in Hc as ->.
    destruct (bool_decide (head rest = Some LF)) eqn:Hn.
    + apply Forall_cons in Hall as [He Hes]. cbn [le_bytes] in He. subst target.
      rewrite (IH true _ Hes). apply bool_decide_eq_true in Hn.
      destruct rest as [|d rest']; [done|]. cbn in Hn. by injection Hn as ->.
    + apply Forall_cons in Hall as [He Hes]. cbn [le_bytes] in He. subst target.
      by rewrite (IH false _ Hes).
  - destruct (bool_decide (c = LF)) eqn:Hlf.
    + apply bool_decide_eq_true in Hlf as ->.
      apply Forall_cons in Hall as [He Hes]. cbn [le_bytes] in He. subst target.
      by rewrite (IH false _ Hes).
    + by rewrite (IH false _ Hall).
Qed.

Lemma find_none_Forall {A} (f : A -> bool) (l : list A) :
  List.find f l = None <-> Forall (fun x => f x = false) l.
Proof.
  induction l as [|x l IH]; [done|]. cbn [List.find].
  rewrite Forall_cons. destruct (f x); [|by rewrite IH; intuition].
  split; [done | by intros [? _]].
Qed.

Lemma endingOfStyle_terminator style target name :
  endingOfStyle style = Some (target, name) -> isTerminator target.
Proof.
  unfold endingOfStyle, isTerminator. repeat case_bool_decide; naive_solver.
Qed.

Lemma end_of_line_agree path content cfg :
  ValidateEndOfLine path content cfg = None
  <-> changedBy FixEndOfLine path cfg content = false.
Proof.
  unfold changedBy, ValidateEndOfLine, FixEndOfLine.
  destruct (bool_decide (EndOfLine cfg = "")); [done|].
  destruct (len content =? 0); [done|].
  destruct (endingOfStyle (EndOfLine cfg)) as [[target name]|] eqn:Hstyle;
    [|done].
  apply endingOfStyle_terminator in Hstyle.
  rewrite normalizeLineEndings_withEnding. cbn [fst snd]. unfold Equal.
  destruct (decide (content = withEnding target content)) as [Heq|Hne].
  - rewrite bool_decide_true by done. cbn [negb].
    assert (List.find
              (fun ending => negb (bool_decide (le_bytes ending = target)))
              (findLineEndings content) = None) as ->; [|done].
    apply find_none_Forall. rewrite Heq.
    eapply Forall_impl; [by apply (withEnding_endings target false 1)|].
    intros e ->. by rewrite bool_decide_true.
  - rewrite bool_decide_false by done. cbn [negb].
    destruct (List.find _ (findLineEndings content)) eqn:Hfind; [done|].
    exfalso. apply Hne. symmetry. apply (endings_fixed target false 1).
    apply find_none_Forall in Hfind.
    eapply Forall_impl; [exact Hfind|]. cbn. intros e He.
    apply negb_false_iff, bool_decide_eq_true in He. done.
Qed.
End EndOfLineStyles.
Section FlaggedAndFixed.
Implicit Types (content : list byte) (cfg : ResolvedConfig).

(** Once a fixer has changed the content, the loop ends with [modified]
    set. *)
Lemma applyFixers_stays_modified fixers path content cfg :
  Forall neverFails fixers ->
  exists fixed, applyFixers fixers path content true cfg = inr (fixed, true).
Proof.
  intros Hall. revert content.
  induction Hall as [|fixer rest Hf _ IH]; intros content.
  - by exists content.
  - cbn [applyFixers]. specialize (Hf path content cfg).
    destruct (fixer path content cfg) as [[newContent changed] err].
    cbn in Hf. subst err. destruct changed; apply IH.
Qed.

Lemma fixer_unchanged (fixer : FixerFunc) path content cfg :
  neverFails fixer ->
  changedBy fixer path cfg content = false ->
  exists newContent, fixer path content cfg = (newContent, false, None).
Proof.
  unfold changedBy. intros Hf Hc. specialize (Hf path content cfg).
  destruct (fixer path content cfg) as [[newContent changed] err].
  cbn in *. subst. by exists newContent.
Qed.

Lemma fixer_changed (fixer : FixerFunc) path content cfg :
  neverFails fixer ->
  changedBy fixer path cfg content = true ->
  exists newContent, fixer path content cfg = (newContent, true, None).
Proof.
  unfold changedBy. intros Hf Hc. specialize (Hf path content cfg).
  destruct (fixer path content cfg) as [[newContent changed] err].
  cbn in *. subst. by exists newContent.
Qed.

Lemma applyFixers_step (fixer : FixerFunc) rest path content modified cfg
    newContent changed :
  fixer path content cfg = (newContent, changed, None) ->
  applyFixers (fixer :: rest) path content modified cfg
  = if changed then applyFixers rest path newContent true cfg
    else applyFixers rest path content modified cfg.
Proof. intros Hfix. cbn [applyFixers]. by rewrite Hfix. Qed.

(** The pipeline on a content, by what the validators report on it. *)
Lemma fixContent_by_validators path content cfg :
  match applyValidators GetAllValidators path content cfg with
  | [] => fixContent path content cfg = inr (content, false)
  | _ :: _ => exists fixed, fixContent path content cfg = inr (fixed, true)
  end.
Proof.
  unfold applyValidators, fixContent, GetAllValidators, GetAllFixers.
  pose proof (final_newline_agree path content cfg) as H1.
  pose proof (trim_agree path content cfg) as H2.
  pose proof (end_of_line_agree path content cfg) as H3.
  pose proof GetAllFixers_neverFail as Hall. unfold GetAllFixers in Hall.
  apply Forall_cons in Hall as [Hf1 Hall].
  pose proof Hall as Hall2. apply Forall_cons in Hall2 as [Hf2 Hall3].
  pose proof Hall3 as Hall4. apply Forall_cons in Hall4 as [Hf3 _].
  cbn [omap list_omap].
  destruct (changedBy FixInsertFinalNewline path cfg content) eqn:Hc1.
  { destruct (ValidateInsertFinalNewline path content cfg);
      [|by destruct H1 as [H1 _]; specialize (H1 eq_refl)].
    destruct (fixer_changed _ _ _ _ Hf1 Hc1) as [c1 Hfix].
    rewrite (applyFixers_step _ _ _ _ _ _ _ _ Hfix).
    apply applyFixers_stays_modified, Hall. }
  destruct H1 as [_ H1]. rewrite (H1 eq_refl).
  destruct (fixer_unchanged _ _ _ _ Hf1 Hc1) as [c1 Hfix1].
  rewrite (applyFixers_step _ _ _ _ _ _ _ _ Hfix1).
  destruct (changedBy FixTrimTrailingWhitespace path cfg content) eqn:Hc2.
  { destruct (ValidateTrimTrailingWhitespace path content cfg);
      [|by destruct H2 as [H2 _]; specialize (H2 eq_refl)].
    destruct (fixer_changed _ _ _ _ Hf2 Hc2) as [c2 Hfix].
    rewrite (applyFixers_step _ _ _ _ _ _ _ _ Hfix).
    apply applyFixers_stays_modified, Hall3. }
  destruct H2 as [_ H2]. rewrite (H2 eq_refl).
  destruct (fixer_unchanged _ _ _ _ Hf2 Hc2) as [c2 Hfix2].
  rewrite (applyFixers_step _ _ _ _ _ _ _ _ Hfix2).
  destruct (changedBy FixEndOfLine path cfg content) eqn:Hc3.
  { destruct (ValidateEndOfLine path content cfg);
      [|by destruct H3 as [H3 _]; specialize (H3 eq_refl)].
    destruct (fixer_changed _ _ _ _ Hf3 Hc3) as [c3 Hfix].
    rewrite (applyFixers_step _ _ _ _ _ _ _ _ Hfix). by exists c3. }
  destruct H3 as [_ H3]. rewrite (H3 eq_refl).
  destruct (fixer_unchanged _ _ _ _ Hf3 Hc3) as [c3 Hfix3].
  by rewrite (applyFixers_step _ _ _ _ _ _ _ _ Hfix3).
Qed.
End FlaggedAndFixed.
Section FinalNewlineResult.
Implicit Types (body content : list byte) (cfg : ResolvedConfig).

Lemma actualEnding_two body (c l : byte) :
  actualEndingOf (body ++ [c; l]) l
  = if bool_decide (c = CR) && bool_decide (l = LF) then EndCRLF
    else if bool_decide (l = CR) then EndCR
    else if bool_decide (l = LF) then EndLF
    else EndOther l.
Proof.
  unfold actualEndingOf.
  rewrite length_app. simpl length.
  replace (length body + 2 - 2)%nat with (length body + 0)%nat by lia.
  rewrite lookup_app_r by lia.
  replace (length body + 0 - length body)%nat with 0%nat by lia.
  cbn [lookup list_lookup].
  replace (2 <=? Z.of_nat (length body + 2)) with true
    by (symmetry; apply Z.leb_le; lia).
  cbn [andb].
  replace (bool_decide (Some c = Some CR)) with (bool_decide (c = CR))
    by (apply bool_decide_ext; naive_solver).
  done.
Qed.

Lemma actualEnding_one (l : byte) :
  actualEndingOf [l] l
  = if bool_decide (l = CR) then EndCR
    else if bool_decide (l = LF) then EndLF
    else EndOther l.
Proof. reflexivity. Qed.

Lemma expected_bytes cfg :
  (let expectedEnding :=
     if bool_decide (EndOfLine cfg = "") then "lf" else EndOfLine cfg in
   if bool_decide (expectedEnding = "crlf") then [CR; LF]
   else if bool_decide (expectedEnding = "cr") then [CR] else [LF])
  = expectedFinal cfg.
Proof.
  unfold expectedFinal. cbv zeta.
  destruct (decide (EndOfLine cfg = "")) as [He|He].
  - rewrite He. done.
  - by rewrite (bool_decide_false (EndOfLine cfg = "")).
Qed.

Lemma final_newline_output path content cfg :
  InsertFinalNewline cfg = Some true ->
  fixerOutput FixInsertFinalNewline path cfg content
  = withoutFinalTerminator content ++ expectedFinal cfg.
Proof.
  intros Hon. unfold fixerOutput, FixInsertFinalNewline, lastElem.
  rewrite Hon. cbn [notEnabled negb]. cbv zeta.
  pose proof (expected_bytes cfg) as Hexp. cbv zeta in Hexp. rewrite Hexp.
  clear Hexp.
  set (expected := if bool_decide (EndOfLine cfg = "") then "lf"
                   else EndOfLine cfg).
  assert (expected = "crlf" -> expectedFinal cfg = [CR; LF]) as Hcrlf.
  { unfold expected, expectedFinal. intros He.
    case_bool_decide as H0; [done|]. by rewrite bool_decide_true. }
  assert (expected = "cr" -> expectedFinal cfg = [CR]) as Hcr.
  { unfold expected, expectedFinal. intros He.
    case_bool_decide as H0; [done|]. rewrite He.
    by rewrite bool_decide_false, bool_decide_true. }
  assert (expected = "lf" -> expectedFinal cfg = [LF]) as Hlf.
  { unfold expected, expectedFinal. intros He.
    case_bool_decide as H0; [by rewrite H0|]. rewrite He.
    by rewrite !bool_decide_false. }
  unfold withoutFinalTerminator.
  destruct (reverse content) as [|l [|c r]] eqn:Hrev.
  - assert (content = []) as ->
      by (by rewrite <- (reverse_involutive content), Hrev).
    done.
  - assert (content = [l]) as ->
      by (by rewrite <- (reverse_involutive content), Hrev).
    cbn [last]. rewrite actualEnding_one.
    destruct (decide (l = CR)) as [->|H1].
    + rewrite (bool_decide_true (CR = CR)) by done. cbn [orb].
      destruct (decide (expected = "cr")) as [He|He].
      * rewrite (bool_decide_true (expected = "cr")) by done.
        by rewrite (Hcr He).
      * by rewrite (bool_decide_false (expected = "cr")) by done.
    + rewrite (bool_decide_false (l = CR)) by done. cbn [orb].
      destruct (decide (l = LF)) as [->|H2].
      * rewrite (bool_decide_true (LF = LF)) by done.
        destruct (decide (expected = "lf")) as [He|He].
        -- rewrite (bool_decide_true (expected = "lf")) by done.
           by rewrite (Hlf He).
        -- by rewrite (bool_decide_false (expected = "lf")) by done.
      * by rewrite (bool_decide_false (l = LF)) by done.
  - assert (content = reverse r ++ [c; l]) as ->.
    { rewrite <- (reverse_involutive content), Hrev.
      by rewrite !reverse_cons, <- app_assoc. }
    clear Hrev. rewrite reverse_cons.
    replace (last (reverse r ++ [c; l])) with (Some l)
      by (replace (reverse r ++ [c; l]) with ((reverse r ++ [c]) ++ [l])
            by (by rewrite <- app_assoc); by rewrite last_snoc).
    rewrite actualEnding_two.
    destruct (bool_decide (c = CR) && bool_decide (l = LF)) eqn:H0.
    + apply andb_true_iff in H0 as [H1 H2].
      apply bool_decide_eq_true in H1 as ->.
      apply bool_decide_eq_true in H2 as ->.
      destruct (decide (expected = "crlf")) as [He|He].
      * rewrite (bool_decide_true (expected = "crlf")) by done.
        by rewrite (Hcrlf He).
      * rewrite (bool_decide_false (expected = "crlf")) by done. cbn [negb].
        by rewrite (take_drop_suffix (reverse r) [CR; LF] 2 eq_refl).
    + clear H0. destruct (decide (l = CR)) as [->|H1].
      * rewrite (bool_decide_true (CR = CR)) by done. cbn [orb].
        replace (reverse r ++ [c; CR]) with ((reverse r ++ [c]) ++ [CR])
          by (by rewrite <- app_assoc).
        destruct (decide (expected = "cr")) as [He|He].
        -- rewrite (bool_decide_true (expected = "cr")) by done.
           by rewrite (Hcr He).
        -- rewrite (bool_decide_false (expected = "cr")) by done. cbn [negb].
           by rewrite (take_drop_suffix (reverse r ++ [c]) [CR] 1 eq_refl).
      * rewrite (bool_decide_false (l = CR)) by done. cbn [orb].
        destruct (decide (l = LF)) as [->|H2].
        -- rewrite (bool_decide_true (LF = LF)) by done.
           replace (reverse r ++ [c; LF]) with ((reverse r ++ [c]) ++ [LF])
             by (by rewrite <- app_assoc).
           destruct (decide (expected = "lf")) as [He|He].
           ++ rewrite (bool_decide_true (expected = "lf")) by done.
              by rewrite (Hlf He).
           ++ rewrite (bool_decide_false (expected = "lf")) by done.
              cbn [negb].
              by rewrite (take_drop_suffix (reverse r ++ [c]) [LF] 1 eq_refl).
        -- by rewrite (bool_decide_false (l = LF)) by done.
Qed.
End FinalNewlineResult.
Section FinalNewlineValidates.
Implicit Types (body content : list byte) (cfg : ResolvedConfig).

Lemma knownStyle_cases cfg :
  knownStyle cfg ->
  lfStyle cfg \/ EndOfLine cfg = "crlf" \/ EndOfLine cfg = "cr".
Proof.
  unfold knownStyle, lfStyle. rewrite !elem_of_cons, elem_of_nil. tauto.
Qed.

Lemma final_newline_validates body path cfg :
  InsertFinalNewline cfg = Some true -> knownStyle cfg ->
  ValidateInsertFinalNewline path (body ++ expectedFinal cfg) cfg = None
  <-> ~ (lfStyle cfg /\ last body = Some CR).
Proof.
  intros Hon Hknown. unfold ValidateInsertFinalNewline, lastElem.
  rewrite Hon. cbn [notEnabled negb].
  destruct (knownStyle_cases cfg Hknown) as [Hlf|[Hcrlf|Hcr]].
  - assert (expectedFinal cfg = [LF]) as ->
      by (unfold expectedFinal; destruct Hlf as [-> | ->]; done).
    assert ((if bool_decide (EndOfLine cfg = "") then "lf" else EndOfLine cfg)
            = "lf") as ->
      by (destruct Hlf as [-> | ->]; done).
    rewrite last_snoc.
    destruct (decide (last body = Some CR)) as [Hlast|Hlast].
    + apply last_Some in Hlast as [body' ->]. rewrite <- app_assoc. cbn [app].
      rewrite actualEnding_crlf. cbn [endingName].
      rewrite (bool_decide_false ("crlf" = "lf")) by done. cbn [negb].
      split; [done|]. intros Hnot. exfalso. apply Hnot. split; [done|].
      by rewrite last_snoc.
    + rewrite actualEnding_lf by done. cbn [endingName].
      rewrite (bool_decide_true ("lf" = "lf")) by done. cbn [negb].
      split; [|done]. by intros _ [_ ?].
  - unfold expectedFinal. rewrite Hcrlf.
    rewrite (bool_decide_true ("crlf" = "crlf")) by done.
    rewrite (bool_decide_false ("crlf" = "")) by done.
    replace (last (body ++ [CR; LF])) with (Some LF)
      by (replace (body ++ [CR; LF]) with ((body ++ [CR]) ++ [LF])
            by (by rewrite <- app_assoc); by rewrite last_snoc).
    rewrite actualEnding_crlf. cbn [endingName].
    rewrite (bool_decide_true ("crlf" = "crlf")) by done. cbn [negb].
    split; [|done]. intros _ [[H|H] _]; by rewrite Hcrlf in H.
  - unfold expectedFinal. rewrite Hcr.
    rewrite (bool_decide_false ("cr" = "crlf")) by done.
    rewrite (bool_decide_true ("cr" = "cr")) by done.
    rewrite (bool_decide_false ("cr" = "")) by done.
    rewrite last_snoc, actualEnding_cr. cbn [endingName].
    rewrite (bool_decide_true ("cr" = "cr")) by done. cbn [negb].
    split; [|done]. intros _ [[H|H] _]; by rewrite Hcr in H.
Qed.
End FinalNewlineValidates.
(* ------------------------------------------------------------------ *)
(** ** Validators and fixers of one rule *)
(* ------------------------------------------------------------------ *)

(** X1. For each of the three rules, on every content and configuration,
    the validator reports nothing exactly when the fixer reports no
    change: what validation flags is what the fix mode rewrites. *)
Theorem validators_agree_with_fixers (path : string) (content : list byte)
    (cfg : ResolvedConfig) :
  (ValidateInsertFinalNewline path content cfg = None
   <-> changedBy FixInsertFinalNewline path cfg content = false)
  /\ (ValidateTrimTrailingWhitespace path content cfg = None
      <-> changedBy FixTrimTrailingWhitespace path cfg content = false)
  /\ (ValidateEndOfLine path content cfg = None
      <-> changedBy FixEndOfLine path cfg content = false).
Proof.
  split; [apply final_newline_agree|].
  split; [apply trim_agree | apply end_of_line_agree].
Qed.

(** X2. The loop over the fixers and the loop over the validators agree on
    a content: when no validator reports a violation the pipeline returns
    the content itself with [modified] unset, and when some validator does
    the pipeline returns with [modified] set. *)
Theorem fix_modifies_exactly_flagged_content (path : string)
    (content : list byte) (cfg : ResolvedConfig) :
  (applyValidators GetAllValidators path content cfg = []
   <-> fixContent path content cfg = inr (content, false))
  /\ (applyValidators GetAllValidators path content cfg <> []
      <-> exists fixed, fixContent path content cfg = inr (fixed, true)).
Proof.
  pose proof (fixContent_by_validators path content cfg) as H.
  destruct (applyValidators GetAllValidators path content cfg) as [|v vs].
  - rewrite H. split; [done|]. split; [done|]. by intros [fixed ?].
  - destruct H as [fixed ->]. split; [done|]. split; [|done].
    intros _. by exists fixed.
Qed.

(** X3. The end-of-line fixer for each of the three styles: for [lf],
    [crlf] and [cr] alike the result has the lines of the content, every
    terminator of the result is the one of the style, the flag tells
    whether the result differs from the content, the validator accepts
    the result and a second application changes nothing. *)
Theorem end_of_line_fix_all_styles (path : string) (content : list byte)
    (cfg : ResolvedConfig) (target : list byte) (name : string) :
  endingOfStyle (EndOfLine cfg) = Some (target, name) ->
  exists result changed,
    FixEndOfLine path content cfg = (result, changed, None)
    /\ lineContents result = lineContents content
    /\ Forall (fun e => le_bytes e = target) (findLineEndings result)
    /\ (changed = true <-> result <> content)
    /\ ValidateEndOfLine path result cfg = None
    /\ FixEndOfLine path result cfg = (result, false, None).
Proof.
  intros Hstyle.
  pose proof (endingOfStyle_terminator _ _ _ Hstyle) as Hterm.
  assert (EndOfLine cfg <> "") as Hset by (by intros He; rewrite He in Hstyle).
  assert (forall c, FixEndOfLine path c cfg
            = (withEnding target c, negb (Equal c (withEnding target c)), None))
    as Hfix.
  { intros c. unfold FixEndOfLine. rewrite bool_decide_false by done.
    rewrite len_zero. destruct c as [|b c']; [done|].
    rewrite bool_decide_false by done. rewrite Hstyle.
    by rewrite normalizeLineEndings_withEnding. }
  assert (withEnding target (withEnding target content)
          = withEnding target content) as Hidem.
  { apply (endings_fixed target false 1).
    apply (withEnding_endings target false 1 content Hterm). }
  exists (withEnding target content), (negb (Equal content (withEnding target content))).
  split; [apply Hfix|].
  split; [by apply (withEnding_lineContents target false)|].
  split; [by apply (withEnding_endings target false 1)|].
  split.
  { unfold Equal. case_bool_decide as Heq; cbn [negb].
    - split; [done|]. intros Hne. by rewrite <- Heq in Hne.
    - split; [|done]. intros _ Hne. by apply Heq. }
  assert (FixEndOfLine path (withEnding target content) cfg
          = (withEnding target content, false, None)) as Hagain.
  { rewrite Hfix, Hidem. unfold Equal. by rewrite bool_decide_true. }
  split; [|done].
  apply end_of_line_agree. unfold changedBy. by rewrite Hagain.
Qed.

Lemma end_of_line_fix_all_styles_witness :
  exists result changed,
    FixEndOfLine "f" mixedEndings (testCfg "crlf" None None)
    = (result, changed, None)
    /\ lineContents result = lineContents mixedEndings
    /\ Forall (fun e => le_bytes e = [CR; LF]) (findLineEndings result)
    /\ (changed = true <-> result <> mixedEndings)
    /\ ValidateEndOfLine "f" result (testCfg "crlf" None None) = None
    /\ FixEndOfLine "f" result (testCfg "crlf" None None)
       = (result, false, None).
Proof.
  exact (end_of_line_fix_all_styles "f" mixedEndings (testCfg "crlf" None None)
           [CR; LF] "CRLF (\r\n)" eq_refl).
Defined.

(** X4. The trailing-whitespace rule works on the parts of the content
    between LF, whatever the terminators the content uses: the validator
    reports the first part whose last byte is a space or a tab, and the
    fixer, when there is such a part, returns all parts without their
    trailing spaces and tabs, joined with CRLF when the content holds a
    CRLF, else with CR when it holds a CR, else with LF. *)
Theorem trim_rule_on_parts (path : string) (content : list byte)
    (cfg : ResolvedConfig) :
  TrimTrailingWhitespace cfg = Some true ->
  let parts := Split content LF in
  ValidateTrimTrailingWhitespace path content cfg
  = (fun found => trailingViolation path found.1)
      <$> list_find endsWithWhitespace parts
  /\ FixTrimTrailingWhitespace path content cfg
     = if bool_decide (Forall (fun l => ~ endsWithWhitespace l) parts)
       then (content, false, None)
       else (Join (trimRight <$> parts) (detectedEnding content), true, None).
Proof.
  intros Hon parts. split.
  - unfold ValidateTrimTrailingWhitespace. rewrite Hon. cbn [notEnabled negb].
    rewrite len_zero. case_bool_decide as He.
    + subst content. done.
    + rewrite firstTrailingFrom_find. fold parts.
      destruct (list_find endsWithWhitespace parts) as [[i l]|]; [|done].
      cbn. unfold trailingViolation. repeat f_equal; lia.
  - destruct (changedBy FixTrimTrailingWhitespace path cfg content) eqn:Hc.
    + rewrite (trim_fix_result _ _ _ Hc). fold parts.
      rewrite bool_decide_false; [done|].
      intros Hall. apply trim_all_fixed in Hall.
      unfold changedBy, FixTrimTrailingWhitespace in Hc.
      rewrite Hon in Hc. cbn [notEnabled negb] in Hc.
      destruct (len content =? 0); [done|].
      rewrite trimLinesFrom_map in Hc. fold parts in Hc.
      rewrite bool_decide_false in Hc by (intros H; by apply H). done.
    + pose proof (proj2 (trim_agree path content cfg) Hc) as Hv.
      unfold ValidateTrimTrailingWhitespace in Hv. rewrite Hon in Hv.
      cbn [notEnabled negb] in Hv.
      unfold changedBy, FixTrimTrailingWhitespace in *.
      rewrite Hon in *. cbn [notEnabled negb] in *.
      rewrite len_zero in *. case_bool_decide as He.
      * subst content. done.
      * rewrite trimLinesFrom_map in *. fold parts in Hc |- *.
        destruct (bool_decide (trimRight <$> parts <> parts)) eqn:Hd; [done|].
        apply bool_decide_eq_false in Hd.
        rewrite bool_decide_true; [done|].
        apply trim_all_fixed. by destruct (decide (trimRight <$> parts = parts)).
Qed.

Lemma trim_rule_on_parts_witness :
  FixTrimTrailingWhitespace "f" crlfThenTrailing trimCfg
  = (bytes "a" ++ [CR; CR; LF] ++ bytes "b", true, None).
Proof.
  exact (proj2 (trim_rule_on_parts "f" crlfThenTrailing trimCfg eq_refl)).
Defined.

(** X5. With [insert_final_newline = true] the fixer leaves the content
    without the terminator it ends with (CRLF, or else one CR or LF),
    followed by the terminator of the style. The validator accepts this
    result, and a second application changes nothing, unless the style is
    [lf] or unset and what is left of the content ends with CR: that CR and
    the LF just written read as CRLF. *)
Theorem final_newline_fix_result (path : string) (content : list byte)
    (cfg : ResolvedConfig) :
  InsertFinalNewline cfg = Some true ->
  knownStyle cfg ->
  let body := withoutFinalTerminator content in
  let fixed := fixerOutput FixInsertFinalNewline path cfg content in
  fixed = body ++ expectedFinal cfg
  /\ (ValidateInsertFinalNewline path fixed cfg = None
      <-> ~ (lfStyle cfg /\ last body = Some CR))
  /\ (FixInsertFinalNewline path fixed cfg = (fixed, false, None)
      <-> ~ (lfStyle cfg /\ last body = Some CR)).
Proof.
  intros Hon Hknown body fixed.
  assert (fixed = body ++ expectedFinal cfg) as Hfixed
    by (by apply final_newline_output).
  pose proof (final_newline_validates body path cfg Hon Hknown) as Hval.
  rewrite <- Hfixed in Hval.
  split; [done|]. split; [done|]. rewrite <- Hval.
  rewrite (final_newline_agree path fixed cfg). unfold changedBy.
  split; [by intros ->|].
  intros Hc. pose proof (FixInsertFinalNewline_neverFails path fixed cfg) as Hn.
  unfold FixInsertFinalNewline in *.
  rewrite Hon in *. cbn [notEnabled negb] in *.
  repeat case_match; simplify_eq/=; done.
Qed.

Lemma final_newline_fix_result_witness :
  fixerOutput FixInsertFinalNewline "f" (testCfg "lf" None (Some true))
    crBeforeCrlf
  = bytes "a" ++ [CR] ++ [LF].
Proof.
  refine (proj1 (final_newline_fix_result "f" crBeforeCrlf
                   (testCfg "lf" None (Some true)) eq_refl _)).
  apply (bool_decide_unpack _). vm_compute. exact I.
Defined.

(* ------------------------------------------------------------------ *)
(** ** Reading the configuration: the test of the parser, on the model *)
(* ------------------------------------------------------------------ *)

Example TestParseEditorConfig :
  let fs : ConfigFiles :=
    {[ ["tmp"; ".editorconfig"] := Readable testConfigContent ]} in
  match ParseEditorConfig fs ["tmp"; ".editorconfig"] with
  | inr editorConfig =>
      Root editorConfig = true
      /\ Pattern <$> Sections editorConfig = ["*"; "*.go"; "*.{js,ts}"]
      /\ (Sections editorConfig !! 0%nat)
           ≫= (fun s => Properties s !! "charset") = Some "utf-8"
      /\ (Sections editorConfig !! 0%nat)
           ≫= (fun s => Properties s !! "insert_final_newline") = Some "true"
  | inl _ => False
  end.
Proof. vm_compute. repeat split. Qed.

Section ParseFacts.
Implicit Types (text line : list ascii) (lines : list (list ascii))
  (st : ParseConfigState) (sections : list ConfigSection).

Lemma chars_string_of (l : list ascii) : chars (string_of_list_ascii l) = l.
Proof. apply list_ascii_of_string_of_list_ascii. Qed.

Lemma string_of_inj (l1 l2 : list ascii) :
  string_of_list_ascii l1 = string_of_list_ascii l2 -> l1 = l2.
Proof.
  intros H. by rewrite <- (chars_string_of l1), <- (chars_string_of l2), H.
Qed.

(** The body of the loop, by the role of the line. *)
Lemma parseLine_cases st text :
  parseLine st text
  = match headerPattern text with
    | Some pattern =>
        mkParseConfig (pRoot st) (pSections st ++ [mkSection pattern ∅]) false
    | None =>
        match assignment text with
        | Some (key, value) =>
            if inHeaderSection st && bool_decide (key = "root")
            then mkParseConfig (rootValue value) (pSections st)
                   (inHeaderSection st)
            else mkParseConfig (pRoot st)
                   (setInCurrentSection key value (pSections st))
                   (inHeaderSection st)
        | None => st
        end
    end.
Proof.
  unfold parseLine, assignment, headerPattern, isCommentLine. cbv zeta.
  set (line := TrimSpace text).
  destruct (bool_decide (line = []) || HasPrefix line ["#"%char]
            || HasPrefix line [";"%char]); [done|].
  cbn [negb andb].
  destruct (HasPrefix line ["["%char] && HasSuffix line ["]"%char]); [done|].
  destruct (Contains line ["="%char]); [|done].
  destruct (cutAt "="%char line) as [before after].
  unfold rootValue. rewrite chars_string_of.
  replace (bool_decide (string_of_list_ascii (TrimSpace before) = "root"))
    with (bool_decide (TrimSpace before = chars "root")); [done|].
  apply bool_decide_ext. split; [by intros -> | apply (string_of_inj _ (chars "root"))].
Qed.
End ParseFacts.
Section ParseSections.
Implicit Types (text : list ascii) (lines : list (list ascii))
  (st : ParseConfigState) (sections pre : list ConfigSection).

Lemma setInCurrentSection_nil key value : setInCurrentSection key value [] = [].
Proof. reflexivity. Qed.

Lemma setInCurrentSection_snoc key value sections current :
  setInCurrentSection key value (sections ++ [current])
  = sections
    ++ [mkSection (Pattern current) (<[key := value]> (Properties current))].
Proof.
  unfold setInCurrentSection. rewrite reverse_snoc. by rewrite reverse_involutive.
Qed.

Lemma setInCurrentSection_one key value current :
  setInCurrentSection key value [current]
  = [mkSection (Pattern current) (<[key := value]> (Properties current))].
Proof. reflexivity. Qed.

Lemma setInCurrentSection_frame key value pre sections :
  sections <> [] ->
  setInCurrentSection key value (pre ++ sections)
  = pre ++ setInCurrentSection key value sections
  /\ setInCurrentSection key value sections <> [].
Proof.
  intros Hne. destruct sections as [|s ss _] using rev_ind; [done|].
  rewrite app_assoc, !setInCurrentSection_snoc, <- app_assoc.
  split; [done|]. by intros [_ ?]%app_eq_nil.
Qed.

(** After the first header the flag [root] is not written any more. *)
Lemma parse_past_header st lines :
  inHeaderSection st = false ->
  pRoot (foldl parseLine st lines) = pRoot st
  /\ inHeaderSection (foldl parseLine st lines) = false.
Proof.
  revert st. induction lines as [|text rest IH]; intros st Hin; [done|].
  cbn [foldl]. rewrite parseLine_cases.
  destruct (headerPattern text) as [pattern|].
  - apply (IH (mkParseConfig _ _ _)). done.
  - destruct (assignment text) as [[key value]|]; [|by apply IH].
    rewrite Hin. cbn [andb]. apply (IH (mkParseConfig _ _ _)). done.
Qed.

(** The sections that are complete are not touched any more. *)
Lemma parse_frame st1 st2 pre lines :
  inHeaderSection st1 = false -> inHeaderSection st2 = false ->
  pSections st2 <> [] ->
  pSections st1 = pre ++ pSections st2 ->
  pSections (foldl parseLine st1 lines)
  = pre ++ pSections (foldl parseLine st2 lines).
Proof.
  revert st1 st2. induction lines as [|text rest IH];
    intros st1 st2 Hin1 Hin2 Hne Hsec; [done|].
  cbn [foldl]. rewrite !parseLine_cases.
  destruct (headerPattern text) as [pattern|].
  - apply IH; cbn [inHeaderSection pSections]; [done | done | |].
    + by intros [_ ?]%app_eq_nil.
    + by rewrite Hsec, <- app_assoc.
  - destruct (assignment text) as [[key value]|]; [|by apply IH].
    rewrite Hin1, Hin2. cbn [andb].
    destruct (setInCurrentSection_frame key value pre (pSections st2) Hne)
      as [Hframe Hne'].
    apply IH; cbn [inHeaderSection pSections]; [done | done | done |].
    by rewrite Hsec.
Qed.

Lemma parse_block root pattern (m : gmap string string) lines :
  noHeader lines ->
  foldl parseLine (mkParseConfig root [mkSection pattern m] false) lines
  = mkParseConfig root
      [mkSection pattern
         (foldl (fun m kv => <[kv.1 := kv.2]> m) m (omap assignment lines))]
      false.
Proof.
  intros Hno. revert m. induction Hno as [|text rest Htext _ IH]; intros m;
    [done|].
  cbn [foldl omap list_omap]. rewrite parseLine_cases, Htext.
  destruct (assignment text) as [[key value]|]; [|apply IH].
  cbn [andb inHeaderSection pRoot pSections foldl].
  rewrite setInCurrentSection_one. cbn [Pattern Properties].
  apply IH.
Qed.

Lemma last_default {A} (x y : A) (l : list A) :
  default x (last (y :: l)) = default y (last l).
Proof.
  destruct l as [|z l]; [done|]. rewrite last_cons_cons.
  destruct (last (z :: l)) eqn:Hl; [done|]. by apply last_None in Hl.
Qed.

Lemma parse_before_header root lines :
  noHeader lines ->
  foldl parseLine (mkParseConfig root [] true) lines
  = mkParseConfig (default root (last (rootAssignments lines))) [] true.
Proof.
  intros Hno. revert root. induction Hno as [|text rest Htext _ IH];
    intros root; [done|].
  cbn [foldl]. rewrite parseLine_cases, Htext.
  unfold rootAssignments. cbn [omap list_omap].
  destruct (assignment text) as [[key value]|]; [|apply IH].
  cbn [andb inHeaderSection pRoot pSections].
  destruct (bool_decide (key = "root")).
  - rewrite IH. fold (rootAssignments rest). by rewrite last_default.
  - apply IH.
Qed.
End ParseSections.
Section Discovery.
Implicit Types (fs : ConfigFiles) (dir revDir d : Path)
  (configs acc found : list EditorConfig).

Lemma ancestors_snoc dir segment :
  ancestors (dir ++ [segment]) = ancestors dir ++ [dir ++ [segment]].
Proof.
  induction dir as [|s rest IH]; [done|].
  cbn [app ancestors]. rewrite IH, fmap_app. done.
Qed.

Lemma ancestors_prefix dir d : d ∈ ancestors dir <-> d `prefix_of` dir.
Proof.
  revert d. induction dir as [|s rest IH]; intros d; cbn [ancestors].
  - rewrite list_elem_of_singleton. split; [by intros -> | apply prefix_nil_inv].
  - rewrite elem_of_cons, list_elem_of_fmap. split.
    + intros [->|(d' & -> & Hd')]; [apply prefix_nil|].
      apply prefix_cons, IH, Hd'.
    + destruct d as [|x d']; [by left|]. intros Hp. right.
      pose proof (prefix_cons_inv_1 _ _ _ _ Hp) as ->.
      exists d'. split; [done|]. apply IH. by apply prefix_cons_inv_2 in Hp.
Qed.

Lemma ancestors_self dir : dir ∈ ancestors dir.
Proof. by apply ancestors_prefix. Qed.

Lemma Dir_configPathIn dir : Dir (configPathIn dir) = dir.
Proof.
  unfold Dir, configPathIn. rewrite length_app. cbn [length].
  replace (length dir + 1 - 1)%nat with (length dir) by lia.
  by rewrite take_app_length.
Qed.

Lemma ParseEditorConfig_path fs path config :
  ParseEditorConfig fs path = inr config -> ConfigFilePath config = path.
Proof.
  unfold ParseEditorConfig. destruct (fs !! path) as [[err|content]|]; [done| |done].
  destruct (scanLines content); [|done]. by intros [= <-].
Qed.

Lemma ParseEditorConfig_dir fs dir config :
  ParseEditorConfig fs (configPathIn dir) = inr config -> configDir config = dir.
Proof.
  intros H%ParseEditorConfig_path. unfold configDir.
  by rewrite H, Dir_configPathIn.
Qed.

Lemma singleton_sublist {A} (x : A) (l : list A) : x ∈ l -> [x] `sublist_of` l.
Proof.
  intros (l1 & l2 & ->)%list_elem_of_split.
  apply sublist_inserts_l. apply sublist_skip, sublist_nil_l.
Qed.

(** What the loop of the discovery finds from [dir] upwards, given what
    it has found below ([acc]). *)
Lemma climbFrom_spec fs revDir acc configs :
  climbFrom fs revDir acc = inr configs ->
  exists found,
    configs = found ++ acc
    /\ Forall (fun c => ParseEditorConfig fs (configPathIn (configDir c)) = inr c)
         found
    /\ configDir <$> found `sublist_of` ancestors (reverse revDir)
    /\ Forall (fun c => Root c = false) (tail found)
    /\ (forall d, d ∈ ancestors (reverse revDir) -> hasConfig fs d ->
          d ∈ configDir <$> found
          \/ exists c, head found = Some c /\ Root c = true
               /\ strictlyAbove d (configDir c)).
Proof.
  revert acc configs. induction revDir as [|segment parent IH];
    intros acc configs; cbn [climbFrom].
  - change (reverse (@nil string)) with (@nil string).
    fold (configPathIn []).
    destruct (fs !! configPathIn []) as [file|] eqn:Hfile.
    + destruct (ParseEditorConfig fs (configPathIn []))
        as [err|config] eqn:Hparse; [done|].
      pose proof (ParseEditorConfig_dir _ _ _ Hparse) as Hdir.
      intros Hres. assert (configs = [config] ++ acc) as ->
        by (destruct (Root config); by injection Hres as <-).
      exists [config]. split; [done|].
      split; [constructor; [by rewrite Hdir | done]|].
      split; [cbn; rewrite Hdir; done|].
      split; [done|].
      intros d Hd _. left. cbn in Hd. apply list_elem_of_singleton in Hd as ->.
      cbn. rewrite Hdir. by left.
    + intros [= <-]. exists []. split; [done|]. split; [constructor|].
      split; [apply sublist_nil_l|]. split; [constructor|].
      intros d Hd [f Hf]. cbn in Hd. apply list_elem_of_singleton in Hd as ->.
      by rewrite Hfile in Hf.
  - set (dir := reverse (segment :: parent)).
    fold (configPathIn dir).
    assert (ancestors dir = ancestors (reverse parent) ++ [dir]) as Hanc
      by (unfold dir; by rewrite reverse_cons, ancestors_snoc).
    destruct (fs !! configPathIn dir) as [file|] eqn:Hfile.
    + destruct (ParseEditorConfig fs (configPathIn dir))
        as [err|config] eqn:Hparse; [done|].
      pose proof (ParseEditorConfig_dir _ _ _ Hparse) as Hdir.
      destruct (Root config) eqn:Hroot.
      * intros [= <-]. exists [config]. split; [done|].
        split; [constructor; [by rewrite Hdir | done]|].
        split; [cbn; rewrite Hdir; apply singleton_sublist, ancestors_self|].
        split; [done|].
        intros d Hd _. destruct (decide (d = dir)) as [->|Hne].
        -- left. cbn. rewrite Hdir. by left.
        -- right. exists config. split; [done|]. split; [done|].
           rewrite Hdir. split; [by apply ancestors_prefix | done].
      * intros Hres. destruct (IH _ _ Hres)
          as (found & -> & Hparsed & Hsub & Hnonroot & Hcomplete).
        exists (found ++ [config]). split; [by rewrite <- app_assoc|].
        split; [apply Forall_app; split; [done|];
                constructor; [by rewrite Hdir | done]|].
        split; [rewrite fmap_app, Hanc; cbn; rewrite Hdir;
                by apply sublist_app|].
        split.
        { destruct found as [|c found']; [done|]. cbn [app tail] in *.
          apply Forall_app. split; [done|]. by constructor. }
        intros d Hd Hcfg. rewrite Hanc in Hd.
        apply elem_of_app in Hd as [Hd|Hd].
        -- destruct (Hcomplete d Hd Hcfg) as [Hin|(c & Hhead & Hc & Habove)].
           ++ left. rewrite fmap_app. apply elem_of_app. by left.
           ++ right. exists c. split; [|done].
              destruct found; [done|]. done.
        -- apply list_elem_of_singleton in Hd as ->. left.
           rewrite fmap_app. apply elem_of_app. right. cbn. rewrite Hdir.
           by left.
    + intros Hres. destruct (IH _ _ Hres)
        as (found & -> & Hparsed & Hsub & Hnonroot & Hcomplete).
      exists found. split; [done|]. split; [done|].
      split; [rewrite Hanc; by apply sublist_inserts_r|].
      split; [done|].
      intros d Hd Hcfg. rewrite Hanc in Hd.
      apply elem_of_app in Hd as [Hd|Hd]; [by apply Hcomplete|].
      apply list_elem_of_singleton in Hd as ->.
      destruct Hcfg as [f Hf]. by rewrite Hfile in Hf.
Qed.
End Discovery.
Section DiscoveryRuns.
Implicit Types (fs : ConfigFiles) (dir revDir d : Path)
  (configs acc : list EditorConfig).

(** The discovery returns when each file it would read can be parsed. *)
Lemma climbFrom_returns fs revDir acc :
  (forall d, d ∈ ancestors (reverse revDir) -> hasConfig fs d ->
     exists c, ParseEditorConfig fs (configPathIn d) = inr c) ->
  exists configs, climbFrom fs revDir acc = inr configs.
Proof.
  revert acc. induction revDir as [|segment parent IH]; intros acc Hparse;
    cbn [climbFrom].
  - change (reverse (@nil string)) with (@nil string) in *.
    fold (configPathIn []).
    destruct (fs !! configPathIn []) as [file|] eqn:Hfile; [|by eexists].
    destruct (Hparse [] (ancestors_self []) (ex_intro _ file Hfile))
      as [c ->].
    destruct (Root c); by eexists.
  - set (dir := reverse (segment :: parent)) in *.
    fold (configPathIn dir).
    assert (forall d, d ∈ ancestors (reverse parent) -> d ∈ ancestors dir)
      as Hup.
    { intros d Hd. unfold dir. rewrite reverse_cons, ancestors_snoc.
      apply elem_of_app. by left. }
    destruct (fs !! configPathIn dir) as [file|] eqn:Hfile.
    + destruct (Hparse dir (ancestors_self dir) (ex_intro _ file Hfile))
        as [c ->].
      destruct (Root c); [by eexists|]. apply IH. intros d Hd. by apply Hparse, Hup.
    + apply IH. intros d Hd. by apply Hparse, Hup.
Qed.

Lemma foundFrom_spec fs revDir :
  foundFrom fs revDir = true
  <-> exists d, d ∈ ancestors (reverse revDir) /\ hasConfig fs d.
Proof.
  induction revDir as [|segment parent IH]; cbn [foundFrom].
  - change (reverse (@nil string)) with (@nil string).
    fold (configPathIn []).
    destruct (fs !! configPathIn []) as [file|] eqn:Hfile.
    + split; [|done]. intros _. exists []. split; [by left | by exists file].
    + split; [done|]. intros (d & Hd & [f Hf]).
      cbn in Hd. apply list_elem_of_singleton in Hd as ->. by rewrite Hfile in Hf.
  - set (dir := reverse (segment :: parent)).
    fold (configPathIn dir).
    assert (ancestors dir = ancestors (reverse parent) ++ [dir]) as Hanc
      by (unfold dir; by rewrite reverse_cons, ancestors_snoc).
    destruct (fs !! configPathIn dir) as [file|] eqn:Hfile.
    + split; [|done]. intros _. exists dir.
      split; [apply ancestors_self | by exists file].
    + rewrite IH. split.
      * intros (d & Hd & Hcfg). exists d. split; [|done].
        rewrite Hanc. apply elem_of_app. by left.
      * intros (d & Hd & Hcfg). exists d. split; [|done].
        rewrite Hanc in Hd. apply elem_of_app in Hd as [Hd|Hd]; [done|].
        apply list_elem_of_singleton in Hd as ->.
        destruct Hcfg as [f Hf]. by rewrite Hfile in Hf.
Qed.
(** A configuration file on the way up is returned, or a document with
    [root = true] below it is. *)
Lemma discovery_found_config fs target acc d configs :
  climbFrom fs (reverse (Dir target)) acc = inr configs ->
  d `prefix_of` Dir target -> hasConfig fs d ->
  acc = [] ->
  d ∈ configDir <$> configs \/ exists c, head configs = Some c /\ Root c = true.
Proof.
  intros Hfind Hd Hcfg ->.
  destruct (climbFrom_spec _ _ _ _ Hfind)
    as (found & -> & _ & _ & _ & Hcomplete).
  rewrite reverse_involutive in Hcomplete. rewrite app_nil_r.
  destruct (Hcomplete d) as [Hin|(c & Hhead & Hroot & _)];
    [by apply ancestors_prefix | done | by left |].
  right. by exists c.
Qed.
End DiscoveryRuns.
Section ValidatePoolRuns.
Variables (w : World) (texts : ErrorTexts) (store : Store).
Implicit Types (job : Path) (hands : list (option Path)) (p : ValidatePool)
  (files : list Path).

Lemma validateInv_start workers files :
  validateInv w texts store files (validateStart workers files).
Proof.
  exists []. split; [done|]. cbn [validateStart vInHand vJobs app].
  rewrite heldJobs_idle; [done|]. by apply Forall_replicate.
Qed.

Lemma validateInv_step files p p' :
  validateInv w texts store files p -> validateStep w texts store p p' ->
  validateInv w texts store files p'.
Proof.
  intros (finished & Hres & Hperm) Hstep.
  destruct Hstep as [worker job rest hands res Hw|worker job js hands res Hw];
    cbn in *.
  - exists finished. cbn. split; [done|].
    rewrite heldJobs_receive by done. rewrite <- Hperm.
    by rewrite <- Permutation_middle.
  - exists (finished ++ [job]). cbn. split.
    + by rewrite fmap_app, Hres.
    + rewrite <- Hperm, (heldJobs_finish hands worker job Hw).
      rewrite <- app_assoc. cbn [app]. done.
Qed.

Lemma validateInv_run workers files p :
  rtc (validateStep w texts store) (validateStart workers files) p ->
  validateInv w texts store files p.
Proof.
  revert p. apply rtc_ind_r.
  - apply validateInv_start.
  - intros p1 p2 _ Hstep IH. by eapply validateInv_step.
Qed.

Lemma validate_pool_done workers files p :
  rtc (validateStep w texts store) (validateStart workers files) p ->
  validateDone p ->
  exists order,
    order ≡ₚ files
    /\ vResults p = validateSingleFileSync w texts store <$> order.
Proof.
  intros Hrun [Hjobs Hidle].
  destruct (validateInv_run workers files p Hrun) as (finished & Hres & Hperm).
  rewrite Hjobs, (heldJobs_idle _ Hidle) in Hperm.
  cbn [app] in Hperm. rewrite app_nil_r in Hperm.
  by exists finished.
Qed.

Lemma validate_pool_can_finish workers js res :
  (0 < workers)%nat ->
  exists final,
    rtc (validateStep w texts store)
      (mkValidatePool js (replicate workers None) res) final
    /\ validateDone final.
Proof.
  intros Hworkers. revert res.
  induction js as [|job rest IH]; intros res.
  - eexists. split; [apply rtc_refl|].
    split; [done | by apply Forall_replicate].
  - destruct (IH (res ++ [validateSingleFileSync w texts store job]))
      as (final & Hrun & Hdone).
    exists final. split; [|done].
    eapply rtc_l.
    { apply (validateReceive w texts store 0%nat). by apply lookup_replicate_2. }
    eapply rtc_l.
    { apply (validateFinish w texts store 0%nat job).
      apply list_lookup_insert_eq. by rewrite length_replicate. }
    rewrite list_insert_insert_eq.
    rewrite list_insert_id by (by apply lookup_replicate_2).
    exact Hrun.
Qed.
End ValidatePoolRuns.
(* ------------------------------------------------------------------ *)
(** ** The parser of configuration files, line by line *)
(* ------------------------------------------------------------------ *)

(** X6. A section header closes what is before it: the sections of the
    lines up to a header followed by the sections of the lines from the
    header on are the sections of the file, so the sections come in the
    order of the headers and a pattern that is repeated gives a section
    each time; and no line from the first header on changes [root]. *)
Theorem parse_header_starts_section (before after : list (list ascii))
    (header : list ascii) (pattern : string) :
  headerPattern header = Some pattern ->
  pSections (parseLines (before ++ header :: after))
  = pSections (parseLines before) ++ pSections (parseLines (header :: after))
  /\ pRoot (parseLines (before ++ header :: after))
     = pRoot (parseLines before).
Proof.
  intros Hheader. unfold parseLines. rewrite foldl_app. cbn [foldl].
  rewrite !parseLine_cases, Hheader.
  set (st1 := foldl parseLine (mkParseConfig false [] true) before).
  split.
  - apply parse_frame; cbn [inHeaderSection pSections]; done.
  - by destruct (parse_past_header
                   (mkParseConfig (pRoot st1)
                      (pSections st1 ++ [mkSection pattern ∅]) false) after
                   eq_refl) as [-> _].
Qed.

Lemma parse_header_starts_section_witness :
  pRoot (parseLines ([chars "root = true"] ++ chars "[*]"
                       :: [chars "root = false"]))
  = pRoot (parseLines [chars "root = true"]).
Proof.
  exact (proj2 (parse_header_starts_section [chars "root = true"]
                  [chars "root = false"] (chars "[*]") "*" eq_refl)).
Defined.

(** X7. The properties of a section are the assignments of the lines
    between its header and the next header, a later assignment of a key
    replacing an earlier one; comments, empty lines and lines without [=]
    add nothing. *)
Theorem parse_section_properties (header : list ascii) (pattern : string)
    (body : list (list ascii)) :
  headerPattern header = Some pattern ->
  noHeader body ->
  pSections (parseLines (header :: body))
  = [mkSection pattern (assignedIn body)].
Proof.
  intros Hheader Hbody. unfold parseLines. cbn [foldl].
  rewrite parseLine_cases, Hheader. cbn [pRoot pSections app].
  by rewrite parse_block.
Qed.

Lemma parse_section_properties_witness :
  pSections (parseLines (chars "[*]" :: sectionAssignedTwice))
  = [mkSection "*" (assignedIn sectionAssignedTwice)].
Proof.
  apply (parse_section_properties (chars "[*]") "*" sectionAssignedTwice).
  - vm_compute. reflexivity.
  - apply (bool_decide_unpack _). vm_compute. exact I.
Defined.

(** X8. Before the first header only [root] is read: the flag is set by
    the last assignment of [root] there, to whether its value is [true]
    in any case of the letters, and is unset without one; every other
    assignment before the first header is dropped. *)
Theorem parse_root_before_first_header (preamble : list (list ascii))
    (header : list ascii) (pattern : string) (rest : list (list ascii)) :
  noHeader preamble ->
  headerPattern header = Some pattern ->
  pRoot (parseLines (preamble ++ header :: rest))
  = default false (last (rootAssignments preamble))
  /\ pSections (parseLines (preamble ++ header :: rest))
     = pSections (parseLines (header :: rest))
  /\ pSections (parseLines preamble) = [].
Proof.
  intros Hpre Hheader.
  assert (parseLines preamble
          = mkParseConfig (default false (last (rootAssignments preamble)))
              [] true) as Hstart
    by (by apply parse_before_header).
  unfold parseLines in *. rewrite foldl_app, Hstart. cbn [foldl].
  rewrite !parseLine_cases, Hheader. cbn [pRoot pSections app].
  split; [|split; [|done]].
  - by destruct (parse_past_header
                   (mkParseConfig
                      (default false (last (rootAssignments preamble)))
                      [mkSection pattern ∅] false) rest eq_refl) as [-> _].
  - by apply (parse_frame _ _ []).
Qed.

Lemma parse_root_before_first_header_witness :
  pRoot (parseLines (preambleLines ++ chars "[*]" :: [chars "charset = latin1"]))
  = true.
Proof.
  refine (proj1 (parse_root_before_first_header preambleLines (chars "[*]")
                   "*" [chars "charset = latin1"] _ eq_refl)).
  apply (bool_decide_unpack _). vm_compute. exact I.
Defined.

(* ------------------------------------------------------------------ *)
(** ** The discovery of the configuration files *)
(* ------------------------------------------------------------------ *)

(** X9. What the hierarchical discovery returns for a file: documents
    parsed from the configuration files of the directory of the file and
    of directories above it, those of outer directories first; only the
    first of them can have [root = true]; and a configuration file on the
    way up is left out only when it is above a returned document with
    [root = true], which is then the first. *)
Theorem discovery_stops_at_nearest_root (fs : ConfigFiles) (target : Path)
    (configs : list EditorConfig) :
  FindEditorConfigs fs target = inr configs ->
  Forall (fun c => ParseEditorConfig fs (configPathIn (configDir c)) = inr c)
    configs
  /\ configDir <$> configs `sublist_of` ancestors (Dir target)
  /\ Forall (fun c => Root c = false) (tail configs)
  /\ forall d, d `prefix_of` Dir target -> hasConfig fs d ->
       d ∈ configDir <$> configs
       \/ exists c, head configs = Some c /\ Root c = true
            /\ strictlyAbove d (configDir c).
Proof.
  unfold FindEditorConfigs, FindEditorConfigsWithCustomConfig. intros Hfind.
  destruct (climbFrom_spec _ _ _ _ Hfind)
    as (found & -> & Hparsed & Hsub & Hnonroot & Hcomplete).
  rewrite reverse_involutive in Hsub, Hcomplete. rewrite app_nil_r.
  split; [done|]. split; [done|]. split; [done|].
  intros d Hd. apply Hcomplete. by apply ancestors_prefix.
Qed.

Lemma discovery_stops_at_nearest_root_witness :
  exists configs,
    FindEditorConfigs nestedConfigs ["proj"; "src"; "main.go"] = inr configs
    /\ configDir <$> configs = [["proj"]; ["proj"; "src"]]
    /\ Forall (fun c => Root c = false) (tail configs).
Proof.
  eexists. split; [vm_compute; reflexivity|]. split; [vm_compute; reflexivity|].
  apply (discovery_stops_at_nearest_root nestedConfigs
           ["proj"; "src"; "main.go"]).
  vm_compute. reflexivity.
Defined.

(** X10. The check that a directory is under some configuration file
    succeeds exactly when the directory or one above it has one; then the
    discovery finds a document, or fails, for every file in or below the
    directory; and when the check fails for the directory of a file, the
    discovery returns no document for it. *)
Theorem directory_check_guards_discovery (fs : ConfigFiles)
    (directory : Path) :
  (checkForEditorConfig fs None directory = None
   <-> exists d, d `prefix_of` directory /\ hasConfig fs d)
  /\ (forall target,
        directory `prefix_of` Dir target ->
        checkForEditorConfig fs None directory = None ->
        FindEditorConfigs fs target <> inr [])
  /\ (forall target,
        Dir target = directory ->
        checkForEditorConfig fs None directory <> None ->
        FindEditorConfigs fs target = inr []).
Proof.
  assert (checkForEditorConfig fs None directory = None
          <-> exists d, d `prefix_of` directory /\ hasConfig fs d) as Hcheck.
  { unfold checkForEditorConfig.
    destruct (foundFrom fs (reverse directory)) eqn:Hfound.
    - apply foundFrom_spec in Hfound as (d & Hd & Hcfg).
      rewrite reverse_involutive in Hd. split; [|done]. intros _.
      exists d. split; [by apply ancestors_prefix | done].
    - split; [done|]. intros (d & Hd & Hcfg). exfalso.
      apply not_true_iff_false in Hfound. apply Hfound, foundFrom_spec.
      exists d. rewrite reverse_involutive. split; [by apply ancestors_prefix | done]. }
  split; [done|]. split.
  - intros target Hbelow Hok Hfind.
    apply Hcheck in Hok as (d & Hd & Hcfg).
    assert (d `prefix_of` Dir target) as Hd' by (by etrans).
    destruct (discovery_found_config fs target [] d [] Hfind Hd' Hcfg eq_refl)
      as [Hin|(c & Hc & _)]; [|done].
    by apply elem_of_nil in Hin.
  - intros target Hdir Hfail. subst directory.
    assert (forall d, d `prefix_of` Dir target -> ~ hasConfig fs d) as Hnone.
    { intros d Hd Hcfg. apply Hfail, Hcheck. by exists d. }
    unfold FindEditorConfigs, FindEditorConfigsWithCustomConfig.
    destruct (climbFrom_returns fs (reverse (Dir target)) []) as [configs Hfind].
    { intros d Hd Hcfg. rewrite reverse_involutive in Hd.
      apply ancestors_prefix in Hd. by destruct (Hnone d Hd). }
    rewrite Hfind. f_equal.
    destruct (climbFrom_spec _ _ _ _ Hfind)
      as (found & -> & Hparsed & Hsub & _ & _).
    rewrite reverse_involutive in Hsub. rewrite app_nil_r.
    destruct found as [|c found']; [done|]. exfalso.
    apply Forall_cons in Hparsed as [Hc _].
    apply (Hnone (configDir c)).
    + apply ancestors_prefix. eapply elem_of_sublist; [|exact Hsub]. by left.
    + unfold hasConfig. unfold ParseEditorConfig in Hc.
      by destruct (fs !! configPathIn (configDir c)).
Qed.

(* ------------------------------------------------------------------ *)
(** ** Validating files, one and many *)
(* ------------------------------------------------------------------ *)





Section ShortenPaths.
Implicit Types (path s : list ascii) (maxWidth : Z).

Lemma len_app {A} (a b : list A) : len (a ++ b) = len a + len b.
Proof. unfold len. rewrite length_app. lia. Qed.

Lemma slice_in_range s lo hi :
  0 <= lo -> lo <= hi -> hi <= len s ->
  exists r, slice s lo hi = Some r /\ len r = hi - lo.
Proof.
  intros H0 H1 H2. unfold slice.
  replace (0 <=? lo) with true by (symmetry; by apply Z.leb_le).
  replace (lo <=? hi) with true by (symmetry; by apply Z.leb_le).
  replace (hi <=? len s) with true by (symmetry; by apply Z.leb_le).
  eexists. split; [reflexivity|].
  unfold len in *. rewrite length_take, length_drop. lia.
Qed.

Lemma shortenPath_width maxWidth path :
  3 <= maxWidth ->
  exists short,
    shortenPath maxWidth path = Some short
    /\ len short <= maxWidth + 1
    /\ (len path <= maxWidth -> short = path).
Proof.
  intros Hw. unfold shortenPath.
  destruct (len path <=? maxWidth) eqn:Hfit.
  { apply Z.leb_le in Hfit. exists path. split; [done|]. split; [lia | done]. }
  apply Z.leb_gt in Hfit.
  destruct (len (Base path) <=? maxWidth - 3) eqn:Hname.
  { apply Z.leb_le in Hname. eexists. split; [reflexivity|].
    split; [|lia]. rewrite len_app. change (len (chars ".../")) with 4. lia. }
  destruct (10 <? maxWidth) eqn:Hwide.
  - apply Z.ltb_lt in Hwide.
    assert (maxWidth ÷ 2 = maxWidth / 2) as Hq by (apply Z.quot_div_nonneg; lia).
    rewrite Hq.
    assert (3 <= maxWidth / 2 - 2 /\ 2 * (maxWidth / 2) <= maxWidth) as [Hh Hd]
      by (split; [apply Z.le_add_le_sub_r, Z.div_le_lower_bound; lia
                 | apply Z.mul_div_le; lia]).
    destruct (slice_in_range path 0 (maxWidth / 2 - 2)
                ltac:(lia) ltac:(lia) ltac:(lia)) as (start & -> & Hstart).
    destruct (slice_in_range path (len path - (maxWidth / 2 - 2)) (len path)
                ltac:(lia) ltac:(lia) ltac:(lia)) as (rest & -> & Hrest).
    cbn [mbind option_bind]. eexists. split; [reflexivity|]. split; [|lia].
    rewrite !len_app. change (len (chars "...")) with 3. lia.
  - apply Z.ltb_ge in Hwide.
    destruct (slice_in_range path 0 (maxWidth - 3)
                ltac:(lia) ltac:(lia) ltac:(lia)) as (start & -> & Hstart).
    cbn [mbind option_bind]. eexists. split; [reflexivity|]. split; [|lia].
    rewrite len_app. change (len (chars "...")) with 3. lia.
Qed.
End ShortenPaths.
Section PatternsAndPaths.
Implicit Types (p s : list ascii) (pattern path : string) (dir : Path).

(** A pattern without separator matches no text with a separator. *)
Lemma globSem_no_separator p s :
  "/"%char ∉ p -> globSem p s = true -> "/"%char ∉ s.
Proof.
  revert s. induction p as [|c p' IH]; intros s Hp; cbn [globSem].
  - intros Hs. apply bool_decide_eq_true in Hs as ->. apply not_elem_of_nil.
  - apply not_elem_of_cons in Hp as [Hc Hp'].
    destruct (bool_decide (c = "*"%char)).
    + intros Hruns. apply starRuns_spec in Hruns as (run & rest & -> & Hrun & Hk).
      apply not_elem_of_app. split; [done | by apply IH].
    + destruct s as [|x s']; [done|].
      intros [Hx Hs']%andb_true_iff. apply bool_decide_eq_true in Hx as ->.
      apply not_elem_of_cons. split; [congruence | by apply IH].
Qed.

Lemma relSegments_below dir (more : list string) :
  relSegments dir (dir ++ more) = more.
Proof.
  induction dir as [|b bs IH]; [by destruct more|].
  cbn [app relSegments]. by rewrite bool_decide_true.
Qed.

Lemma Join_two_has_sep (l1 l2 : list ascii) (ls : list (list ascii)) :
  "/"%char ∈ Join (l1 :: l2 :: ls) ["/"%char].
Proof.
  rewrite Join_cons_cons. apply elem_of_app. right.
  apply elem_of_app. left. by left.
Qed.

(** The whole path is the first of the paths that the exclusion loop
    tries. *)
Lemma suffixPaths_head path :
  path ∈ suffixPaths (Split (chars path) "/"%char).
Proof.
  pose proof (Split_nonempty (chars path) "/"%char) as Hne.
  pose proof (Join_Split (chars path) "/"%char) as Hjoin.
  destruct (Split (chars path) "/"%char) as [|part parts]; [done|].
  cbn [suffixPaths]. rewrite Hjoin. unfold chars.
  rewrite string_of_list_ascii_of_string. by left.
Qed.

Lemma excludes_simple pattern path :
  simplePattern (chars pattern) = true -> pattern <> "*" ->
  excludes pattern path = true
  <-> exists suffix,
      suffix ∈ suffixPaths (Split (chars path) "/"%char)
      /\ globSem (chars pattern) (chars suffix) = true.
Proof.
  intros Hsimple Hnot. unfold excludes. cbv zeta.
  assert (forall text,
            matchedOk (MatchString (ConvertPatternToRegex pattern) text)
            = globSem (chars pattern) (chars text)) as Hmatch.
  { intros text. fold (globMatch pattern text).
    by rewrite globMatch_simple. }
  rewrite orb_true_iff, Hmatch. split.
  - intros [Hwhole|Hsome].
    + exists path. split; [apply suffixPaths_head | done].
    + apply existsb_exists in Hsome as (suffix & Hin & Hok).
      exists suffix. split; [by apply list_elem_of_In|]. by rewrite <- Hmatch.
  - intros (suffix & Hin & Hok). right. apply existsb_exists.
    exists suffix. split; [by apply list_elem_of_In|]. by rewrite Hmatch.
Qed.
End PatternsAndPaths.
(* ------------------------------------------------------------------ *)
(** ** The paths of the table *)
(* ------------------------------------------------------------------ *)

(** X13. For a width of three or more, shortening paths does not fail; it
    keeps a path that fits the width as it is, and a path it shortens has
    at most one byte more than the width. One more, not none: a path with
    a file name of three bytes less than the width is shortened to the
    four bytes [.../] and the name. *)
Theorem shortened_paths_width (paths : list (list ascii)) (maxWidth : Z) :
  3 <= maxWidth ->
  (exists shortened,
      shortenPaths paths maxWidth = Some shortened
      /\ Forall2 (fun path short =>
                    len short <= maxWidth + 1
                    /\ (len path <= maxWidth -> short = path))
           paths shortened)
  /\ forall path,
      maxWidth < len path -> len (Base path) = maxWidth - 3 ->
      exists short,
        shortenPath maxWidth path = Some short /\ len short = maxWidth + 1.
Proof.
  intros Hw. split.
  - unfold shortenPaths. induction paths as [|path rest IH].
    + exists []. split; [done | constructor].
    + destruct IH as (shortened & Hrest & Hall).
      destruct (shortenPath_width maxWidth path Hw) as (short & Hshort & Hlen).
      exists (short :: shortened). split; [|by constructor].
      cbn [mapM]. rewrite Hshort, Hrest. done.
  - intros path Hlong Hname. unfold shortenPath.
    replace (len path <=? maxWidth) with false
      by (symmetry; apply Z.leb_gt; lia).
    replace (len (Base path) <=? maxWidth - 3) with true
      by (symmetry; apply Z.leb_le; lia).
    eexists. split; [reflexivity|].
    rewrite len_app. change (len (chars ".../")) with 4. lia.
Qed.

Lemma shortened_paths_width_witness :
  exists shortened,
    shortenPaths [chars "pkg/rules/end_of_line.go"] getMaxPathWidth
    = Some shortened
    /\ Forall2 (fun path short =>
                  len short <= getMaxPathWidth + 1
                  /\ (len path <= getMaxPathWidth -> short = path))
         [chars "pkg/rules/end_of_line.go"] shortened.
Proof.
  refine (proj1 (shortened_paths_width [chars "pkg/rules/end_of_line.go"]
                   getMaxPathWidth _)).
  unfold getMaxPathWidth. lia.
Defined.

(* ------------------------------------------------------------------ *)
(** ** Patterns and the paths they are matched against *)
(* ------------------------------------------------------------------ *)

(** X14. An exclusion pattern is tried on the path from each of its
    segments on: with patterns of literal characters and single stars, a
    path is ignored exactly when some pattern matches the whole of the
    path or of what is left of it after leading directories. *)
Theorem exclusion_matches_any_suffix (patterns : list string) (path : string) :
  Forall (fun pattern =>
            simplePattern (chars pattern) = true /\ pattern <> "*") patterns ->
  shouldIgnore patterns path = true
  <-> exists pattern suffix,
      pattern ∈ patterns
      /\ suffix ∈ suffixPaths (Split (chars path) "/"%char)
      /\ globSem (chars pattern) (chars suffix) = true.
Proof.
  intros Hall. rewrite shouldIgnore_existsb, existsb_exists. split.
  - intros (pattern & Hin%list_elem_of_In & Hex).
    rewrite Forall_forall in Hall. destruct (Hall pattern Hin) as [Hs Hn].
    apply (excludes_simple pattern path Hs Hn) in Hex as (suffix & Hsuf & Hok).
    by exists pattern, suffix.
  - intros (pattern & suffix & Hin & Hsuf & Hok).
    rewrite Forall_forall in Hall. destruct (Hall pattern Hin) as [Hs Hn].
    exists pattern. split; [by apply list_elem_of_In|].
    apply (excludes_simple pattern path Hs Hn). by exists suffix.
Qed.

Lemma exclusion_matches_any_suffix_witness :
  shouldIgnore ["*.tmp"] "build/out/x.tmp" = true
  <-> exists pattern suffix,
      pattern ∈ ["*.tmp"]
      /\ suffix ∈ suffixPaths (Split (chars "build/out/x.tmp") "/"%char)
      /\ globSem (chars pattern) (chars suffix) = true.
Proof.
  apply (exclusion_matches_any_suffix ["*.tmp"] "build/out/x.tmp").
  apply (bool_decide_unpack _). vm_compute. exact I.
Defined.

(** X15. The pattern of a section is matched against the path of the file
    relative to the directory of the configuration file. So a pattern of
    literal characters and single stars without separator is matched
    against the name of a file that is in that directory, and matches no
    other file: none of a directory below it, and none that is reached
    from it through [..]. *)
Theorem section_pattern_relative_to_config (dir : Path) (pattern : string) :
  simplePattern (chars pattern) = true ->
  pattern <> "*" ->
  "/"%char ∉ chars pattern ->
  (forall name,
      matchesPattern (dir ++ [name]) pattern (configPathIn dir)
      = inr (globSem (chars pattern) (chars name)))
  /\ (forall filePath,
        (2 <= length (relSegments dir filePath))%nat ->
        matchesPattern filePath pattern (configPathIn dir) = inr false).
Proof.
  intros Hsimple Hnot Hsep.
  assert (forall text, MatchString (ConvertPatternToRegex pattern) text
                       = inr (globSem (chars pattern) (chars text))) as Hmatch.
  { intros text. fold (globMatch pattern text). by apply globMatch_simple. }
  unfold matchesPattern. cbv zeta. rewrite Dir_configPathIn. split.
  - intros name. unfold Rel. rewrite relSegments_below, Hmatch.
    unfold joinSegments. cbn [fmap list_fmap Join]. unfold chars.
    by rewrite string_of_list_ascii_of_string.
  - intros filePath Hlong. unfold Rel.
    destruct (relSegments dir filePath) as [|first [|second more]];
      [cbn in Hlong; lia | cbn in Hlong; lia |].
    rewrite Hmatch. f_equal. apply not_true_is_false. intros Hsem.
    apply (globSem_no_separator _ _ Hsep) in Hsem. apply Hsem.
    unfold joinSegments. rewrite chars_string_of. cbn [fmap list_fmap].
    apply Join_two_has_sep.
Qed.

Lemma section_pattern_relative_to_config_witness :
  matchesPattern ["proj"; "src"; "main.go"] "*.go" (configPathIn ["proj"])
  = inr false
  /\ matchesPattern ["other"; "main.go"] "*.go" (configPathIn ["proj"])
     = inr false.
Proof.
  assert ("/"%char ∉ chars "*.go") as Hsep
    by (apply (bool_decide_unpack _); vm_compute; exact I).
  pose proof (proj2 (section_pattern_relative_to_config ["proj"] "*.go"
                       eq_refl ltac:(discriminate) Hsep)) as Hother.
  split.
  - apply (Hother ["proj"; "src"; "main.go"]). vm_compute. lia.
  - apply (Hother ["other"; "main.go"]). vm_compute. lia.
Defined.

(* ------------------------------------------------------------------ *)
(** ** The pipeline and the cascade, once more *)
(* ------------------------------------------------------------------ *)

(** X16. On a content without CR, with the end-of-line style unset or
    [lf], one pass of the fix pipeline is enough: its result has no CR, a
    second pass returns it unchanged, and no validator reports a violation
    on it. *)
Theorem fix_pipeline_clean_without_cr (path : string) (content : list byte)
    (cfg : ResolvedConfig) :
  CR ∉ content ->
  lfStyle cfg ->
  exists fixed modified,
    fixContent path content cfg = inr (fixed, modified)
    /\ (CR ∉ fixed)
    /\ fixContent path fixed cfg = inr (fixed, false)
    /\ applyValidators GetAllValidators path fixed cfg = [].
Proof.
  intros Hcr Hstyle.
  destruct (fix_pipeline_idempotent_on_lf path content cfg Hcr Hstyle)
    as (fixed & modified & Hfix & Hclean & Hagain).
  exists fixed, modified. split; [done|]. split; [done|]. split; [done|].
  pose proof (fixContent_by_validators path fixed cfg) as Hagree.
  destruct (applyValidators GetAllValidators path fixed cfg) as [|v vs];
    [done|].
  destruct Hagree as [fixed' Hfixed']. by rewrite Hagain in Hfixed'.
Qed.

Lemma fix_pipeline_clean_without_cr_witness :
  exists fixed modified,
    fixContent "f" lfTrailing lfTrimCfg = inr (fixed, modified)
    /\ (CR ∉ fixed)
    /\ fixContent "f" fixed lfTrimCfg = inr (fixed, false)
    /\ applyValidators GetAllValidators "f" fixed lfTrimCfg = [].
Proof.
  apply (fix_pipeline_clean_without_cr "f" lfTrailing lfTrimCfg).
  - apply (bool_decide_unpack _). vm_compute. exact I.
  - right. reflexivity.
Defined.

(** X17. The order in which the loop of [applyProperties] meets the
    entries of the map is immaterial: whatever the order, applying the
    entries one after the other gives the same configuration. *)
Theorem properties_order_is_immaterial (config : ResolvedConfig)
    (properties : gmap string string) (entries : list (string * string)) :
  entries ≡ₚ map_to_list properties ->
  foldl (fun cfg entry => applyProperty entry.1 entry.2 cfg) config entries
  = applyProperties config properties.
Proof.
  intros Hperm.
  rewrite <- (applyProperties_any_order config properties (reverse entries))
    by (by rewrite reverse_Permutation).
  clear Hperm. revert config.
  induction entries as [|[key value] rest IH]; intros config; [done|].
  cbn [foldl]. rewrite reverse_cons, foldr_app, IH. done.
Qed.

Lemma properties_order_is_immaterial_witness :
  foldl (fun cfg entry => applyProperty entry.1 entry.2 cfg) emptyResolved
    [("indent_style", "tab"); ("end_of_line", "lf")]
  = foldl (fun cfg entry => applyProperty entry.1 entry.2 cfg) emptyResolved
      [("end_of_line", "lf"); ("indent_style", "tab")].
Proof.
  rewrite (properties_order_is_immaterial emptyResolved twoProperties
             [("indent_style", "tab"); ("end_of_line", "lf")])
    by (vm_compute; apply Permutation_swap).
  rewrite (properties_order_is_immaterial emptyResolved twoProperties
             [("end_of_line", "lf"); ("indent_style", "tab")])
    by (vm_compute; reflexivity).
  reflexivity.
Defined.

Section WalkedFiles.
Variables (options : WalkOptions) (directory : string).
Implicit Types (path name file : string) (node : Node).

(** The files appended for a node are the regular files that the walk
    reaches from it and that pass the checks. *)
Lemma walkNode_spec node path name file :
  file ∈ walkNode options directory path name node
  <-> exists fname executable content,
      reaches options directory path name node file fname
        (FileNode executable content)
      /\ accepted options file fname executable content.
Proof.
  revert path name. induction node as [executable content|entries IH] using Node_nested_ind;
    intros path name.
  - cbn [walkNode]. split.
    + intros Hin. exists name, executable, content.
      destruct (bool_decide (name = ".editorconfig")) eqn:H1;
        [by apply elem_of_nil in Hin|].
      destruct (HasPrefix (chars name) ["."%char]) eqn:H2;
        [by apply elem_of_nil in Hin|].
      destruct (shouldIgnore (ExcludePatterns options) path) eqn:H3;
        [by apply elem_of_nil in Hin|].
      destruct (isBinaryFile path executable content) eqn:H4;
        [by apply elem_of_nil in Hin|].
      apply list_elem_of_singleton in Hin as ->.
      split; [constructor|]. apply bool_decide_eq_false in H1. by repeat split.
    + intros (fname & x & c & Hreach & Hname & Hhidden & Hignore & Hbinary).
      inversion Hreach; subst.
      rewrite bool_decide_false by done. rewrite Hhidden, Hignore, Hbinary.
      by left.
  - cbn [walkNode]. split.
    + intros Hin.
      destruct (shouldIgnore (ExcludePatterns options) path) eqn:H1;
        [by apply elem_of_nil in Hin|].
      destruct (negb (Recursive options) && negb (bool_decide (path = directory)))
        eqn:H2; [by apply elem_of_nil in Hin|].
      apply list_elem_of_bind in Hin as ([entryName child] & Hin & Hentry).
      rewrite Forall_forall in IH.
      apply (IH _ Hentry) in Hin as (fname & x & c & Hreach & Hok).
      exists fname, x, c. split; [|done].
      apply (reachesEntry _ _ _ _ _ entryName child); [|done|done].
      split; [done|]. apply andb_false_iff in H2 as [H2|H2].
      * left. by apply negb_false_iff.
      * right. apply negb_false_iff in H2. by apply bool_decide_eq_true in H2.
    + intros (fname & x & c & Hreach & Hok).
      inversion Hreach as [|? ? ? entryName child ? ? ? [Hignore Hdeep] Hentry Hrest];
        subst.
      rewrite Hignore.
      replace (negb (Recursive options) && negb (bool_decide (path = directory)))
        with false
        by (symmetry; apply andb_false_iff;
            destruct Hdeep as [-> | ->]; [by left | right];
            by rewrite bool_decide_true).
      apply list_elem_of_bind. exists (entryName, child). split; [|done].
      rewrite Forall_forall in IH. apply (IH _ Hentry). by exists fname, x, c.
Qed.
End WalkedFiles.
(* ------------------------------------------------------------------ *)
(** ** The files of a directory *)
(* ------------------------------------------------------------------ *)

Example collectFiles_sampleTree :
  collectFiles (mkWalkOptions true []) "." sampleTree
  = [".git/config"; "main.go"; "src/a.go"]
  /\ collectFiles (mkWalkOptions true ["src"]) "." sampleTree
     = [".git/config"; "main.go"]
  /\ collectFiles (mkWalkOptions false []) "." sampleTree = ["main.go"].
Proof. vm_compute. repeat split. Qed.

(** X18. The jobs that are collected for a directory are the regular
    files that pass the checks (not named [.editorconfig], no leading dot,
    not excluded, not binary) and that the walk reaches: through
    directories that are not excluded and, unless the walk is recursive,
    are the directory itself. *)
Theorem collected_files_are_the_accepted_files (options : WalkOptions)
    (directory : string) (root : Node) (file : string) :
  file ∈ collectFiles options directory root
  <-> exists name executable content,
      reaches options directory directory
        (string_of_list_ascii (Base (chars directory))) root
        file name (FileNode executable content)
      /\ accepted options file name executable content.
Proof. unfold collectFiles. apply walkNode_spec. Qed.

(** X19. The name of a directory is not checked: in a recursive walk the
    files of a directory below the one that is walked are collected
    whatever the name of that directory, so also the files of a directory
    whose name begins with a dot, as long as no pattern excludes the
    directories and the file passes the checks. *)
Theorem hidden_directories_are_walked (options : WalkOptions)
    (directory dirName fileName : string) (entries sub : list (string * Node))
    (executable : bool) (content : option (list byte)) :
  Recursive options = true ->
  (dirName, DirNode sub) ∈ entries ->
  (fileName, FileNode executable content) ∈ sub ->
  shouldIgnore (ExcludePatterns options) directory = false ->
  shouldIgnore (ExcludePatterns options) (filepathJoin directory dirName)
  = false ->
  accepted options (filepathJoin (filepathJoin directory dirName) fileName)
    fileName executable content ->
  filepathJoin (filepathJoin directory dirName) fileName
  ∈ collectFiles options directory (DirNode entries).
Proof.
  intros Hrec Hdir Hfile Hroot Hsub Hok.
  unfold collectFiles. apply walkNode_spec.
  exists fileName, executable, content. split; [|done].
  eapply reachesEntry; [by split; [|left] | exact Hdir |].
  eapply reachesEntry; [by split; [|left] | exact Hfile |].
  constructor.
Qed.

Lemma hidden_directories_are_walked_witness :
  ".git/config" ∈ collectFiles (mkWalkOptions true []) "." sampleTree.
Proof.
  refine (hidden_directories_are_walked (mkWalkOptions true []) "." ".git"
            "config" _ [("config", FileNode false (Some (bytes "[core]")))]
            false (Some (bytes "[core]")) eq_refl _ _ eq_refl eq_refl _).
  - apply list_elem_of_further, list_elem_of_here.
  - apply list_elem_of_here.
  - split; [discriminate|]. repeat split.
Defined.

Example TestCustomConfigFile :
  let customConfigPath := ["tmp"; "custom.editorconfig"] in
  let testFile := ["tmp"; "test.go"] in
  let fs : ConfigFiles := {[ customConfigPath := Readable customConfigContent ]} in
  match FindEditorConfigsWithCustomConfig fs testFile (Some customConfigPath) with
  | inr configs =>
      length configs = 1%nat
      /\ match ResolveConfigForFile testFile configs with
         | inr resolved =>
             IndentStyle resolved = "tab"
             /\ InsertFinalNewline resolved = Some true
             /\ TrimTrailingWhitespace resolved = Some true
         | inl _ => False
         end
  | inl _ => False
  end.
Proof. vm_compute. repeat split. Qed.

(* ------------------------------------------------------------------ *)
(** ** What a fix run reports *)
(* ------------------------------------------------------------------ *)

(** X20. A fix run in which fixing fails for every file reports success:
    whatever the run of the workers, the list of fixed files is empty, the
    result handed to the formatter has [Success] set, and the default, the
    quiet and the tabular format each print that no fix was needed or that
    all files pass. *)
Theorem failed_fixes_are_reported_as_success (w : World) (workers : nat)
    (files : list Path) (st : Store) (fixed : list string) (total : Z)
    (st' : Store) :
  NoDup files ->
  (forall file, file ∈ files -> exists err, outcomeOf w st file = inl err) ->
  fixFilesParallelReturns w workers files st fixed total st' ->
  let result := fixModeResult fixed total in
  fixed = []
  /\ Success result = true
  /\ (forall chosen,
        chosen ∉ ["json"; "tabular"; "quiet"] ->
        FormatResults (NewFormatter chosen false) result
        = Some ("✓ No fixes needed - all files already pass editorconfig validation"
                +:+ newline))
  /\ FormatResults (NewFormatter "tabular" false) result
     = Some ("✓ All files pass editorconfig validation" +:+ newline)
  /\ (forall chosen,
        FormatResults (NewFormatter chosen true) result
        = Some ("No fixes needed" +:+ newline)).
Proof.
  intros Hdistinct Hfail Hret result.
  assert (fixed = []) as ->.
  { unfold fixFilesParallelReturns in Hret.
    destruct (len files =? 0); [by destruct Hret|].
    destruct Hret as (final & Hrun & Hdone & -> & _).
    destruct (pool_done w files st Hdistinct workers final Hrun Hdone)
      as [Hperm _].
    apply Permutation_nil_r. rewrite Hperm.
    assert (filter (fun job => isFixed (outcomeOf w st job)) files = [])
      as ->; [|done].
    clear -Hfail. induction files as [|file rest IH]; [done|].
    rewrite filter_cons.
    destruct (Hfail file) as [err Herr]; [by left|].
    rewrite Herr. cbn [isFixed].
    rewrite decide_False by (intros H; done).
    apply IH. intros f Hf. apply Hfail. by right. }
  split; [done|]. split; [done|]. split; [|split; [done|]].
  - intros chosen Hchosen. unfold FormatResults, NewFormatter. cbn [format].
    rewrite !not_elem_of_cons in Hchosen.
    destruct Hchosen as (H1 & H2 & H3 & _).
    by rewrite !bool_decide_false by done.
  - intros chosen. done.
Qed.

Lemma failed_fixes_are_reported_as_success_witness :
  outcomeOf trimWorld noFiles ["a.txt"] = inl ErrRead
  /\ (exists fixed total st',
        fixFilesParallelReturns trimWorld 1 [["a.txt"]] noFiles fixed total st')
  /\ forall fixed total st',
      fixFilesParallelReturns trimWorld 1 [["a.txt"]] noFiles fixed total st' ->
      FormatResults (NewFormatter "default" false) (fixModeResult fixed total)
      = Some ("✓ No fixes needed - all files already pass editorconfig validation"
              +:+ newline).
Proof.
  split; [vm_compute; reflexivity|]. split.
  { destruct (pool_can_finish trimWorld 1 [["a.txt"]] [] noFiles
                (Nat.lt_0_succ 0)) as (final & Hrun & Hdone).
    exists (collectFixed (results final)), 1, (store final), final.
    split; [done|]. split; [done|]. by split. }
  intros fixed total st' Hret.
  refine (proj1 (proj2 (proj2 (failed_fixes_are_reported_as_success trimWorld 1
                                 [["a.txt"]] noFiles fixed total st' _ _ Hret)))
            "default" _).
  - apply (bool_decide_unpack _). vm_compute. exact I.
  - intros file Hfile. apply list_elem_of_singleton in Hfile as ->.
    exists ErrRead. vm_compute. reflexivity.
  - apply (bool_decide_unpack _). vm_compute. exact I.
Defined.

(* ------------------------------------------------------------------ *)
(** ** Patterns with [**] and [?] *)
(* ------------------------------------------------------------------ *)

Section TokenPatterns.
Implicit Types (ts : list GlobToken) (t : GlobToken) (s : list ascii)
  (c x : ascii).

Lemma wellFormed_cons t ts :
  wellFormed (t :: ts) = true ->
  match t with
  | TLit c => isGlobMeta c = false
  | TStar | TDoubleStar => from_option isStarToken false (head ts) = false
  | TAny => True
  end /\ wellFormed ts = true.
Proof.
  cbn [wellFormed]. intros [Ht Hts]%andb_true_iff. split; [|done].
  destruct t; [|by apply negb_true_iff in Ht..|done].
  apply andb_true_iff in Ht as [Ht _]. by apply negb_true_iff in Ht.
Qed.

Lemma QuoteMeta_tokens ts :
  QuoteMeta (ts ≫= tokenText) = ts ≫= stageText 0.
Proof.
  induction ts as [|t ts IH]; [done|].
  cbn [mbind list_bind]. unfold QuoteMeta in *. rewrite bind_app, IH.
  f_equal. destruct t; [|by vm_compute..].
  cbn [tokenText stageText mbind list_bind]. by rewrite app_nil_r.
Qed.

Lemma replaceFrom_skip_two c1 c2 x more new s :
  c1 <> "\"%char -> c2 <> "\"%char ->
  replaceFrom 0 ("\"%char :: x :: more) new (c1 :: c2 :: s)
  = c1 :: c2 :: replaceFrom 0 ("\"%char :: x :: more) new s.
Proof. intros H1 H2. by rewrite !replaceFrom_skip_char by done. Qed.

(** What follows an item that is no star does not begin with a quoted
    star. *)
Lemma stage0_head_not_star ts :
  wellFormed ts = true ->
  from_option isStarToken false (head ts) = false ->
  HasPrefix (ts ≫= stageText 0) ["\"%char; "*"%char] = false.
Proof.
  destruct ts as [|t ts]; [done|]. intros [Ht _]%wellFormed_cons Hhead.
  cbn [mbind list_bind]. destruct t; [|done|done|done].
  cbn [stageText]. destruct (not_meta c Ht) as (Hb & Hstar & _).
  unfold quoteChar. destruct (isSpecial c); cbn [app HasPrefix].
  - rewrite (bool_decide_false (c = "*"%char)) by done.
    by rewrite andb_false_r.
  - by rewrite (bool_decide_false (c = "\"%char)) by done.
Qed.

Lemma pass1_tokens ts :
  wellFormed ts = true ->
  ReplaceAll (ts ≫= stageText 0) ["\"%char; "*"%char; "\"%char; "*"%char]
    ["."%char; "*"%char]
  = ts ≫= stageText 1.
Proof.
  unfold ReplaceAll. induction ts as [|t ts IH]; [done|].
  intros [Ht Hts]%wellFormed_cons. cbn [mbind list_bind].
  destruct t; cbn [stageText Nat.ltb Nat.leb].
  - rewrite replaceFrom_skip_quoted; [by rewrite IH | done |].
    by destruct (not_meta c Ht) as (_ & ? & _).
  - cbn [app]. rewrite replaceFrom_step.
    replace (HasPrefix _ _) with false.
    + rewrite replaceFrom_skip_char by done. by rewrite IH.
    + symmetry. cbn [HasPrefix]. rewrite !bool_decide_true by done.
      cbn [andb]. by apply stage0_head_not_star.
  - cbn [app]. rewrite replaceFrom_step. cbn [HasPrefix length Nat.pred].
    rewrite !bool_decide_true by done. rewrite HasPrefix_nil. cbn [andb app].
    do 2 f_equal. cbn [replaceFrom]. by apply IH.
  - cbn [app]. rewrite replaceFrom_skip_escape by done. by rewrite IH.
Qed.

Lemma stageText_nonempty stage t : stageText stage t <> [].
Proof.
  destruct t; cbn [stageText]; [|by destruct (_ <? _)%nat..].
  unfold quoteChar. by destruct (isSpecial c).
Qed.

Lemma stage1_is_star ts :
  wellFormed ts = true ->
  ts ≫= stageText 1 = ["\"%char; "*"%char] -> ts = [TStar].
Proof.
  destruct ts as [|t ts]; [done|]. intros [Ht _]%wellFormed_cons.
  cbn [mbind list_bind]. destruct t; cbn [stageText Nat.ltb Nat.leb].
  - destruct (not_meta c Ht) as (Hb & Hstar & _).
    unfold quoteChar. destruct (isSpecial c); cbn [app]; intros [= ? ?]; done.
  - cbn [app]. intros [= Hrest]. destruct ts as [|t' ts']; [done|].
    cbn [mbind list_bind] in Hrest. apply app_eq_nil in Hrest as [Hrest _].
    by apply stageText_nonempty in Hrest.
  - cbn [app]. by intros [= ?].
  - cbn [app]. by intros [= ?].
Qed.

Lemma pass2_tokens ts :
  wellFormed ts = true ->
  ReplaceAll (ts ≫= stageText 1) ["\"%char; "*"%char] classText
  = ts ≫= stageText 2.
Proof.
  unfold ReplaceAll. induction ts as [|t ts IH]; [done|].
  intros [Ht Hts]%wellFormed_cons. cbn [mbind list_bind].
  destruct t; cbn [stageText Nat.ltb Nat.leb].
  - rewrite replaceFrom_skip_quoted; [by rewrite IH | done |].
    by destruct (not_meta c Ht) as (_ & ? & _).
  - cbn [app]. rewrite replaceFrom_step. cbn [HasPrefix length Nat.pred].
    rewrite !bool_decide_true by done. rewrite HasPrefix_nil. cbn [andb].
    f_equal. cbn [replaceFrom]. by apply IH.
  - cbn [app]. rewrite replaceFrom_skip_two by done. by rewrite IH.
  - cbn [app]. rewrite replaceFrom_skip_escape by done. by rewrite IH.
Qed.

Lemma pass3_tokens ts :
  wellFormed ts = true ->
  ReplaceAll (ts ≫= stageText 2) ["\"%char; "?"%char] ["."%char]
  = ts ≫= stageText 3.
Proof.
  unfold ReplaceAll. induction ts as [|t ts IH]; [done|].
  intros [Ht Hts]%wellFormed_cons. cbn [mbind list_bind].
  destruct t; cbn [stageText Nat.ltb Nat.leb].
  - rewrite replaceFrom_skip_quoted; [by rewrite IH | done |].
    by destruct (not_meta c Ht) as (_ & _ & ? & _).
  - rewrite replaceFrom_skip_class. by rewrite IH.
  - cbn [app]. rewrite replaceFrom_skip_two by done. by rewrite IH.
  - cbn [app]. rewrite replaceFrom_step. cbn [HasPrefix length Nat.pred].
    rewrite !bool_decide_true by done. rewrite HasPrefix_nil. cbn [andb app].
    f_equal. cbn [replaceFrom]. by apply IH.
Qed.

(** The replacements for the brackets change nothing. *)
Lemma pass_brackets_tokens ts x more new :
  wellFormed ts = true ->
  isGlobMeta x = true ->
  ReplaceAll (ts ≫= stageText 3) ("\"%char :: x :: more) new
  = ts ≫= stageText 3.
Proof.
  intros Hts Hx. unfold ReplaceAll. induction ts as [|t ts IH]; [done|].
  apply wellFormed_cons in Hts as [Ht Hts]. cbn [mbind list_bind].
  destruct t; cbn [stageText Nat.ltb Nat.leb].
  - rewrite replaceFrom_skip_quoted; [by rewrite IH | done |].
    intros ->. congruence.
  - rewrite replaceFrom_skip_class. by rewrite IH.
  - cbn [app]. rewrite replaceFrom_skip_two by done. by rewrite IH.
  - cbn [app]. rewrite replaceFrom_skip_char by done. by rewrite IH.
Qed.

Lemma pass_braces_tokens ts :
  wellFormed ts = true ->
  replaceBracesFrom 0 (ts ≫= stageText 3) = ts ≫= stageText 3.
Proof.
  induction ts as [|t ts IH]; [done|].
  intros [Ht Hts]%wellFormed_cons. cbn [mbind list_bind].
  destruct t; cbn [stageText Nat.ltb Nat.leb].
  - destruct (not_meta c Ht) as (Hb & _ & _ & _ & _ & Hbrace & _).
    unfold quoteChar. destruct (isSpecial c); cbn [app].
    + rewrite braces_skip_escape by done. by rewrite IH.
    + rewrite braces_skip_char by done. by rewrite IH.
  - unfold classText. cbn [app]. rewrite !braces_skip_char by done.
    by rewrite IH.
  - cbn [app]. rewrite !braces_skip_char by done. by rewrite IH.
  - cbn [app]. rewrite braces_skip_char by done. by rewrite IH.
Qed.

(** The expression of the pattern, as a text. *)
Lemma convertPattern_tokens ts :
  wellFormed ts = true ->
  ts <> [TStar] ->
  convertPattern (ts ≫= tokenText)
  = "^"%char :: (ts ≫= stageText 3) ++ ["$"%char].
Proof.
  intros Hts Hnot. unfold convertPattern.
  cbn [chars list_ascii_of_string]. fold classText.
  rewrite QuoteMeta_tokens, pass1_tokens by done.
  rewrite bool_decide_false by (intros H; by apply Hnot, stage1_is_star).
  rewrite pass2_tokens, pass3_tokens by done.
  rewrite !pass_brackets_tokens by done.
  by rewrite pass_braces_tokens.
Qed.
End TokenPatterns.
Section TokenCompile.
Implicit Types (ts : list GlobToken) (t : GlobToken) (s : list ascii)
  (c x : ascii) (its : list Regexp).

Lemma parse_stageText t a its stk lr rest :
  match t with TLit c => isGlobMeta c = false | _ => True end ->
  exists lr',
    parseFrom (mkParse (mkFrame a its) stk (Normal lr)) (stageText 3 t ++ rest)
    = parseFrom (mkParse (mkFrame a (tokenRegexp t :: its)) stk (Normal lr'))
        rest.
Proof.
  intros Ht. destruct t; cbn [stageText Nat.ltb Nat.leb tokenRegexp].
  - exists false. by apply parse_quoteChar.
  - exists true. apply parse_classText.
  - by exists true.
  - by exists false.
Qed.

Lemma parse_tokens ts a its stk lr rest :
  wellFormed ts = true ->
  exists lr',
    parseFrom (mkParse (mkFrame a its) stk (Normal lr))
      ((ts ≫= stageText 3) ++ rest)
    = parseFrom
        (mkParse (mkFrame a (rev (tokenRegexp <$> ts) ++ its)) stk (Normal lr'))
        rest.
Proof.
  revert its lr. induction ts as [|t ts IH]; intros its lr Hts.
  - by exists lr.
  - apply wellFormed_cons in Hts as [Ht Hts].
    cbn [mbind list_bind fmap list_fmap rev]. rewrite <- !app_assoc.
    destruct (parse_stageText t a its stk lr ((ts ≫= stageText 3) ++ rest))
      as [lr1 ->]; [by destruct t|].
    destruct (IH (tokenRegexp t :: its) lr1 Hts) as [lr' Heq].
    exists lr'. by rewrite Heq.
Qed.

Lemma Compile_tokens ts :
  wellFormed ts = true ->
  Compile ("^"%char :: (ts ≫= stageText 3) ++ ["$"%char])
  = inr (Concat BeginText (chainToEnd (tokenRegexp <$> ts))).
Proof.
  intros Hts. unfold Compile. cbn [parseFrom].
  change (parseStep _ "^"%char)
    with (@inr CompileError _
            (mkParse (mkFrame [] [BeginText]) [] (Normal false))).
  destruct (parse_tokens ts [] [BeginText] [] false ["$"%char] Hts)
    as [lr' ->].
  cbn [parseFrom]. unfold parseStep. cbn [mode].
  rewrite !(bool_decide_false ("$"%char = _)) by done.
  rewrite (bool_decide_true ("$"%char = "$"%char)) by done.
  unfold pushItem, parseEnd, closeFrame.
  cbn [orb mode stack top alts items foldl app].
  by rewrite concatOf_chain.
Qed.

Lemma starLoop_any (K : Cont) (K' : list ascii -> bool) fuel atStart s :
  (forall a' s', K a' s' = K' s') ->
  (length s <= fuel)%nat ->
  starLoop (matchHere AnyCharNotNL) fuel atStart s K = anyRuns K' s.
Proof.
  intros HK. revert fuel atStart.
  induction s as [|x rest IH]; intros fuel atStart Hlen.
  - destruct fuel; cbn [starLoop anyRuns matchHere]; by rewrite HK.
  - destruct fuel as [|fuel]; [simpl in Hlen; lia|].
    cbn [starLoop anyRuns matchHere]. rewrite HK. f_equal. f_equal.
    replace (length rest <? length (x :: rest))%nat with true
      by (symmetry; apply Nat.ltb_lt; simpl; lia).
    cbn [andb]. apply IH. simpl in Hlen. lia.
Qed.

Lemma matchHere_tokens ts atStart s :
  matchHere (chainToEnd (tokenRegexp <$> ts)) atStart s (fun _ _ => true)
  = tokensSem ts s.
Proof.
  revert atStart s. induction ts as [|t ts IH]; intros atStart s.
  - cbn. by rewrite andb_true_r.
  - cbn [fmap list_fmap chainToEnd foldr tokensSem].
    destruct t; cbn [tokenRegexp matchHere].
    + destruct s as [|x s']; [done|]. f_equal. apply IH.
    + apply starLoop_class; [|done]. intros a' s'. apply IH.
    + apply starLoop_any; [|done]. intros a' s'. apply IH.
    + destruct s as [|x s']; [done|]. f_equal. apply IH.
Qed.

Lemma searchFrom_tokens ts s :
  searchFrom (Concat BeginText (chainToEnd (tokenRegexp <$> ts))) true s
  = tokensSem ts s.
Proof.
  destruct s as [|x s'].
  - cbn [searchFrom matchHere andb]. rewrite orb_false_r.
    apply matchHere_tokens.
  - cbn [searchFrom]. rewrite searchFrom_begin_later, orb_false_r.
    cbn [matchHere andb]. apply matchHere_tokens.
Qed.

Lemma globMatch_tokens ts (path : string) :
  wellFormed ts = true ->
  ts <> [TStar] ->
  globMatch (tokensPattern ts) path = inr (tokensSem ts (chars path)).
Proof.
  intros Hts Hnot. unfold globMatch, MatchString, ConvertPatternToRegex.
  unfold tokensPattern. rewrite !chars_string_of.
  rewrite convertPattern_tokens by done.
  rewrite Compile_tokens by done. f_equal. apply searchFrom_tokens.
Qed.

(** What [**] matches: a run of characters without newline. *)
Lemma anyRuns_spec (k : list ascii -> bool) s :
  anyRuns k s = true <->
  exists run rest, s = run ++ rest /\ (NL ∉ run) /\ k rest = true.
Proof.
  induction s as [|x s IH]; cbn [anyRuns].
  - rewrite orb_false_r. split.
    + intros Hk. exists [], []. split; [done|].
      split; [apply not_elem_of_nil | done].
    + intros (run & rest & Heq & _ & Hk).
      symmetry in Heq. apply app_eq_nil in Heq as [_ ->]. done.
  - rewrite orb_true_iff, andb_true_iff, negb_true_iff, bool_decide_eq_false, IH.
    split.
    + intros [Hk|[Hx (run & rest & -> & Hrun & Hk)]].
      * exists [], (x :: s). split; [done|].
        split; [apply not_elem_of_nil | done].
      * exists (x :: run), rest. split; [done|]. split; [|done].
        apply not_elem_of_cons. done.
    + intros (run & rest & Heq & Hrun & Hk). destruct run as [|y run].
      * left. cbn [app] in Heq. by subst rest.
      * right. cbn [app] in Heq. injection Heq as -> ->.
        apply not_elem_of_cons in Hrun as [Hy Hrun].
        split; [done|]. by exists run, rest.
Qed.
End TokenCompile.


Section NearestWins.
Implicit Types (fs : ConfigFiles) (p : Property) (resolved : ResolvedConfig)
  (filePath configPath : Path) (section : ConfigSection).

(** The document of the directory where the climb begins is the last of
    the documents returned. *)
Lemma climbFrom_nearest fs revDir configs near :
  ParseEditorConfig fs (configPathIn (reverse revDir)) = inr near ->
  climbFrom fs revDir [] = inr configs ->
  exists outer, configs = outer ++ [near].
Proof.
  intros Hparse Hclimb.
  assert (is_Some (fs !! configPathIn (reverse revDir))) as [file Hfile].
  { unfold ParseEditorConfig in Hparse.
    by destruct (fs !! configPathIn (reverse revDir)). }
  unfold configPathIn in Hparse, Hfile.
  destruct revDir as [|segment parent]; cbn [climbFrom] in Hclimb;
    rewrite Hfile, Hparse in Hclimb.
  - exists []. destruct (Root near); by injection Hclimb as <-.
  - destruct (Root near); [exists []; by injection Hclimb as <-|].
    destruct (climbFrom_spec _ _ _ _ Hclimb) as (found & -> & _).
    by exists found.
Qed.

Lemma allSections_app (configs1 configs2 : list EditorConfig) :
  allSections (configs1 ++ configs2)
  = allSections configs1 ++ allSections configs2.
Proof. unfold allSections. apply bind_app. Qed.

Lemma applySection_matching filePath resolved configPath section p :
  matchesPattern filePath (Pattern section) configPath = inr true ->
  getProperty p (applySection filePath resolved (configPath, section))
  = default (getProperty p resolved) (sectionWrites p section).
Proof.
  intros Hmatch. unfold applySection, sectionWrites. cbn [fst snd].
  rewrite Hmatch. cbn [matchedOk]. rewrite getProperty_applyProperties.
  by destruct (Properties section !! propertyKey p).
Qed.

Lemma applySection_leaves filePath resolved configPath section p :
  leavesProperty p filePath configPath section ->
  getProperty p (applySection filePath resolved (configPath, section))
  = getProperty p resolved.
Proof.
  unfold applySection, leavesProperty, sectionWrites. cbn [fst snd].
  intros [-> | Hnone]; [done|].
  destruct (matchedOk _); [|done]. rewrite getProperty_applyProperties.
  destruct (Properties section !! propertyKey p) as [raw|]; [|done].
  cbn in Hnone. by rewrite Hnone.
Qed.

Lemma foldl_leaves filePath configPath (sections : list ConfigSection)
    resolved p :
  Forall (leavesProperty p filePath configPath) sections ->
  getProperty p (foldl (applySection filePath) resolved
                   ((fun s => (configPath, s)) <$> sections))
  = getProperty p resolved.
Proof.
  intros Hall. revert resolved.
  induction Hall as [|section rest Hleave _ IH]; intros resolved; [done|].
  cbn [fmap list_fmap foldl]. rewrite IH. by apply applySection_leaves.
Qed.
End NearestWins.
(** X22. The configuration file next to a file has the last word. When
    the directory of the file has a configuration file, its document is the
    last of those discovered; so if some section of it matches the file and
    writes a value into a property, and no later section of it does, that
    value is the resolved one, whatever the documents of the directories
    above say. *)
Theorem nearest_configuration_wins (fs : ConfigFiles) (target : Path)
    (configs : list EditorConfig) (resolved : ResolvedConfig)
    (near : EditorConfig) (before after : list ConfigSection)
    (section : ConfigSection) (p : Property) (value : PropertyValue) :
  FindEditorConfigs fs target = inr configs ->
  ResolveConfigForFile target configs = inr resolved ->
  ParseEditorConfig fs (configPathIn (Dir target)) = inr near ->
  Sections near = before ++ section :: after ->
  matchesPattern target (Pattern section) (ConfigFilePath near) = inr true ->
  sectionWrites p section = Some value ->
  Forall (leavesProperty p target (ConfigFilePath near)) after ->
  last configs = Some near /\ getProperty p resolved = value.
Proof.
  intros Hfind Hresolve Hnear Hsections Hmatch Hwrites Hafter.
  unfold FindEditorConfigs, FindEditorConfigsWithCustomConfig in Hfind.
  destruct (climbFrom_nearest fs (reverse (Dir target)) configs near)
    as [outer ->]; [by rewrite reverse_involutive | done |].
  split; [by rewrite last_snoc|].
  pose proof (resolveConfigs_spec target (outer ++ [near]) emptyResolved)
    as Hspec.
  unfold ResolveConfigForFile in Hresolve. rewrite Hresolve in Hspec.
  subst resolved. rewrite allSections_app, foldl_app.
  assert (allSections [near]
          = (fun s => (ConfigFilePath near, s)) <$> Sections near) as ->
    by apply app_nil_r.
  rewrite Hsections, fmap_app, foldl_app. cbn [fmap list_fmap foldl].
  rewrite foldl_leaves by done.
  rewrite applySection_matching by done. by rewrite Hwrites.
Qed.

Lemma nearest_configuration_wins_witness :
  exists configs resolved,
    FindEditorConfigs spacesThenTabs ["proj"; "main.go"] = inr configs
    /\ ResolveConfigForFile ["proj"; "main.go"] configs = inr resolved
    /\ getProperty PIndentStyle resolved = VString "tab".
Proof.
  eexists _, _. split; [vm_compute; reflexivity|].
  split; [vm_compute; reflexivity|].
  refine (proj2 (nearest_configuration_wins spacesThenTabs ["proj"; "main.go"]
                   _ _
                   (mkEditorConfig false
                      [mkSection "*" {[ "indent_style" := "tab" ]}]
                      ["proj"; ".editorconfig"])
                   [] [] (mkSection "*" {[ "indent_style" := "tab" ]})
                   PIndentStyle (VString "tab") _ _ _ eq_refl _ _ _)).
  - vm_compute. reflexivity.
  - vm_compute. reflexivity.
  - vm_compute. reflexivity.
  - vm_compute. reflexivity.
  - vm_compute. reflexivity.
  - constructor.
Defined.
